(** * Process scheduling simulator: a shallow embedding of
      [process_scheduling.cpp] and the properties of its six policies.

    Conventions of the embedding.
    - C++ [int] values are modelled in [Z], twice.  The definitions of the
      first part compute with exact integers.  Those of module [Int32], at
      the end of this part, are the same code with the arithmetic of a
      32-bit two's complement [int] written out: every [+], [-], [+=] and
      [-=] of the source stores the wrap-around of the exact result (signed
      overflow is undefined behaviour in C++; wrap-around is what the usual
      compilers give).  The two agree on the runs in which no operation
      leaves the [int] range ([int32_records_exact]).  The properties of
      indices, queues and selection, which no clock value bears on, are
      stated on the exact walk; the properties of time values are stated on
      [Int32]: termination and the identities among the fields for every
      valid input ([int32_total]), the bounds on the times for the inputs
      whose times fit.
    - [size_t] counters and vector indices are [nat].
    - [std::vector<Process>] is [list Process], read with [!!] and written
      with [<[ _ := _ ]>].  A [Process*] held in a ready queue is the index
      of the process in the scheduler's vector, so a write through the
      pointer is a write into the vector and the queue comparators read the
      current field values.
    - [while] loops take a fuel argument; reading [processes[i]] past the end
      of the vector is the outcome [Fault].
    - A [double] result [Fin q] stands for the double nearest to the
      rational [q]: the conversions of an [int] and of a vector size to
      [double] are exact and IEEE division rounds the exact quotient once;
      [NaN] and the infinities are as IEEE division by zero gives them. *)

From Stdlib Require Import ZArith QArith Lia.
From stdpp Require Import numbers.
From stdpp Require Import base tactics option list.

Local Open Scope Z_scope.

(** ** Process record *)

Record Process := mkProcess {
  id : Z;
  arrivalTime : Z;
  burstTime : Z;
  remainingTime : Z;
  completionTime : Z;
  turnaroundTime : Z;
  waitingTime : Z;
  responseTime : Z;
  priority : Z
}.

(** The constructor [Process(id, arrival, burst, priority)]. *)
Definition Process_new (id arrival burst priority : Z) : Process :=
  mkProcess id arrival burst burst 0 0 0 (-1) priority.

Definition set_remainingTime (p : Process) (v : Z) : Process :=
  mkProcess (id p) (arrivalTime p) (burstTime p) v (completionTime p)
            (turnaroundTime p) (waitingTime p) (responseTime p) (priority p).
Definition set_completionTime (p : Process) (v : Z) : Process :=
  mkProcess (id p) (arrivalTime p) (burstTime p) (remainingTime p) v
            (turnaroundTime p) (waitingTime p) (responseTime p) (priority p).
Definition set_turnaroundTime (p : Process) (v : Z) : Process :=
  mkProcess (id p) (arrivalTime p) (burstTime p) (remainingTime p)
            (completionTime p) v (waitingTime p) (responseTime p) (priority p).
Definition set_waitingTime (p : Process) (v : Z) : Process :=
  mkProcess (id p) (arrivalTime p) (burstTime p) (remainingTime p)
            (completionTime p) (turnaroundTime p) v (responseTime p) (priority p).
Definition set_responseTime (p : Process) (v : Z) : Process :=
  mkProcess (id p) (arrivalTime p) (burstTime p) (remainingTime p)
            (completionTime p) (turnaroundTime p) (waitingTime p) v (priority p).

(** ** Results of a floating-point division *)

Inductive Double :=
| Fin (q : Q)
| Inf (positive : bool)
| NaN.

(** [static_cast<double>(a) / b] for integers [a] and [b]. *)
Definition ddiv (a b : Z) : Double :=
  if b =? 0 then (if a =? 0 then NaN else Inf (0 <? a))
  else Fin (inject_Z a / inject_Z b)%Q.

(** ** The scheduler object: the process vector and the four metrics *)

Record Scheduler := mkScheduler {
  processes : list Process;
  avgWaitingTime : Double;
  avgTurnaroundTime : Double;
  avgResponseTime : Double;
  throughput : Double
}.

(** [Scheduler::calculateMetrics]: the four accumulators of the loop, then
    the four divisions. *)
Definition metrics_totals (ps : list Process) : Z * Z * Z * Z :=
  fold_left
    (fun '(totalWaitingTime, totalTurnaroundTime, totalResponseTime, maxCompletionTime) p =>
       (totalWaitingTime + waitingTime p,
        totalTurnaroundTime + turnaroundTime p,
        totalResponseTime + responseTime p,
        Z.max maxCompletionTime (completionTime p)))
    ps (0, 0, 0, 0).

Definition calculateMetrics (ps : list Process) : Scheduler :=
  let '(totalWaitingTime, totalTurnaroundTime, totalResponseTime, maxCompletionTime) :=
    metrics_totals ps in
  let size := Z.of_nat (length ps) in
  mkScheduler ps
    (ddiv totalWaitingTime size)
    (ddiv totalTurnaroundTime size)
    (ddiv totalResponseTime size)
    (ddiv size maxCompletionTime).

(** ** [std::sort] by arrival time

    The standard only promises a sorted permutation.  The model is the
    insertion sort that libstdc++ runs on ranges of at most 16 elements, which
    keeps the order of equal arrival times.  On a longer vector libstdc++
    runs an introsort, which returns a sorted permutation too but may order
    equal arrival times otherwise; when no two arrival times are equal
    there is one sorted permutation only.  So the model is the code's
    [std::sort] on the vectors of [sort_exact]; the theorems that need
    more than a sorted permutation of the input carry that hypothesis. *)

Definition by_arrival (a b : Process) : bool := arrivalTime a <? arrivalTime b.

Fixpoint sort_insert (x : Process) (l : list Process) : list Process :=
  match l with
  | [] => [x]
  | y :: l' => if by_arrival x y then x :: y :: l' else y :: sort_insert x l'
  end.

Definition std_sort (ps : list Process) : list Process :=
  fold_left (fun acc x => sort_insert x acc) ps [].

(** ** [std::priority_queue]: push_heap and pop_heap over a vector

    [comp] is the queue's comparator; the element at the front is one that
    [comp] puts before no other (the "largest").  The loops follow
    libstdc++'s [__push_heap] and [__adjust_heap]. *)

Section StdHeap.
Context {A : Type} (comp : A → A → bool).

Fixpoint push_heap_loop (fuel : nat) (first : list A)
         (holeIndex topIndex : nat) (value : A) : list A :=
  match fuel with
  | O => <[holeIndex := value]> first
  | S fuel' =>
      let parent := Nat.div2 (holeIndex - 1) in
      match first !! parent with
      | Some pv =>
          if (topIndex <? holeIndex)%nat && comp pv value
          then push_heap_loop fuel' (<[holeIndex := pv]> first) parent topIndex value
          else <[holeIndex := value]> first
      | None => <[holeIndex := value]> first
      end
  end.

Fixpoint adjust_heap_loop (fuel : nat) (first : list A)
         (holeIndex len : nat) : list A * nat :=
  match fuel with
  | O => (first, holeIndex)
  | S fuel' =>
      if (holeIndex <? Nat.div2 (len - 1))%nat then
        let secondChild := (2 * (holeIndex + 1))%nat in
        match first !! secondChild, first !! (secondChild - 1)%nat with
        | Some r, Some l =>
            if comp r l
            then adjust_heap_loop fuel' (<[holeIndex := l]> first) (secondChild - 1) len
            else adjust_heap_loop fuel' (<[holeIndex := r]> first) secondChild len
        | _, _ => (first, holeIndex)
        end
      else (first, holeIndex)
  end.

Definition adjust_heap (first : list A) (holeIndex len : nat) (value : A) : list A :=
  let topIndex := holeIndex in
  let '(first, holeIndex) := adjust_heap_loop len first holeIndex len in
  let '(first, holeIndex) :=
    if Nat.even len && (holeIndex =? Nat.div2 (len - 2))%nat then
      let secondChild := (2 * (holeIndex + 1))%nat in
      match first !! (secondChild - 1)%nat with
      | Some l => (<[holeIndex := l]> first, (secondChild - 1)%nat)
      | None => (first, holeIndex)
      end
    else (first, holeIndex) in
  push_heap_loop holeIndex first holeIndex topIndex value.

Definition push_heap (c : list A) : list A :=
  match c !! (length c - 1)%nat with
  | Some value => push_heap_loop (length c - 1) c (length c - 1) 0 value
  | None => c
  end.

Definition pop_heap (c : list A) : list A :=
  if (1 <? length c)%nat then
    match c !! (length c - 1)%nat, c !! 0%nat with
    | Some value, Some front =>
        adjust_heap (<[(length c - 1)%nat := front]> c) 0 (length c - 1) value
    | _, _ => c
    end
  else c.

(** [priority_queue::push], [::pop] and [::top]. *)
Definition pq_push (c : list A) (x : A) : list A := push_heap (c ++ [x]).
Definition pq_pop (c : list A) : list A := take (length c - 1) (pop_heap c).
Definition pq_top (c : list A) : option A := head c.
End StdHeap.

(** A comparator on [Process*] reads both processes through the vector. *)
Definition deref_comp (cmp : Process → Process → bool)
           (procs : list Process) (a b : nat) : bool :=
  match procs !! a, procs !! b with
  | Some pa, Some pb => cmp pa pb
  | _, _ => false
  end.

(** The comparators of the four heap-based schedulers, as written. *)
Definition SJF_cmp (a b : Process) : bool := burstTime b <? burstTime a.
Definition SRTF_cmp (a b : Process) : bool := remainingTime b <? remainingTime a.
Definition Priority_cmp (a b : Process) : bool := priority a <? priority b.
Definition PreemptivePriority_cmp (a b : Process) : bool := priority b <? priority a.

(** ** The simulated-clock walk *)

(** The scheduler's vector and the locals of [schedule()]. *)
Record Walk := mkWalk {
  procs : list Process;
  currentTime : Z;
  completed : nat;
  idx : nat;
  pq : list nat
}.

Inductive Outcome (A : Type) :=
| Done (a : A)
| Fault
| OutOfFuel.
Arguments Done {A} a.
Arguments Fault {A}.
Arguments OutOfFuel {A}.

(** [for (; i < processes.size() && processes[i].arrivalTime <= currentTime; ++i)
      queue.push(&processes[i]);]
    The recursion is on the part of the vector from index [i] on. *)
Fixpoint admit_arrivals (push : list nat → nat → list nat) (now : Z)
         (rest : list Process) (i : nat) (q : list nat) : nat * list nat :=
  match rest with
  | [] => (i, q)
  | p :: rest' =>
      if arrivalTime p <=? now then admit_arrivals push now rest' (S i) (push q i)
      else (i, q)
  end.

Definition admit_from (push : list nat → nat → list nat) (now : Z)
           (ps : list Process) (i : nat) (q : list nat) : nat * list nat :=
  admit_arrivals push now (drop i ps) i q.

(** [if (p->responseTime == -1) p->responseTime = currentTime - p->arrivalTime;] *)
Definition first_response (now : Z) (p : Process) : Process :=
  if responseTime p =? -1 then set_responseTime p (now - arrivalTime p) else p.

(** The three assignments made when a process finishes at [completion]. *)
Definition finalize (completion : Z) (p : Process) : Process :=
  let p := set_completionTime p completion in
  let p := set_turnaroundTime p (completionTime p - arrivalTime p) in
  set_waitingTime p (turnaroundTime p - burstTime p).

(** One iteration of the loop of [SJFScheduler::schedule] and of
    [PriorityScheduler::schedule]; the two differ in [cmp] only. *)
Definition np_step (cmp : Process → Process → bool) (st : Walk) : option Walk :=
  let comp := deref_comp cmp (procs st) in
  let '(i, q) := admit_from (pq_push comp) (currentTime st) (procs st) (idx st) (pq st) in
  match pq_top q with
  | None =>
      next ← procs st !! i;
      Some (mkWalk (procs st) (arrivalTime next) (completed st) i q)
  | Some top =>
      let q := pq_pop comp q in
      p ← procs st !! top;
      let p := first_response (currentTime st) p in
      let p := finalize (currentTime st + burstTime p) p in
      Some (mkWalk (<[top := p]> (procs st)) (completionTime p) (S (completed st)) i q)
  end.

(** One iteration of the loop of [SRTFScheduler::schedule] and of
    [PreemptivePriorityScheduler::schedule]. *)
Definition pre_step (cmp : Process → Process → bool) (st : Walk) : option Walk :=
  let comp := deref_comp cmp (procs st) in
  let '(i, q) := admit_from (pq_push comp) (currentTime st) (procs st) (idx st) (pq st) in
  match pq_top q with
  | None =>
      next ← procs st !! i;
      Some (mkWalk (procs st) (arrivalTime next) (completed st) i q)
  | Some top =>
      let q := pq_pop comp q in
      p ← procs st !! top;
      let p := first_response (currentTime st) p in
      let executionTime :=
        match procs st !! i with
        | Some next => Z.min (remainingTime p) (arrivalTime next - currentTime st)
        | None => remainingTime p
        end in
      let p := set_remainingTime p (remainingTime p - executionTime) in
      let now := currentTime st + executionTime in
      if remainingTime p =? 0 then
        Some (mkWalk (<[top := finalize now p]> (procs st)) now (S (completed st)) i q)
      else
        let ps := <[top := p]> (procs st) in
        Some (mkWalk ps now (completed st) i (pq_push (deref_comp cmp ps) q top))
  end.

(** [std::queue::push]. *)
Definition queue_push (q : list nat) (x : nat) : list nat := q ++ [x].

(** One iteration of the loop of [RoundRobinScheduler::schedule]. *)
Definition rr_step (timeQuantum : Z) (st : Walk) : option Walk :=
  let '(i, q) := admit_from queue_push (currentTime st) (procs st) (idx st) (pq st) in
  match q with
  | [] =>
      next ← procs st !! i;
      Some (mkWalk (procs st) (arrivalTime next) (completed st) i q)
  | front :: q =>
      p ← procs st !! front;
      let p := first_response (currentTime st) p in
      let executionTime := Z.min timeQuantum (remainingTime p) in
      let p := set_remainingTime p (remainingTime p - executionTime) in
      let now := currentTime st + executionTime in
      let ps := <[front := p]> (procs st) in
      let '(i, q) := admit_from queue_push now ps i q in
      if 0 <? remainingTime p then
        Some (mkWalk ps now (completed st) i (queue_push q front))
      else
        Some (mkWalk (<[front := finalize now p]> ps) now (S (completed st)) i q)
  end.

(** [while (completed < processes.size()) { ... }] *)
Fixpoint run (step : Walk → option Walk) (fuel : nat) (st : Walk) : Outcome Walk :=
  if (completed st <? length (procs st))%nat then
    match fuel with
    | O => OutOfFuel
    | S fuel' =>
        match step st with
        | Some st' => run step fuel' st'
        | None => Fault
        end
    end
  else Done st.

(** The locals as initialised before the loop. *)
Definition start (ps : list Process) : Walk := mkWalk ps 0 0 0 [].

(** ** The six [schedule()] methods *)

(** The body of the range-for of [FCFSScheduler::schedule]. *)
Definition FCFS_visit (currentTime : Z) (p : Process) : Z * Process :=
  let currentTime := if currentTime <? arrivalTime p then arrivalTime p else currentTime in
  let p := set_responseTime p (currentTime - arrivalTime p) in
  let p := finalize (currentTime + burstTime p) p in
  (completionTime p, p).

Fixpoint FCFS_loop (currentTime : Z) (ps : list Process) : list Process :=
  match ps with
  | [] => []
  | p :: rest =>
      let '(now, p') := FCFS_visit currentTime p in
      p' :: FCFS_loop now rest
  end.

Definition finish (o : Outcome Walk) : Outcome Scheduler :=
  match o with
  | Done st => Done (calculateMetrics (procs st))
  | Fault => Fault
  | OutOfFuel => OutOfFuel
  end.

Definition FCFS_schedule (ps : list Process) : Outcome Scheduler :=
  Done (calculateMetrics (FCFS_loop 0 (std_sort ps))).

Definition SJF_schedule (fuel : nat) (ps : list Process) : Outcome Scheduler :=
  finish (run (np_step SJF_cmp) fuel (start (std_sort ps))).

Definition SRTF_schedule (fuel : nat) (ps : list Process) : Outcome Scheduler :=
  finish (run (pre_step SRTF_cmp) fuel (start (std_sort ps))).

(** [RoundRobinScheduler::schedule] has no call of [std::sort]. *)
Definition RoundRobin_schedule (timeQuantum : Z) (fuel : nat) (ps : list Process)
  : Outcome Scheduler :=
  finish (run (rr_step timeQuantum) fuel (start ps)).

Definition Priority_schedule (fuel : nat) (ps : list Process) : Outcome Scheduler :=
  finish (run (np_step Priority_cmp) fuel (start (std_sort ps))).

Definition PreemptivePriority_schedule (fuel : nat) (ps : list Process)
  : Outcome Scheduler :=
  finish (run (pre_step PreemptivePriority_cmp) fuel (start (std_sort ps))).

(** The virtual call [scheduler->schedule()]. *)
Inductive Policy :=
| FCFS
| SJF
| SRTF
| RoundRobin (timeQuantum : Z)
| Priority
| PreemptivePriority.

Definition schedule (pol : Policy) (fuel : nat) (ps : list Process) : Outcome Scheduler :=
  match pol with
  | FCFS => FCFS_schedule ps
  | SJF => SJF_schedule fuel ps
  | SRTF => SRTF_schedule fuel ps
  | RoundRobin timeQuantum => RoundRobin_schedule timeQuantum fuel ps
  | Priority => Priority_schedule fuel ps
  | PreemptivePriority => PreemptivePriority_schedule fuel ps
  end.

(** The data set of [main]. *)
Definition main_processes : list Process :=
  [Process_new 1 0 10 3; Process_new 2 1 5 1; Process_new 3 3 8 2;
   Process_new 4 5 2 4; Process_new 5 6 4 5].

(** The columns of [printResults] that a simulation computes: id, response,
    completion, turnaround and waiting time of each process. *)
Definition timings (o : Outcome Scheduler) : list (Z * Z * Z * Z * Z) :=
  match o with
  | Done s => (fun p => (id p, responseTime p, completionTime p,
                         turnaroundTime p, waitingTime p)) <$> processes s
  | _ => []
  end.


(** ** 32-bit [int] arithmetic *)

Definition INT_MAX : Z := 2147483647.
Definition INT_MIN : Z := -2147483648.

(** The value an [int] operation stores for the exact result [z]. *)
Definition wrap (z : Z) : Z := (z + 2147483648) mod 4294967296 - 2147483648.

(** The walk with [int] arithmetic.  The definitions carry the names of
    their exact counterparts and differ from them in the arithmetic only;
    admission, the queues and the comparators do no arithmetic and are
    shared. *)
Module Int32.

Definition add (a b : Z) : Z := wrap (a + b).
Definition sub (a b : Z) : Z := wrap (a - b).

(** [if (p->responseTime == -1) p->responseTime = currentTime - p->arrivalTime;] *)
Definition first_response (now : Z) (p : Process) : Process :=
  if responseTime p =? -1 then set_responseTime p (sub now (arrivalTime p)) else p.

Definition finalize (completion : Z) (p : Process) : Process :=
  let p := set_completionTime p completion in
  let p := set_turnaroundTime p (sub (completionTime p) (arrivalTime p)) in
  set_waitingTime p (sub (turnaroundTime p) (burstTime p)).

Definition np_step (cmp : Process → Process → bool) (st : Walk) : option Walk :=
  let comp := deref_comp cmp (procs st) in
  let '(i, q) := admit_from (pq_push comp) (currentTime st) (procs st) (idx st) (pq st) in
  match pq_top q with
  | None =>
      next ← procs st !! i;
      Some (mkWalk (procs st) (arrivalTime next) (completed st) i q)
  | Some top =>
      let q := pq_pop comp q in
      p ← procs st !! top;
      let p := first_response (currentTime st) p in
      let p := finalize (add (currentTime st) (burstTime p)) p in
      Some (mkWalk (<[top := p]> (procs st)) (completionTime p) (S (completed st)) i q)
  end.

Definition pre_step (cmp : Process → Process → bool) (st : Walk) : option Walk :=
  let comp := deref_comp cmp (procs st) in
  let '(i, q) := admit_from (pq_push comp) (currentTime st) (procs st) (idx st) (pq st) in
  match pq_top q with
  | None =>
      next ← procs st !! i;
      Some (mkWalk (procs st) (arrivalTime next) (completed st) i q)
  | Some top =>
      let q := pq_pop comp q in
      p ← procs st !! top;
      let p := first_response (currentTime st) p in
      let executionTime :=
        match procs st !! i with
        | Some next => Z.min (remainingTime p) (sub (arrivalTime next) (currentTime st))
        | None => remainingTime p
        end in
      let p := set_remainingTime p (sub (remainingTime p) executionTime) in
      let now := add (currentTime st) executionTime in
      if remainingTime p =? 0 then
        Some (mkWalk (<[top := finalize now p]> (procs st)) now (S (completed st)) i q)
      else
        let ps := <[top := p]> (procs st) in
        Some (mkWalk ps now (completed st) i (pq_push (deref_comp cmp ps) q top))
  end.

Definition rr_step (timeQuantum : Z) (st : Walk) : option Walk :=
  let '(i, q) := admit_from queue_push (currentTime st) (procs st) (idx st) (pq st) in
  match q with
  | [] =>
      next ← procs st !! i;
      Some (mkWalk (procs st) (arrivalTime next) (completed st) i q)
  | front :: q =>
      p ← procs st !! front;
      let p := first_response (currentTime st) p in
      let executionTime := Z.min timeQuantum (remainingTime p) in
      let p := set_remainingTime p (sub (remainingTime p) executionTime) in
      let now := add (currentTime st) executionTime in
      let ps := <[front := p]> (procs st) in
      let '(i, q) := admit_from queue_push now ps i q in
      if 0 <? remainingTime p then
        Some (mkWalk ps now (completed st) i (queue_push q front))
      else
        Some (mkWalk (<[front := finalize now p]> ps) now (S (completed st)) i q)
  end.

Definition FCFS_visit (currentTime : Z) (p : Process) : Z * Process :=
  let currentTime := if currentTime <? arrivalTime p then arrivalTime p else currentTime in
  let p := set_responseTime p (sub currentTime (arrivalTime p)) in
  let p := finalize (add currentTime (burstTime p)) p in
  (completionTime p, p).

Fixpoint FCFS_loop (currentTime : Z) (ps : list Process) : list Process :=
  match ps with
  | [] => []
  | p :: rest =>
      let '(now, p') := FCFS_visit currentTime p in
      p' :: FCFS_loop now rest
  end.

(** The four [int] accumulators of [calculateMetrics]; [std::max] does no
    arithmetic. *)
Definition metrics_totals (ps : list Process) : Z * Z * Z * Z :=
  fold_left
    (fun '(totalWaitingTime, totalTurnaroundTime, totalResponseTime, maxCompletionTime) p =>
       (add totalWaitingTime (waitingTime p),
        add totalTurnaroundTime (turnaroundTime p),
        add totalResponseTime (responseTime p),
        Z.max maxCompletionTime (completionTime p)))
    ps (0, 0, 0, 0).

Definition calculateMetrics (ps : list Process) : Scheduler :=
  let '(totalWaitingTime, totalTurnaroundTime, totalResponseTime, maxCompletionTime) :=
    metrics_totals ps in
  let size := Z.of_nat (length ps) in
  mkScheduler ps
    (ddiv totalWaitingTime size)
    (ddiv totalTurnaroundTime size)
    (ddiv totalResponseTime size)
    (ddiv size maxCompletionTime).

Definition finish (o : Outcome Walk) : Outcome Scheduler :=
  match o with
  | Done st => Done (calculateMetrics (procs st))
  | Fault => Fault
  | OutOfFuel => OutOfFuel
  end.

(** The loop body of a policy with a ready queue. *)
Definition loop_body (pol : Policy) : option (Walk → option Walk) :=
  match pol with
  | FCFS => None
  | SJF => Some (np_step SJF_cmp)
  | SRTF => Some (pre_step SRTF_cmp)
  | RoundRobin timeQuantum => Some (rr_step timeQuantum)
  | Priority => Some (np_step Priority_cmp)
  | PreemptivePriority => Some (pre_step PreemptivePriority_cmp)
  end.

(** The six [schedule()] methods: the vector is sorted, but under Round
    Robin, and walked. *)
Definition schedule (pol : Policy) (fuel : nat) (ps : list Process) : Outcome Scheduler :=
  match pol with
  | FCFS => Done (calculateMetrics (FCFS_loop 0 (std_sort ps)))
  | SJF => finish (run (np_step SJF_cmp) fuel (start (std_sort ps)))
  | SRTF => finish (run (pre_step SRTF_cmp) fuel (start (std_sort ps)))
  | RoundRobin timeQuantum => finish (run (rr_step timeQuantum) fuel (start ps))
  | Priority => finish (run (np_step Priority_cmp) fuel (start (std_sort ps)))
  | PreemptivePriority =>
      finish (run (pre_step PreemptivePriority_cmp) fuel (start (std_sort ps)))
  end.

End Int32.
(** * Specification vocabulary *)

(** ** Inputs *)

(** A process as the constructor leaves it. *)
Definition constructed (p : Process) : Prop :=
  p = Process_new (id p) (arrivalTime p) (burstTime p) (priority p).

(** A valid input process: [arrivalTime >= 0] and [burstTime > 0]. *)
Definition valid (p : Process) : Prop :=
  constructed p ∧ 0 ≤ arrivalTime p ∧ 0 < burstTime p.

(** Round Robin needs a positive quantum; the other policies have no
    parameter. *)
Definition valid_policy (pol : Policy) : Prop :=
  match pol with
  | RoundRobin timeQuantum => 0 < timeQuantum
  | _ => True
  end.

Definition preemptive (pol : Policy) : bool :=
  match pol with
  | FCFS | SJF | Priority => false
  | SRTF | RoundRobin _ | PreemptivePriority => true
  end.

(** The fields a simulation never writes. *)
Definition static (p : Process) : Z * Z * Z * Z :=
  (id p, arrivalTime p, burstTime p, priority p).

(** In non-decreasing order of arrival time. *)
Fixpoint arrival_sorted (l : list Process) : Prop :=
  match l with
  | [] => True
  | x :: l' => Forall (fun y => arrivalTime x ≤ arrivalTime y) l' ∧ arrival_sorted l'
  end.

(** ** Outputs *)

Definition finalized (p : Process) : Prop :=
  turnaroundTime p = completionTime p - arrivalTime p ∧
  waitingTime p = turnaroundTime p - burstTime p.

(** ** Invariants of the walk

    [done] is the list of the indices of the processes completed so far, a
    ghost of the counter [completed]. *)

Record Inv (ps0 : list Process) (done : list nat) (st : Walk) : Prop := mkInv {
  inv_static : static <$> procs st = static <$> ps0;
  inv_idx : (idx st ≤ length ps0)%nat;
  inv_perm : pq st ++ done ≡ₚ seq 0 (idx st);
  inv_completed : completed st = length done;
  inv_done : ∀ k p, k ∈ done → procs st !! k = Some p → finalized p
}.

(** What holds of a process waiting in the ready queue at time [now];
    [pre] tells whether the policy is preemptive. *)
Definition ready_ok (pre : bool) (now : Z) (p : Process) : Prop :=
  0 < remainingTime p ∧ remainingTime p ≤ burstTime p ∧
  arrivalTime p + (burstTime p - remainingTime p) ≤ now ∧
  if pre
  then responseTime p = -1 ∨ 0 ≤ responseTime p ∧ arrivalTime p + responseTime p ≤ now
  else responseTime p = -1 ∧ remainingTime p = burstTime p.

(** What holds of a completed process. *)
Definition done_ok (pre : bool) (p : Process) : Prop :=
  arrivalTime p + burstTime p ≤ completionTime p ∧
  0 ≤ responseTime p ∧
  arrivalTime p + responseTime p ≤ completionTime p ∧
  if pre then remainingTime p = 0
  else arrivalTime p + responseTime p + burstTime p = completionTime p ∧
       remainingTime p = burstTime p.

Record Timed (pre : bool) (ps0 : list Process) (done : list nat) (st : Walk)
  : Prop := mkTimed {
  t_future : ∀ k, (idx st ≤ k)%nat → procs st !! k = ps0 !! k;
  t_ready : ∀ k p, k ∈ pq st → procs st !! k = Some p → ready_ok pre (currentTime st) p;
  t_done : ∀ k p, k ∈ done → procs st !! k = Some p → done_ok pre p;
  t_count : Z.of_nat (completed st) ≤ currentTime st;
  t_max : done ≠ [] →
          ∃ k p, k ∈ done ∧ procs st !! k = Some p ∧
                 Z.of_nat (length done) ≤ completionTime p
}.

(** The index at which the admission loop stops. *)
Fixpoint scan (now : Z) (rest : list Process) (i : nat) : nat :=
  match rest with
  | [] => i
  | p :: rest' => if arrivalTime p <=? now then scan now rest' (S i) else i
  end.

Definition adm (st : Walk) : nat :=
  scan (currentTime st) (drop (idx st) (procs st)) (idx st).

Definition total_remaining (ps : list Process) : Z :=
  foldr (fun p acc => remainingTime p + acc) 0 ps.

Definition total_burst (ps : list Process) : Z :=
  foldr (fun p acc => burstTime p + acc) 0 ps.

(** Termination measures: iterations left, at most. *)
Definition heap_measure (st : Walk) : nat :=
  ((length (procs st) - adm st) + (length (procs st) - completed st))%nat.

Definition rr_measure (st : Walk) : nat :=
  ((length (procs st) - adm st) + Z.to_nat (total_remaining (procs st)))%nat.

(** A bound on the number of loop iterations of [schedule]. *)
Definition steps_bound (pol : Policy) (ps : list Process) : nat :=
  match pol with
  | FCFS => length ps
  | RoundRobin _ => length ps + Z.to_nat (total_burst ps)
  | _ => 2 * length ps
  end%nat.

(** ** The policies, uniformly *)

(** The loop body of a policy; FCFS has a range-for and no such loop. *)
Definition loop_body (pol : Policy) : option (Walk → option Walk) :=
  match pol with
  | FCFS => None
  | SJF => Some (np_step SJF_cmp)
  | SRTF => Some (pre_step SRTF_cmp)
  | RoundRobin timeQuantum => Some (rr_step timeQuantum)
  | Priority => Some (np_step Priority_cmp)
  | PreemptivePriority => Some (pre_step PreemptivePriority_cmp)
  end.

(** The vector as the walk of a policy finds it. *)
Definition arranged (pol : Policy) (ps : list Process) : list Process :=
  match pol with
  | RoundRobin _ => ps
  | _ => std_sort ps
  end.

(** The largest completion time, [0] for no process. *)
Definition max_completion (ps : list Process) : Z :=
  foldr (fun p acc => Z.max (completionTime p) acc) 0 ps.

(** [n] iterations of a loop body, without the loop test. *)
Fixpoint iter (step : Walk → option Walk) (n : nat) (st : Walk) : option Walk :=
  match n with
  | O => Some st
  | S n' => match step st with
            | Some st' => iter step n' st'
            | None => None
            end
  end.

(** The states the loop of [schedule()] passes through at its head. *)
Inductive reachable (step : Walk → option Walk) (st0 : Walk) : Walk → Prop :=
| reach_start : reachable step st0 st0
| reach_step st st' :
    reachable step st0 st →
    (completed st < length (procs st))%nat →
    step st = Some st' →
    reachable step st0 st'.

(** The index and the ready queue after the admission loop at the head of
    an iteration. *)
Definition admission (pol : Policy) (st : Walk) : nat * list nat :=
  let heap cmp :=
    admit_from (pq_push (deref_comp cmp (procs st)))
               (currentTime st) (procs st) (idx st) (pq st) in
  match pol with
  | FCFS => (idx st, pq st)
  | SJF => heap SJF_cmp
  | SRTF => heap SRTF_cmp
  | RoundRobin _ => admit_from queue_push (currentTime st) (procs st) (idx st) (pq st)
  | Priority => heap Priority_cmp
  | PreemptivePriority => heap PreemptivePriority_cmp
  end.

(** The process the iteration dispatches: [pq.top()] or [readyQueue.front()]. *)
Definition dispatched (pol : Policy) (st : Walk) : option nat :=
  head (admission pol st).2.

Definition is_zero (d : Double) : bool :=
  match d with
  | Fin q => Qeq_bool q 0
  | _ => false
  end.


(** The execution slices of a run, [(id, from, to)], read off the
    successive loop states; a fast-forward iteration contributes none. *)
Definition slice_of (pol : Policy) (st st' : Walk) : option (Z * Z * Z) :=
  k ← dispatched pol st;
  p ← procs st !! k;
  Some (id p, currentTime st, currentTime st').

Fixpoint gantt (pol : Policy) (step : Walk → option Walk) (fuel : nat) (st : Walk)
  : list (Z * Z * Z) :=
  if (completed st <? length (procs st))%nat then
    match fuel with
    | O => []
    | S fuel' =>
        match step st with
        | Some st' => option_list (slice_of pol st st') ++ gantt pol step fuel' st'
        | None => []
        end
    end
  else [].

(** ** The heap order

    [comp y x = false] reads "[y] is not below [x]".  A vector is a heap up
    to [len] when no element below index [len] is above its parent, the
    element at index [(i - 1) / 2]. *)
Definition heap_upto {A} (comp : A → A → bool) (len : nat) (v : list A) : Prop :=
  ∀ i x y, (0 < i < len)%nat → v !! i = Some x →
           v !! Nat.div2 (i - 1) = Some y → comp y x = false.

Definition is_heap {A} (comp : A → A → bool) (v : list A) : Prop :=
  heap_upto comp (length v) v.

(** The parent of the hole is not below the children of the hole. *)
Definition hole_dominated {A} (comp : A → A → bool) (len : nat)
           (first : list A) (hole : nat) : Prop :=
  ∀ c x y, (0 < c < len)%nat → Nat.div2 (c - 1) = hole → (0 < hole)%nat →
           first !! c = Some x → first !! Nat.div2 (hole - 1) = Some y →
           comp y x = false.

(** The invariant of [__push_heap]: with [value] in the hole the vector is a
    heap, but for the hole and its parent. *)
Definition rising {A} (comp : A → A → bool) (len : nat)
           (first : list A) (hole : nat) (value : A) : Prop :=
  (∀ i x y, (0 < i < len)%nat → i ≠ hole → first !! i = Some x →
            <[hole := value]> first !! Nat.div2 (i - 1) = Some y →
            comp y x = false) ∧
  hole_dominated comp len first hole.

(** The invariant of the loop of [__adjust_heap]: the vector is a heap, but
    for the hole and its children. *)
Definition sinking {A} (comp : A → A → bool) (len : nat)
           (first : list A) (hole : nat) : Prop :=
  (∀ i x y, (0 < i < len)%nat → i ≠ hole → Nat.div2 (i - 1) ≠ hole →
            first !! i = Some x → first !! Nat.div2 (i - 1) = Some y →
            comp y x = false) ∧
  hole_dominated comp len first hole.

(** A comparator that orders the processes: it is asymmetric, and "not
    below" is transitive. *)
Definition orders (cmp : Process → Process → bool) : Prop :=
  (∀ p q, cmp p q = true → cmp q p = false) ∧
  (∀ p q r, cmp p q = false → cmp q r = false → cmp p r = false).

(** The ready queue of the walk is a heap of valid pointers. *)
Definition heaped (cmp : Process → Process → bool) (st : Walk) : Prop :=
  is_heap (deref_comp cmp (procs st)) (pq st).

(** The loop state of [PriorityScheduler] on the data set of [main] after
    the first iteration: process 1 has run to clock 10 and the four others
    have arrived. *)
Definition main_after_first : Walk :=
  Eval vm_compute in
    default (start []) (iter (np_step Priority_cmp) 1 (start (std_sort main_processes))).

(** ** Further vocabulary *)

(** The sum of a field over the vector. *)
Definition sum_field (f : Process → Z) (ps : list Process) : Z :=
  foldr (fun p acc => f p + acc) 0 ps.

(** The clock at which a completed process was started for the last time
    under a policy that runs it in one piece. *)
Definition startTime (p : Process) : Z := completionTime p - burstTime p.

(** Loop states of SRTF and of Preemptive Priority on the data set of
    [main] after three iterations. *)
Definition main_SRTF_after_three : Walk :=
  Eval vm_compute in
    default (start []) (iter (pre_step SRTF_cmp) 3 (start (std_sort main_processes))).

Definition main_PreemptivePriority_after_three : Walk :=
  Eval vm_compute in
    default (start [])
            (iter (pre_step PreemptivePriority_cmp) 3 (start (std_sort main_processes))).


(** A process not yet dispatched whose burst fits in one quantum. *)
Definition one_slice (timeQuantum : Z) (p : Process) : Prop :=
  responseTime p = -1 ∧ remainingTime p = burstTime p ∧
  0 < burstTime p ∧ burstTime p ≤ timeQuantum.

(** The records of a run but for [remainingTime], counted down to 0. *)
Definition run_down (ps : list Process) : list Process :=
  (fun p => set_remainingTime p 0) <$> ps.

(** Every process that arrived before the clock has been admitted. *)
Definition none_passed (st : Walk) : Prop :=
  ∀ k p, procs st !! k = Some p → arrivalTime p < currentTime st → (k < idx st)%nat.



(** What holds of every process at time [now] under a preemptive policy:
    before its first dispatch nothing of its burst is spent; after it, the
    time it has run lies between its first dispatch and [now], or its
    completion time once it is done. *)
Definition served (now : Z) (p : Process) : Prop :=
  (responseTime p = -1 → remainingTime p = burstTime p) ∧
  (responseTime p ≠ -1 →
   arrivalTime p + responseTime p + (burstTime p - remainingTime p)
   ≤ if remainingTime p =? 0 then completionTime p else now).

(** The record of a process after a slice of length [e] that starts at
    [now]. *)
Definition after_slice (now e : Z) (p : Process) : Process :=
  let p2 := set_remainingTime (first_response now p) (remainingTime p - e) in
  if remainingTime p - e =? 0 then finalize (now + e) p2 else p2.

(** Slices in time order from [from] on, each of positive length, none
    starting before the one before it ends. *)
Fixpoint in_order (from : Z) (l : list (Z * Z * Z)) : Prop :=
  match l with
  | [] => True
  | s :: l' => from ≤ s.1.2 ∧ s.1.2 < s.2 ∧ in_order s.2 l'
  end.

(** ** The [int] range *)

Definition in_int (z : Z) : Prop := INT_MIN ≤ z ≤ INT_MAX.

(** The latest arrival time, [0] for no process. *)
Definition max_arrival (ps : list Process) : Z :=
  foldr (fun p acc => Z.max (arrivalTime p) acc) 0 ps.

(** No clock value of a run on valid input exceeds the latest arrival time
    plus the sum of the burst times; the times of the run fit when that is
    an [int]. *)
Definition fits (ps : list Process) : Prop :=
  max_arrival ps + total_burst ps ≤ INT_MAX.

(** The sums of [calculateMetrics] fit when the number of processes times
    that bound is an [int]. *)
Definition totals_fit (ps : list Process) : Prop :=
  Z.of_nat (length ps) * (max_arrival ps + total_burst ps) ≤ INT_MAX.

(** The vectors on which [std_sort] is the [std::sort] of libstdc++: at
    most 16 elements, or no two equal arrival times. *)
Definition sort_exact (ps : list Process) : Prop :=
  (length ps ≤ 16)%nat ∨ NoDup (arrivalTime <$> ps).

(** The CPU time a process is still owed: its remaining time under a
    preemptive policy; under the others its burst until its dispatch. *)
Definition owed (pre : bool) (p : Process) : Z :=
  if pre then remainingTime p
  else if responseTime p =? -1 then burstTime p else 0.

(** The clock and the time owed stay within the bound of [fits]. *)
Record Within (pre : bool) (ps0 : list Process) (st : Walk) : Prop := mkWithin {
  w_clock : currentTime st + sum_field (owed pre) (procs st)
            ≤ max_arrival ps0 + total_burst ps0;
  w_owed : sum_field (owed pre) (procs st) ≤ total_burst ps0
}.

(** The identities of a finished process, in [int] arithmetic. *)
Definition finalized32 (p : Process) : Prop :=
  turnaroundTime p = Int32.sub (completionTime p) (arrivalTime p) ∧
  waitingTime p = Int32.sub (turnaroundTime p) (burstTime p).

(** No completion time is ahead of the clock. *)
Definition Behind (st : Walk) : Prop :=
  Forall (fun p => completionTime p ≤ currentTime st) (procs st).

(** ** The walk in [int] arithmetic, whatever the clock *)

(** The fields of an input process are [int] values. *)
Definition ranged (p : Process) : Prop :=
  arrivalTime p ≤ INT_MAX ∧ burstTime p ≤ INT_MAX.

(** What holds of a process in the ready queue: under a preemptive policy
    part of its burst is left; under the others it is untouched. *)
Definition ready32 (pre : bool) (p : Process) : Prop :=
  0 < remainingTime p ∧ remainingTime p ≤ burstTime p ∧
  (pre = false → responseTime p = -1 ∧ remainingTime p = burstTime p).

(** What holds of a completed process: the identities of [finalized32]
    and, under a preemptive policy, no remaining time; under the others
    its completion time is its burst after its dispatch, the [int] sums
    taken as the code takes them. *)
Definition done32 (pre : bool) (p : Process) : Prop :=
  finalized32 p ∧
  if pre then remainingTime p = 0
  else remainingTime p = burstTime p ∧
       completionTime p
       = Int32.add (Int32.add (arrivalTime p) (responseTime p)) (burstTime p).

(** The invariant of the loops in [int] arithmetic; [done] is the list of
    the indices of the processes completed so far. *)
Record Inv32 (pre : bool) (ps0 : list Process) (done : list nat) (st : Walk)
  : Prop := mkInv32 {
  i32_static : static <$> procs st = static <$> ps0;
  i32_idx : (idx st ≤ length ps0)%nat;
  i32_perm : pq st ++ done ≡ₚ seq 0 (idx st);
  i32_completed : completed st = length done;
  i32_future : ∀ k, (idx st ≤ k)%nat → procs st !! k = ps0 !! k;
  i32_ready : ∀ k p, k ∈ pq st → procs st !! k = Some p → ready32 pre p;
  i32_done : ∀ k p, k ∈ done → procs st !! k = Some p → done32 pre p;
  i32_clock : in_int (currentTime st)
}.

(** While a process is still to arrive, the clock of the SRTF and
    Preemptive Priority loops has not passed its arrival time. *)
Definition guarded (st : Walk) : Prop :=
  ∀ next, procs st !! idx st = Some next → 0 ≤ currentTime st ≤ arrivalTime next.
(** * Properties *)

(** ** The heap operations permute the vector *)

Section StdHeapFacts.
Context {A : Type} (comp : A → A → bool).

(** Moving the hole from [hole] to [j]: the vector with the hole filled
    by [value] keeps the same elements. *)
Lemma hole_move (first : list A) (hole j : nat) (c value : A) :
  (hole < length first)%nat →
  first !! j = Some c →
  j ≠ hole →
  <[j := value]> (<[hole := c]> first) ≡ₚ <[hole := value]> first.
Proof.
  intros Hh Hj Hne.
  rewrite <- (Permutation_insert_swap (<[hole := value]> first) hole j value c).
  - by rewrite list_insert_insert_eq.
  - by apply list_lookup_insert_eq.
  - by rewrite list_lookup_insert_ne.
Qed.

Lemma push_heap_loop_length fuel (first : list A) hole top value :
  length (push_heap_loop comp fuel first hole top value) = length first.
Proof.
  revert first hole.
  induction fuel as [|fuel IH]; intros first hole; simpl.
  - by rewrite length_insert.
  - destruct (first !! Nat.div2 (hole - 1)) as [pv|]; [|by rewrite length_insert].
    destruct ((top <? hole)%nat && comp pv value); [|by rewrite length_insert].
    by rewrite IH, length_insert.
Qed.

Lemma push_heap_loop_perm fuel (first : list A) hole top value :
  (hole < length first)%nat →
  push_heap_loop comp fuel first hole top value ≡ₚ <[hole := value]> first.
Proof.
  revert first hole.
  induction fuel as [|fuel IH]; intros first hole Hh; simpl; [done|].
  destruct (first !! Nat.div2 (hole - 1)) as [pv|] eqn:Hp; [|done].
  destruct ((top <? hole)%nat && comp pv value) eqn:Hc; [|done].
  apply andb_true_iff in Hc as [Hlt%Nat.ltb_lt _].
  assert (Nat.div2 (hole - 1) < hole)%nat as Hpar.
  { pose proof (Nat.div2_decr (hole - 1) (hole - 1)). lia. }
  rewrite IH by (rewrite length_insert; lia).
  apply hole_move; [done|done|lia].
Qed.

(** Writes of [__push_heap] stay at or below the hole. *)
Lemma push_heap_loop_above fuel (first : list A) hole top value j :
  (hole < j)%nat →
  push_heap_loop comp fuel first hole top value !! j = first !! j.
Proof.
  revert first hole.
  induction fuel as [|fuel IH]; intros first hole Hj; simpl.
  - rewrite list_lookup_insert_ne; [done|lia].
  - destruct (first !! Nat.div2 (hole - 1)) as [pv|] eqn:Hp;
      [|rewrite list_lookup_insert_ne; [done|lia]].
    destruct ((top <? hole)%nat && comp pv value) eqn:Hc;
      [|rewrite list_lookup_insert_ne; [done|lia]].
    pose proof (Nat.div2_decr (hole - 1) (hole - 1)).
    rewrite IH by lia. rewrite list_lookup_insert_ne; [done|lia].
Qed.

Lemma adjust_heap_loop_spec fuel (first : list A) hole len :
  (hole < len)%nat → (len ≤ length first)%nat →
  ∀ first' hole', adjust_heap_loop comp fuel first hole len = (first', hole') →
    (hole' < len)%nat ∧ (hole ≤ hole')%nat ∧ length first' = length first ∧
    (∀ j, (len ≤ j)%nat → first' !! j = first !! j) ∧
    (∀ value, <[hole' := value]> first' ≡ₚ <[hole := value]> first).
Proof.
  revert first hole.
  induction fuel as [|fuel IH]; intros first hole Hh Hl first' hole' Hrun;
    cbn [adjust_heap_loop] in Hrun.
  { by simplify_eq. }
  assert ((first, hole) = (first', hole') →
          (hole' < len)%nat ∧ (hole ≤ hole')%nat ∧ length first' = length first ∧
          (∀ j, (len ≤ j)%nat → first' !! j = first !! j) ∧
          (∀ value, <[hole' := value]> first' ≡ₚ <[hole := value]> first)) as Hexit.
  { intros ?. by simplify_eq. }
  destruct (hole <? Nat.div2 (len - 1))%nat eqn:Hlt; [|by apply Hexit].
  apply Nat.ltb_lt in Hlt.
  assert (2 * (hole + 1) < len)%nat as Hchild.
  { pose proof (Nat.div2_odd (len - 1)) as Hd.
    destruct (Nat.odd (len - 1)); simpl in Hd; lia. }
  destruct (first !! (2 * (hole + 1))%nat) as [r|] eqn:Hr; [|by apply Hexit].
  destruct (first !! (2 * (hole + 1) - 1)%nat) as [l|] eqn:Hlft; [|by apply Hexit].
  clear Hexit. destruct (comp r l).
  - apply IH in Hrun as (? & ? & Hlen & Habove & Hperm);
      [|lia|by rewrite length_insert].
    rewrite length_insert in Hlen.
    split_and!; [done|lia|done| |].
    + intros j Hj. rewrite Habove by done.
      rewrite list_lookup_insert_ne; [done|lia].
    + intros value. rewrite Hperm. apply hole_move; [lia|done|lia].
  - apply IH in Hrun as (? & ? & Hlen & Habove & Hperm);
      [|lia|by rewrite length_insert].
    rewrite length_insert in Hlen.
    split_and!; [done|lia|done| |].
    + intros j Hj. rewrite Habove by done.
      rewrite list_lookup_insert_ne; [done|lia].
    + intros value. rewrite Hperm. apply hole_move; [lia|done|lia].
Qed.

Lemma adjust_heap_spec (first : list A) hole len value :
  (hole < len)%nat → (len ≤ length first)%nat →
  adjust_heap comp first hole len value ≡ₚ <[hole := value]> first ∧
  length (adjust_heap comp first hole len value) = length first ∧
  (∀ j, (len ≤ j)%nat → adjust_heap comp first hole len value !! j = first !! j).
Proof.
  intros Hh Hl. unfold adjust_heap.
  destruct (adjust_heap_loop comp len first hole len) as [f1 h1] eqn:Hloop.
  apply adjust_heap_loop_spec in Hloop as (Hh1 & Hge & Hlen1 & Hab1 & Hp1); [|done..].
  destruct (Nat.even len && (h1 =? Nat.div2 (len - 2))%nat) eqn:Hev.
  - apply andb_true_iff in Hev as [Hev Heq%Nat.eqb_eq].
    assert (2 * (h1 + 1) - 1 < len ∧ h1 < 2 * (h1 + 1) - 1)%nat as [Hc1 Hc2].
    { destruct len as [|[|len']]; [lia|discriminate|].
      replace (S (S len') - 2)%nat with len' in Heq by lia.
      pose proof (Nat.div2_odd len') as Hd.
      rewrite Nat.even_succ_succ in Hev.
      rewrite <- Nat.negb_even, Hev in Hd. simpl in Hd. lia. }
    destruct (f1 !! (2 * (h1 + 1) - 1)%nat) as [l|] eqn:Hlft.
    + split_and!.
      * rewrite push_heap_loop_perm by (rewrite length_insert; lia).
        rewrite <- Hp1. apply hole_move; [lia|done|lia].
      * by rewrite push_heap_loop_length, length_insert.
      * intros j Hj. rewrite push_heap_loop_above by lia.
        rewrite list_lookup_insert_ne by lia. by apply Hab1.
    + split_and!.
      * rewrite push_heap_loop_perm by lia. apply Hp1.
      * by rewrite push_heap_loop_length.
      * intros j Hj. rewrite push_heap_loop_above by lia. by apply Hab1.
  - split_and!.
    + rewrite push_heap_loop_perm by lia. apply Hp1.
    + by rewrite push_heap_loop_length.
    + intros j Hj. rewrite push_heap_loop_above by lia. by apply Hab1.
Qed.

Lemma pq_push_perm (c : list A) (x : A) : pq_push comp c x ≡ₚ x :: c.
Proof.
  unfold pq_push, push_heap.
  rewrite length_app, Nat.add_sub. simpl.
  rewrite lookup_app_r, Nat.sub_diag by lia. simpl.
  rewrite push_heap_loop_perm by (rewrite length_app; simpl; lia).
  rewrite list_insert_id.
  - by rewrite Permutation_app_comm.
  - by rewrite lookup_app_r, Nat.sub_diag by lia.
Qed.

Lemma pq_pop_perm (top : A) (c : list A) : pq_pop comp (top :: c) ≡ₚ c.
Proof.
  unfold pq_pop, pop_heap.
  replace (length (top :: c) - 1)%nat with (length c) by (simpl; lia).
  destruct (1 <? length (top :: c))%nat eqn:Hlen.
  - apply Nat.ltb_lt in Hlen. simpl in Hlen.
    destruct ((top :: c) !! length c) as [value|] eqn:Hv.
    2:{ apply lookup_ge_None in Hv. simpl in Hv. lia. }
    simpl ((top :: c) !! 0%nat).
    destruct (adjust_heap_spec (<[length c := top]> (top :: c)) 0 (length c) value)
      as (Hperm & Hl & Hab); [lia|rewrite length_insert; simpl; lia|].
    set (v := adjust_heap comp (<[length c := top]> (top :: c)) 0 (length c) value) in *.
    assert (v !! length c = Some top) as Hlast.
    { rewrite Hab by lia. apply list_lookup_insert_eq. simpl. lia. }
    assert (v ≡ₚ top :: c) as Hv'.
    { rewrite Hperm. apply Permutation_insert_swap; [done|].
      done. }
    rewrite length_insert in Hl. simpl in Hl.
    assert (v = take (length c) v ++ [top]) as Hsplit.
    { rewrite <- (take_drop (length c) v) at 1. f_equal.
      apply list_eq. intros [|j].
      - rewrite lookup_drop, Nat.add_0_r. done.
      - rewrite lookup_drop. simpl. apply lookup_ge_None. lia. }
    rewrite Hsplit in Hv'.
    rewrite Permutation_app_comm in Hv'. simpl in Hv'.
    by apply Permutation_cons_inv in Hv'.
  - apply Nat.ltb_ge in Hlen. destruct c; [done|simpl in Hlen; lia].
Qed.
End StdHeapFacts.

(** ** The heap operations keep the heap order *)

Lemma div2_spec n : (n = 2 * Nat.div2 n ∨ n = 2 * Nat.div2 n + 1)%nat.
Proof.
  pose proof (Nat.div2_odd n) as H. destruct (Nat.odd n); simpl in H; lia.
Qed.

Section HeapOrder.
Context {A : Type} (comp : A → A → bool) (good : A → Prop).
Hypothesis comp_asym :
  ∀ a b, good a → good b → comp a b = true → comp b a = false.
Hypothesis comp_trans :
  ∀ a b c, good a → good b → good c →
           comp a b = false → comp b c = false → comp a c = false.

Lemma comp_irrefl a : good a → comp a a = false.
Proof.
  intros Ha. destruct (comp a a) eqn:H; [|done].
  pose proof (comp_asym a a Ha Ha H). congruence.
Qed.

(** The front of a heap is below no element. *)
Lemma heap_top_max len (v : list A) t :
  Forall good v → heap_upto comp len v → (len ≤ length v)%nat →
  v !! 0%nat = Some t →
  ∀ j x, (j < len)%nat → v !! j = Some x → comp t x = false.
Proof.
  intros Hg Hh Hlen Ht j.
  induction (lt_wf j) as [j _ IH]. intros x Hj Hx.
  destruct (decide (j = 0%nat)) as [->|Hne].
  - simplify_eq. apply comp_irrefl. by eapply Forall_lookup_1.
  - pose proof (div2_spec (j - 1)).
    destruct (lookup_lt_is_Some_2 v (Nat.div2 (j - 1))) as [y Hy]; [lia|].
    apply (comp_trans t y x); try (by eapply Forall_lookup_1).
    + apply (IH (Nat.div2 (j - 1))); [lia|lia|done].
    + apply (Hh j); [lia|done|done].
Qed.

Lemma push_heap_loop_heap fuel (first : list A) hole value len :
  Forall good first → good value →
  (hole < len ≤ length first)%nat → (hole ≤ fuel)%nat →
  rising comp len first hole value →
  heap_upto comp len (push_heap_loop comp fuel first hole 0 value).
Proof.
  revert first hole.
  induction fuel as [|fuel IH]; intros first hole Hg Hv Hlen Hfuel [Hedge Hdom].
  - assert (hole = 0%nat) as -> by lia. simpl.
    intros i x y Hi Hx Hy.
    rewrite list_lookup_insert_ne in Hx by lia.
    by apply (Hedge i x y); [lia|lia|..].
  - cbn [push_heap_loop].
    pose proof (div2_spec (hole - 1)) as Hpar.
    destruct (lookup_lt_is_Some_2 first (Nat.div2 (hole - 1))) as [pv Hpv]; [lia|].
    rewrite Hpv.
    assert (good pv) as Hgp by (by eapply Forall_lookup_1).
    destruct ((0 <? hole)%nat && comp pv value) eqn:Hc.
    + apply andb_true_iff in Hc as [Hpos%Nat.ltb_lt Hc].
      assert (comp value pv = false) as Hvp by (by apply comp_asym).
      apply IH; [by apply Forall_insert|done|rewrite length_insert; lia|lia|].
      split.
      * intros i x y Hi Hne Hx Hy.
        pose proof (div2_spec (i - 1)) as Hpi.
        destruct (decide (i = hole)) as [->|Hih].
        -- rewrite list_lookup_insert_eq in Hx by lia. simplify_eq.
           rewrite list_lookup_insert_eq in Hy by (rewrite length_insert; lia).
           by simplify_eq.
        -- rewrite list_lookup_insert_ne in Hx by done.
           assert (good x) as Hgx by (by eapply Forall_lookup_1).
           destruct (decide (Nat.div2 (i - 1) = Nat.div2 (hole - 1))) as [Heq|Hnp].
           ++ rewrite Heq, list_lookup_insert_eq in Hy
                by (rewrite length_insert; lia).
              simplify_eq.
              apply (comp_trans y pv x); [done..|].
              apply (Hedge i x pv); [lia|done|done|].
              rewrite list_lookup_insert_ne by lia. by rewrite Heq.
           ++ rewrite list_lookup_insert_ne in Hy by done.
              destruct (decide (Nat.div2 (i - 1) = hole)) as [Heh|Hnh].
              ** rewrite Heh, list_lookup_insert_eq in Hy by lia. simplify_eq.
                 by apply (Hdom i x y); [lia|done|lia|done|done].
              ** rewrite list_lookup_insert_ne in Hy by done.
                 apply (Hedge i x y); [lia|done|done|].
                 by rewrite list_lookup_insert_ne.
      * intros c x y Hcr Hcp Hp0 Hx Hy.
        pose proof (div2_spec (c - 1)) as Hpc.
        pose proof (div2_spec (Nat.div2 (hole - 1) - 1)) as Hgpar.
        rewrite list_lookup_insert_ne in Hy by lia.
        assert (good y) as Hgy by (by eapply Forall_lookup_1).
        assert (comp y pv = false) as Hypv.
        { apply (Hedge (Nat.div2 (hole - 1)) pv y); [lia|lia|done|].
          by rewrite list_lookup_insert_ne by lia. }
        destruct (decide (c = hole)) as [->|Hch].
        -- rewrite list_lookup_insert_eq in Hx by lia. by simplify_eq.
        -- rewrite list_lookup_insert_ne in Hx by done.
           apply (comp_trans y pv x); [done|done|by eapply Forall_lookup_1|done|].
           apply (Hedge c x pv); [lia|done|done|].
           rewrite list_lookup_insert_ne by lia. by rewrite Hcp.
    + intros i x y Hi Hx Hy.
      destruct (decide (i = hole)) as [->|Hih].
      * rewrite list_lookup_insert_eq in Hx by lia. simplify_eq.
        rewrite list_lookup_insert_ne in Hy by lia. simplify_eq.
        apply andb_false_iff in Hc as [Hc|Hc]; [|done].
        apply Nat.ltb_ge in Hc. lia.
      * rewrite list_lookup_insert_ne in Hx by done.
        by apply (Hedge i x y); [lia|done|..].
Qed.

(** One move of the hole down to its child [c], when [c] is not below the
    other child. *)
Lemma sink_step (first : list A) hole len c vc :
  Forall good first → (hole < len ≤ length first)%nat →
  sinking comp len first hole →
  Nat.div2 (c - 1) = hole → (0 < c < len)%nat → first !! c = Some vc →
  (∀ d vd, (0 < d < len)%nat → d ≠ c → Nat.div2 (d - 1) = hole →
           first !! d = Some vd → comp vc vd = false) →
  sinking comp len (<[hole := vc]> first) c.
Proof.
  intros Hg Hlen [Hedge Hdom] Hpc Hc Hvc Hother.
  pose proof (div2_spec (c - 1)) as Hc2.
  split.
  - intros i x y Hi Hic Hipc Hx Hy.
    pose proof (div2_spec (i - 1)) as Hi2.
    destruct (decide (i = hole)) as [->|Hih].
    + rewrite list_lookup_insert_eq in Hx by lia. simplify_eq.
      rewrite list_lookup_insert_ne in Hy by lia.
      by apply (Hdom c x y); [lia|done|lia|done|done].
    + rewrite list_lookup_insert_ne in Hx by done.
      destruct (decide (Nat.div2 (i - 1) = hole)) as [Heq|Hne].
      * rewrite Heq, list_lookup_insert_eq in Hy by lia. simplify_eq.
        by apply (Hother i x); [lia|done|done|done].
      * rewrite list_lookup_insert_ne in Hy by done.
        by apply (Hedge i x y).
  - intros cc x y Hcc Hccp Hc0 Hx Hy.
    pose proof (div2_spec (cc - 1)) as Hcc2.
    rewrite list_lookup_insert_ne in Hx by lia.
    rewrite Hpc, list_lookup_insert_eq in Hy by lia.
    assert (y = vc) as -> by congruence.
    apply (Hedge cc x vc); [lia|lia|lia|done|by rewrite Hccp].
Qed.

Lemma adjust_heap_loop_heap fuel (first : list A) hole len :
  Forall good first → (hole < len ≤ length first)%nat →
  (len ≤ fuel + hole)%nat → sinking comp len first hole →
  ∀ first' hole', adjust_heap_loop comp fuel first hole len = (first', hole') →
    sinking comp len first' hole' ∧ ¬ (hole' < Nat.div2 (len - 1))%nat ∧
    Forall good first'.
Proof.
  revert first hole.
  induction fuel as [|fuel IH]; intros first hole Hg Hlen Hfuel Hs first' hole' Hrun;
    [lia|].
  cbn [adjust_heap_loop] in Hrun.
  destruct (Nat.ltb_spec hole (Nat.div2 (len - 1))) as [Hlt|Hge];
    [|simplify_eq; split_and!; [done|lia|done]].
  pose proof (div2_spec (len - 1)) as Hl2.
  destruct (lookup_lt_is_Some_2 first (2 * (hole + 1))) as [r Hr]; [lia|].
  destruct (lookup_lt_is_Some_2 first (2 * (hole + 1) - 1)) as [l Hl]; [lia|].
  rewrite Hr, Hl in Hrun.
  assert (good r ∧ good l) as [Hgr Hgl] by (split; by eapply Forall_lookup_1).
  destruct (comp r l) eqn:Hc.
  - apply IH in Hrun; [done|by apply Forall_insert|
                       rewrite length_insert; lia|lia|].
    apply sink_step; [done|done|done| |lia|done|].
    + pose proof (div2_spec (2 * (hole + 1) - 1 - 1)). lia.
    + intros d vd Hd Hne Hdp Hvd. pose proof (div2_spec (d - 1)).
      assert (d = (2 * (hole + 1))%nat) as -> by lia. simplify_eq.
      by apply comp_asym.
  - apply IH in Hrun; [done|by apply Forall_insert|
                       rewrite length_insert; lia|lia|].
    apply sink_step; [done|done|done| |lia|done|].
    + pose proof (div2_spec (2 * (hole + 1) - 1)). lia.
    + intros d vd Hd Hne Hdp Hvd. pose proof (div2_spec (d - 1)).
      assert (d = (2 * (hole + 1) - 1)%nat) as -> by lia. by simplify_eq.
Qed.

(** At a leaf the two invariants agree. *)
Lemma sinking_leaf_rising (first : list A) hole len value :
  sinking comp len first hole → (len ≤ 2 * hole + 1)%nat →
  rising comp len first hole value.
Proof.
  intros [Hedge Hdom] Hleaf. split; [|done].
  intros i x y Hi Hih Hx Hy. pose proof (div2_spec (i - 1)).
  rewrite list_lookup_insert_ne in Hy by lia.
  apply (Hedge i x y); [done|done|lia|done|done].
Qed.

Lemma adjust_heap_heap (first : list A) len value :
  Forall good first → good value → (0 < len ≤ length first)%nat →
  sinking comp len first 0 →
  heap_upto comp len (adjust_heap comp first 0 len value).
Proof.
  intros Hg Hv Hlen Hs. unfold adjust_heap.
  destruct (adjust_heap_loop comp len first 0 len) as [f1 h1] eqn:Hloop.
  pose proof (adjust_heap_loop_spec comp len first 0 len ltac:(lia) ltac:(lia)
                _ _ Hloop) as (Hh1 & _ & Hlen1 & _ & _).
  apply adjust_heap_loop_heap in Hloop as (Hs1 & Hstop & Hg1); [|done|lia|lia|done].
  pose proof (div2_spec (len - 1)) as Hl1.
  pose proof (div2_spec (len - 2)) as Hl2.
  destruct (Nat.even len && (h1 =? Nat.div2 (len - 2))%nat) eqn:Hev.
  - apply andb_true_iff in Hev as [Hev%Nat.even_spec Heq%Nat.eqb_eq].
    destruct Hev as [m Hm].
    destruct (lookup_lt_is_Some_2 f1 (2 * (h1 + 1) - 1)) as [l Hl]; [lia|].
    rewrite Hl.
    apply push_heap_loop_heap;
      [by apply Forall_insert; [|by eapply Forall_lookup_1]|done|
       rewrite length_insert; lia|lia|].
    apply sinking_leaf_rising; [|lia].
    apply sink_step; [done|lia|done| |lia|done|].
    + pose proof (div2_spec (2 * (h1 + 1) - 1 - 1)). lia.
    + intros d vd Hd Hne Hdp Hvd. pose proof (div2_spec (d - 1)). lia.
  - apply push_heap_loop_heap; [done|done|lia|lia|].
    apply sinking_leaf_rising; [done|].
    apply andb_false_iff in Hev as [Hev|Hev].
    + destruct (decide (len ≤ 2 * h1 + 1)%nat) as [|Hn]; [done|].
      assert (Nat.even len = true) as Heven; [|congruence].
      apply Nat.even_spec. exists (h1 + 1)%nat. lia.
    + apply Nat.eqb_neq in Hev.
      destruct (decide (len ≤ 2 * h1 + 1)%nat) as [|Hn]; [done|].
      assert (len = 2 * h1 + 2)%nat as Hlen2 by lia.
      rewrite Hlen2 in Hl2, Hev.
      replace (2 * h1 + 2 - 2)%nat with (2 * h1)%nat in * by lia. lia.
Qed.

Lemma pq_push_heap (c : list A) x :
  Forall good c → good x → is_heap comp c → is_heap comp (pq_push comp c x).
Proof.
  intros Hg Hx Hh. unfold is_heap, pq_push, push_heap.
  rewrite length_app, Nat.add_sub. simpl.
  rewrite lookup_app_r, Nat.sub_diag by lia. simpl.
  rewrite push_heap_loop_length, length_app. simpl.
  apply push_heap_loop_heap;
    [by apply Forall_app; split; [|constructor]|done|
     rewrite length_app; simpl; lia|lia|].
  split.
  - intros i a b Hi Hne Ha Hb. pose proof (div2_spec (i - 1)).
    rewrite list_insert_id in Hb by (by rewrite lookup_app_r, Nat.sub_diag by lia).
    rewrite lookup_app_l in Ha by lia. rewrite lookup_app_l in Hb by lia.
    apply (Hh i a b); [lia|done|done].
  - intros d a b Hd Hdp Hpos _ _. pose proof (div2_spec (d - 1)). lia.
Qed.

Lemma pq_pop_heap (c : list A) :
  Forall good c → is_heap comp c → is_heap comp (pq_pop comp c).
Proof.
  intros Hg Hh. unfold is_heap, pq_pop, pop_heap.
  destruct (Nat.ltb_spec 1 (length c)) as [Hlen|Hlen].
  - destruct (lookup_lt_is_Some_2 c (length c - 1)) as [value Hv]; [lia|].
    destruct (lookup_lt_is_Some_2 c 0) as [front Hf]; [lia|].
    rewrite Hv, Hf.
    destruct (adjust_heap_spec comp (<[(length c - 1)%nat := front]> c) 0
                (length c - 1) value) as (_ & Hl & _);
      [lia|rewrite length_insert; lia|].
    rewrite length_insert in Hl.
    rewrite length_take_le by lia.
    assert (heap_upto comp (length c - 1)
              (adjust_heap comp (<[(length c - 1)%nat := front]> c) 0
                           (length c - 1) value)) as Hheap.
    { apply adjust_heap_heap;
        [apply Forall_insert; [done|by eapply Forall_lookup_1]|
         by eapply Forall_lookup_1|rewrite length_insert; lia|].
      split.
      - intros i a b Hi Hne Hnp Ha Hb. pose proof (div2_spec (i - 1)).
        rewrite list_lookup_insert_ne in Ha by lia.
        rewrite list_lookup_insert_ne in Hb by lia.
        apply (Hh i a b); [lia|done|done].
      - intros d a b _ _ Hpos. lia. }
    intros i a b Hi Ha Hb. pose proof (div2_spec (i - 1)).
    rewrite lookup_take_lt in Ha by lia. rewrite lookup_take_lt in Hb by lia.
    by apply (Hheap i a b).
  - intros i a b Hi. rewrite length_take in Hi. lia.
Qed.

(** The order of a heap rests on the comparisons of its elements only. *)
Lemma heap_upto_ext (comp' : A → A → bool) len (v : list A) :
  (∀ a b, a ∈ v → b ∈ v → comp' a b = comp a b) →
  heap_upto comp len v → heap_upto comp' len v.
Proof.
  intros Hext Hh i x y Hi Hx Hy.
  rewrite Hext by (by eapply list_elem_of_lookup_2). by apply (Hh i).
Qed.
End HeapOrder.

(** ** Sorting permutes *)

Lemma sort_insert_perm x l : sort_insert x l ≡ₚ x :: l.
Proof.
  induction l as [|y l IH]; simpl; [done|].
  destruct (by_arrival x y); [done|].
  by rewrite IH, Permutation_swap.
Qed.

Lemma std_sort_perm ps : std_sort ps ≡ₚ ps.
Proof.
  unfold std_sort.
  assert (∀ acc, fold_left (fun acc x => sort_insert x acc) ps acc ≡ₚ ps ++ acc) as H.
  { induction ps as [|p ps IH]; intros acc; simpl; [done|].
    rewrite IH, sort_insert_perm. by rewrite Permutation_middle. }
  by rewrite H, app_nil_r.
Qed.

Lemma std_sort_length ps : length (std_sort ps) = length ps.
Proof. by rewrite std_sort_perm. Qed.

(** Sorting sorts, and leaves a sorted vector as it is. *)

Lemma sort_insert_sorted x l : arrival_sorted l → arrival_sorted (sort_insert x l).
Proof.
  induction l as [|y l IH]; simpl; [done|]. intros [Hy Hl].
  unfold by_arrival. destruct (Z.ltb_spec (arrivalTime x) (arrivalTime y)) as [Hlt|Hge].
  - simpl. split_and!; [|done|done].
    constructor; [lia|]. eapply Forall_impl; [exact Hy|]. simpl. lia.
  - simpl. split; [|by apply IH].
    rewrite sort_insert_perm. by constructor.
Qed.

Lemma std_sort_sorted ps : arrival_sorted (std_sort ps).
Proof.
  unfold std_sort.
  assert (∀ acc, arrival_sorted acc →
            arrival_sorted (fold_left (fun acc x => sort_insert x acc) ps acc)) as H.
  { induction ps as [|p ps IH]; intros acc Hacc; simpl; [done|].
    by apply IH, sort_insert_sorted. }
  by apply H.
Qed.

Lemma sort_insert_last x l :
  Forall (fun y => arrivalTime y ≤ arrivalTime x) l → sort_insert x l = l ++ [x].
Proof.
  induction 1 as [|y l Hy _ IH]; simpl; [done|].
  unfold by_arrival. destruct (Z.ltb_spec (arrivalTime x) (arrivalTime y)); [lia|].
  by rewrite IH.
Qed.

Lemma arrival_sorted_app_cons acc p ps :
  arrival_sorted (acc ++ p :: ps) →
  Forall (fun y => arrivalTime y ≤ arrivalTime p) acc.
Proof.
  induction acc as [|a acc IH]; simpl; [done|]. intros [Ha Hs].
  constructor; [|by apply IH].
  rewrite Forall_app, Forall_cons in Ha. by destruct Ha as (_ & ? & _).
Qed.

(** The insertion sort leaves a sorted vector as it is; so does the
    [std::sort] of the code on the vectors of [sort_exact]. *)
Lemma std_sort_of_sorted ps : arrival_sorted ps → std_sort ps = ps.
Proof.
  unfold std_sort.
  assert (∀ acc, arrival_sorted (acc ++ ps) →
            fold_left (fun acc x => sort_insert x acc) ps acc = acc ++ ps) as H.
  { induction ps as [|p ps IH]; intros acc Hs; simpl; [by rewrite app_nil_r|].
    rewrite sort_insert_last by (by eapply arrival_sorted_app_cons).
    rewrite IH; rewrite <- app_assoc; done. }
  intros Hs. by apply (H []).
Qed.

Lemma std_sort_idempotent ps : std_sort (std_sort ps) = std_sort ps.
Proof. apply std_sort_of_sorted, std_sort_sorted. Qed.

(** ** The admission loop *)

Lemma scan_ge now rest i : (i ≤ scan now rest i)%nat.
Proof.
  revert i. induction rest as [|p rest IH]; intros i; simpl; [lia|].
  destruct (arrivalTime p <=? now); [|lia].
  specialize (IH (S i)). lia.
Qed.

Lemma scan_le now rest i : (scan now rest i ≤ i + length rest)%nat.
Proof.
  revert i. induction rest as [|p rest IH]; intros i; simpl; [lia|].
  destruct (arrivalTime p <=? now); [|lia].
  specialize (IH (S i)). lia.
Qed.

Lemma scan_next now p rest i :
  arrivalTime p ≤ now → (S i ≤ scan now (p :: rest) i)%nat.
Proof.
  intros Ha. simpl. rewrite (proj2 (Z.leb_le _ _) Ha). apply scan_ge.
Qed.



Lemma admit_spec push now rest i q :
  (∀ q x, push q x ≡ₚ x :: q) →
  ∀ i' q', admit_arrivals push now rest i q = (i', q') →
    i' = scan now rest i ∧
    q' ≡ₚ q ++ seq i (i' - i) ∧
    (∀ j p, (j < i' - i)%nat → rest !! j = Some p → arrivalTime p ≤ now) ∧
    (∀ p, rest !! (i' - i)%nat = Some p → now < arrivalTime p).
Proof.
  intros Hpush. revert i q.
  induction rest as [|p rest IH]; intros i q i' q' Hrun; simpl in Hrun.
  { simplify_eq. rewrite Nat.sub_diag. simpl.
    split_and!; [done|by rewrite app_nil_r|lia|done]. }
  simpl. destruct (arrivalTime p <=? now) eqn:Ha.
  - apply IH in Hrun as (-> & Hq & Hin & Hout).
    pose proof (scan_ge now rest (S i)).
    replace (scan now rest (S i) - i)%nat
      with (S (scan now rest (S i) - S i)) by lia.
    split_and!; [done| | |].
    + rewrite Hq, Hpush. simpl. by rewrite Permutation_middle.
    + intros [|j] p' Hj Hp'; simpl in Hp'.
      * simplify_eq. by apply Z.leb_le.
      * apply (Hin j); [lia|done].
    + intros p' Hp'. simpl in Hp'. by apply Hout.
  - simplify_eq. rewrite Nat.sub_diag. simpl.
    split_and!; [done|by rewrite app_nil_r|lia|].
    intros p' ?. simplify_eq. by apply Z.leb_gt.
Qed.

(** With the FIFO queue the admitted indices are appended in order. *)
Lemma admit_queue now rest i q :
  admit_arrivals queue_push now rest i q =
  (scan now rest i, q ++ seq i (scan now rest i - i)).
Proof.
  revert i q. induction rest as [|p rest IH]; intros i q; simpl.
  { by rewrite Nat.sub_diag, app_nil_r. }
  destruct (arrivalTime p <=? now).
  - rewrite IH. unfold queue_push. f_equal.
    pose proof (scan_ge now rest (S i)).
    replace (scan now rest (S i) - i)%nat
      with (S (scan now rest (S i) - S i)) by lia.
    simpl. by rewrite <- app_assoc.
  - by rewrite Nat.sub_diag, app_nil_r.
Qed.

Lemma queue_push_perm (q : list nat) x : queue_push q x ≡ₚ x :: q.
Proof. unfold queue_push. by rewrite Permutation_app_comm. Qed.

(** ** The structural invariant *)

Lemma static_lookup (ps ps0 : list Process) (k : nat) p :
  static <$> ps = static <$> ps0 → ps !! k = Some p →
  ∃ p0, ps0 !! k = Some p0 ∧ static p = static p0.
Proof.
  intros Heq Hp.
  assert ((static <$> ps0) !! k = Some (static p)) as H.
  { rewrite <- Heq, list_lookup_fmap, Hp. done. }
  rewrite list_lookup_fmap in H.
  destruct (ps0 !! k) as [p0|]; [|done].
  exists p0. split; [done|]. simpl in H. congruence.
Qed.

Lemma static_length (ps ps0 : list Process) :
  static <$> ps = static <$> ps0 → length ps = length ps0.
Proof. intros H. by rewrite <- (length_fmap static ps), H, length_fmap. Qed.

Lemma static_insert (ps ps0 : list Process) (k : nat) p p' :
  static <$> ps = static <$> ps0 → ps !! k = Some p → static p' = static p →
  static <$> <[k := p']> ps = static <$> ps0.
Proof.
  intros Heq Hp Hs. rewrite list_fmap_insert, Hs, <- Heq.
  apply list_insert_id. by rewrite list_lookup_fmap, Hp.
Qed.

Section Invariant.
Context (ps0 : list Process).

Lemma Inv_start : Inv ps0 [] (start ps0).
Proof. split; simpl; [done|lia|done|done|]. intros k p Hk. by apply elem_of_nil in Hk. Qed.

Lemma Inv_length done st : Inv ps0 done st → length (procs st) = length ps0.
Proof. intros [Hs _ _ _ _]. by apply static_length. Qed.

Lemma Inv_NoDup done st : Inv ps0 done st → NoDup (pq st ++ done).
Proof. intros [_ _ Hp _ _]. rewrite Hp. apply NoDup_seq. Qed.

Lemma Inv_elem done st k :
  Inv ps0 done st → k ∈ pq st ++ done → (k < idx st)%nat.
Proof.
  intros [_ _ Hp _ _] Hk. rewrite Hp in Hk. apply elem_of_seq in Hk. lia.
Qed.

Lemma Inv_lookup done st k :
  Inv ps0 done st → k ∈ pq st ++ done → is_Some (procs st !! k).
Proof.
  intros HI Hk. apply lookup_lt_is_Some.
  rewrite (Inv_length _ _ HI). pose proof (Inv_elem _ _ _ HI Hk).
  pose proof (inv_idx _ _ _ HI). lia.
Qed.

(** The clock is no part of the structural invariant. *)
Lemma Inv_admit done st now i q :
  Inv ps0 done st → (idx st ≤ i ≤ length ps0)%nat →
  q ≡ₚ pq st ++ seq (idx st) (i - idx st) →
  Inv ps0 done (mkWalk (procs st) now (completed st) i q).
Proof.
  intros [Hs Hi Hp Hc Hd] Hle Hq. split; simpl; [done|lia| |done|done].
  rewrite Hq. rewrite <- app_assoc, (Permutation_app_comm (seq _ _)), app_assoc, Hp.
  replace i with (idx st + (i - idx st))%nat at 2 by lia.
  by rewrite seq_app.
Qed.

Lemma Inv_requeue done st top p p' now q :
  Inv ps0 done st → top ∈ pq st → procs st !! top = Some p →
  static p' = static p → q ≡ₚ pq st →
  Inv ps0 done (mkWalk (<[top := p']> (procs st)) now (completed st) (idx st) q).
Proof.
  intros HI Htop Hp Hst Hq. pose proof (Inv_NoDup _ _ HI) as Hnd.
  destruct HI as [Hs Hi Hperm Hc Hd].
  split; simpl; [by eapply static_insert|done|by rewrite Hq|done|].
  intros k pk Hk Hpk. apply NoDup_app in Hnd as (_ & Hdisj & _).
  rewrite list_lookup_insert_ne in Hpk; [by eapply Hd|].
  intros ->. by eapply Hdisj.
Qed.

Lemma Inv_complete done st top p p' now q :
  Inv ps0 done st → pq st ≡ₚ top :: q → procs st !! top = Some p →
  static p' = static p → finalized p' →
  Inv ps0 (top :: done)
      (mkWalk (<[top := p']> (procs st)) now (S (completed st)) (idx st) q).
Proof.
  intros HI Hq Hp Hst Hfin. pose proof (Inv_NoDup _ _ HI) as Hnd.
  destruct HI as [Hs Hi Hperm Hc Hd].
  split; simpl; [by eapply static_insert|done| |by rewrite Hc|].
  - by rewrite <- Permutation_middle, <- Hperm, Hq.
  - intros k pk Hk Hpk. rewrite Hq in Hnd. simpl in Hnd.
    apply NoDup_cons in Hnd as [Hnotin _].
    apply elem_of_cons in Hk as [->|Hk].
    + rewrite list_lookup_insert_eq in Hpk by (by eapply lookup_lt_Some).
      by simplify_eq.
    + rewrite list_lookup_insert_ne in Hpk; [by eapply Hd|].
      intros ->. apply Hnotin, elem_of_app. by right.
Qed.

(** The fast-forward branch reads inside the vector. *)
Lemma Inv_next done st :
  Inv ps0 done st → pq st = [] → (completed st < length (procs st))%nat →
  (idx st < length (procs st))%nat.
Proof.
  intros HI Hq Hlt. rewrite (Inv_length _ _ HI) in *.
  destruct HI as [_ Hi Hperm Hc _]. rewrite Hq in Hperm. simpl in Hperm.
  apply Permutation_length in Hperm. rewrite length_seq in Hperm. lia.
Qed.

(** When the loop exits every process has been completed. *)
Lemma Inv_exit done st :
  Inv ps0 done st → ¬ (completed st < length (procs st))%nat →
  done ≡ₚ seq 0 (length ps0) ∧ pq st = [] ∧ completed st = length ps0.
Proof.
  intros HI Hge. rewrite (Inv_length _ _ HI) in Hge.
  destruct HI as [_ Hi Hperm Hc _].
  pose proof (Permutation_length Hperm) as Hlen.
  rewrite length_app, length_seq in Hlen.
  assert (idx st = length ps0 ∧ length (pq st) = 0%nat) as [Hidx Hq] by lia.
  destruct (pq st); [|done]. simpl in Hperm. rewrite Hidx in Hperm.
  split_and!; [done|done|lia].
Qed.
End Invariant.

(** ** The timing invariant, for valid inputs *)

Lemma valid_ready pre now p :
  valid p → arrivalTime p ≤ now → ready_ok pre now p.
Proof.
  intros (Hc & Ha & Hb) Hn. unfold constructed in Hc.
  unfold ready_ok. rewrite Hc. simpl. destruct pre; lia.
Qed.

Lemma ready_ok_mono pre now now' p :
  ready_ok pre now p → now ≤ now' → ready_ok pre now' p.
Proof. unfold ready_ok. destruct pre; intros; lia. Qed.

Section Timing.
Context (ps0 : list Process) (pre : bool).
Hypothesis Hvalid : Forall valid ps0.

Lemma Timed_start : Timed pre ps0 [] (start ps0).
Proof.
  split; simpl; [done| | |lia|done].
  - intros k p Hk. by apply elem_of_nil in Hk.
  - intros k p Hk. by apply elem_of_nil in Hk.
Qed.

Lemma Timed_clock done st now :
  Timed pre ps0 done st → currentTime st ≤ now →
  Timed pre ps0 done (mkWalk (procs st) now (completed st) (idx st) (pq st)).
Proof.
  intros [Hf Hr Hd Hc Hm] Hle. split; simpl; [done| |done|lia|done].
  intros k p Hk Hp. eapply (ready_ok_mono _ (currentTime st)); [by eapply Hr|done].
Qed.

Lemma Timed_admit done st i q :
  Inv ps0 done st → Timed pre ps0 done st →
  (idx st ≤ i ≤ length ps0)%nat →
  q ≡ₚ pq st ++ seq (idx st) (i - idx st) →
  (∀ j p, (j < i - idx st)%nat → drop (idx st) (procs st) !! j = Some p →
          arrivalTime p ≤ currentTime st) →
  Timed pre ps0 done (mkWalk (procs st) (currentTime st) (completed st) i q).
Proof.
  intros HI [Hf Hr Hd Hc Hm] Hle Hq Harr.
  split; simpl; [|  |done|done|done].
  - intros k Hk. apply Hf. lia.
  - intros k p Hk Hp. rewrite Hq in Hk.
    apply elem_of_app in Hk as [Hk|Hk]; [by eapply Hr|].
    apply elem_of_seq in Hk.
    apply valid_ready.
    + rewrite Hf in Hp by lia.
      eapply Forall_lookup_1; [apply Hvalid|done].
    + apply (Harr (k - idx st)%nat); [lia|].
      rewrite lookup_drop. by replace (idx st + (k - idx st))%nat with k by lia.
Qed.

Lemma Timed_requeue done st top p p' now q :
  Inv ps0 done st → Timed pre ps0 done st →
  top ∈ pq st → procs st !! top = Some p →
  ready_ok pre now p' → currentTime st ≤ now → q ≡ₚ pq st →
  Timed pre ps0 done
        (mkWalk (<[top := p']> (procs st)) now (completed st) (idx st) q).
Proof.
  intros HI [Hf Hr Hd Hc Hm] Htop Hp Hok Hle Hq.
  pose proof (Inv_NoDup _ _ _ HI) as Hnd.
  apply NoDup_app in Hnd as (_ & Hdisj & _).
  assert (top < idx st)%nat as Hlt.
  { eapply Inv_elem; [done|]. apply elem_of_app. by left. }
  split; simpl.
  - intros k Hk. rewrite list_lookup_insert_ne by lia. by apply Hf.
  - intros k pk Hk Hpk. rewrite Hq in Hk.
    destruct (decide (k = top)) as [->|Hne].
    + rewrite list_lookup_insert_eq in Hpk by (by eapply lookup_lt_Some).
      by simplify_eq.
    + rewrite list_lookup_insert_ne in Hpk by done.
      eapply (ready_ok_mono _ (currentTime st)); [by eapply Hr|done].
  - intros k pk Hk Hpk.
    rewrite list_lookup_insert_ne in Hpk; [by eapply Hd|].
    intros ->. by eapply Hdisj.
  - lia.
  - intros Hne. destruct (Hm Hne) as (k & pk & Hk & Hpk & Hlen).
    exists k, pk. split_and!; [done| |done].
    rewrite list_lookup_insert_ne; [done|].
    intros ->. by eapply Hdisj.
Qed.

Lemma Timed_complete done st top p p' now q :
  Inv ps0 done st → Timed pre ps0 done st →
  pq st ≡ₚ top :: q → procs st !! top = Some p →
  done_ok pre p' → completionTime p' = now →
  currentTime st ≤ now → Z.of_nat (S (completed st)) ≤ now →
  Timed pre ps0 (top :: done)
        (mkWalk (<[top := p']> (procs st)) now (S (completed st)) (idx st) q).
Proof.
  intros HI [Hf Hr Hd Hc Hm] Hq Hp Hok Hcompl Hle Hcount.
  pose proof (Inv_NoDup _ _ _ HI) as Hnd.
  rewrite Hq in Hnd. simpl in Hnd. apply NoDup_cons in Hnd as [Hnotin Hnd].
  assert (top < idx st)%nat as Hlt.
  { eapply Inv_elem; [done|]. rewrite Hq. simpl. apply elem_of_cons. by left. }
  assert (top < length (procs st))%nat as Hlen by (by eapply lookup_lt_Some).
  split; simpl.
  - intros k Hk. rewrite list_lookup_insert_ne by lia. by apply Hf.
  - intros k pk Hk Hpk.
    assert (k ≠ top) as Hne.
    { intros ->. apply Hnotin, elem_of_app. by left. }
    rewrite list_lookup_insert_ne in Hpk by done.
    eapply (ready_ok_mono _ (currentTime st)); [|done].
    eapply Hr; [|done]. rewrite Hq. apply elem_of_cons. by right.
  - intros k pk Hk Hpk. apply elem_of_cons in Hk as [->|Hk].
    + rewrite list_lookup_insert_eq in Hpk by done. by simplify_eq.
    + rewrite list_lookup_insert_ne in Hpk; [by eapply Hd|].
      intros ->. apply Hnotin, elem_of_app. by right.
  - lia.
  - intros _. exists top, p'. split_and!.
    + apply elem_of_cons. by left.
    + by apply list_lookup_insert_eq.
    + rewrite (inv_completed _ _ _ HI) in Hcount. lia.
Qed.

(** Under a preemptive policy no process has negative remaining time. *)
Lemma Timed_remaining done st :
  pre = true → Inv ps0 done st → Timed pre ps0 done st →
  Forall (fun p => 0 ≤ remainingTime p) (procs st).
Proof.
  intros -> HI [Hf Hr Hd Hc Hm]. apply Forall_lookup_2. intros k p Hp.
  destruct (decide (k < idx st)%nat) as [Hlt|Hge].
  - assert (k ∈ pq st ++ done) as Hk.
    { rewrite (inv_perm _ _ _ HI). apply elem_of_seq. lia. }
    apply elem_of_app in Hk as [Hk|Hk].
    + destruct (Hr k p Hk Hp). lia.
    + destruct (Hd k p Hk Hp) as (_ & _ & _ & ->). lia.
  - rewrite Hf in Hp by lia.
    destruct (Forall_lookup_1 _ _ _ _ Hvalid Hp) as (Hcons & _ & Hb).
    rewrite Hcons. simpl. lia.
Qed.
End Timing.

Lemma total_remaining_nonneg ps :
  Forall (fun p => 0 ≤ remainingTime p) ps → 0 ≤ total_remaining ps.
Proof. induction 1; simpl; lia. Qed.

Lemma total_remaining_insert (ps : list Process) (k : nat) p p' :
  ps !! k = Some p →
  total_remaining (<[k := p']> ps) =
  total_remaining ps - remainingTime p + remainingTime p'.
Proof.
  revert k. induction ps as [|a ps IH]; intros [|k] Hp; simplify_eq/=; [lia|].
  rewrite (IH k) by done. lia.
Qed.

Lemma total_remaining_valid ps :
  Forall valid ps → total_remaining ps = total_burst ps.
Proof.
  induction 1 as [|p ps (Hc & _) _ IH]; simpl; [done|].
  rewrite IH, Hc. done.
Qed.

(** ** Field lemmas *)

Lemma static_first_response now p : static (first_response now p) = static p.
Proof. unfold first_response. by destruct (responseTime p =? -1). Qed.

Lemma static_finalize c p : static (finalize c p) = static p.
Proof. done. Qed.

Lemma static_set_remainingTime p v : static (set_remainingTime p v) = static p.
Proof. done. Qed.

Lemma finalized_finalize c p : finalized (finalize c p).
Proof. done. Qed.

Lemma remainingTime_first_response now p :
  remainingTime (first_response now p) = remainingTime p.
Proof. unfold first_response. by destruct (responseTime p =? -1). Qed.

(** ** One admission, in terms of the invariants *)

Lemma admit_ok push ps0 done st extra q0 i q :
  (∀ q x, push q x ≡ₚ x :: q) →
  Inv ps0 done st → pq st ≡ₚ extra ++ q0 →
  admit_arrivals push (currentTime st) (drop (idx st) (procs st)) (idx st) q0 = (i, q) →
  i = adm st ∧ (idx st ≤ i ≤ length ps0)%nat ∧
  q ≡ₚ q0 ++ seq (idx st) (i - idx st) ∧
  Inv ps0 done (mkWalk (procs st) (currentTime st) (completed st) i (extra ++ q)) ∧
  (∀ pre, Forall valid ps0 → Timed pre ps0 done st →
          Timed pre ps0 done
                (mkWalk (procs st) (currentTime st) (completed st) i (extra ++ q))) ∧
  (∀ p, procs st !! i = Some p → currentTime st < arrivalTime p).
Proof.
  intros Hpush HI Hpq Hadm.
  apply admit_spec in Hadm as (Hi & Hq & Hin & Hout); [|done].
  assert (idx st ≤ i ≤ length ps0)%nat as Hle.
  { pose proof (scan_ge (currentTime st) (drop (idx st) (procs st)) (idx st)).
    pose proof (scan_le (currentTime st) (drop (idx st) (procs st)) (idx st)) as Hs.
    rewrite length_drop, (Inv_length _ _ _ HI) in Hs.
    pose proof (inv_idx _ _ _ HI). lia. }
  assert (extra ++ q ≡ₚ pq st ++ seq (idx st) (i - idx st)) as Hfull.
  { by rewrite Hq, Hpq, app_assoc. }
  split_and!; [exact Hi|lia|lia|done| | |].
  - by apply Inv_admit.
  - intros pre Hvalid HT. by apply Timed_admit.
  - intros p Hp. apply Hout. rewrite lookup_drop.
    by replace (idx st + (i - idx st))%nat with i by lia.
Qed.

(** ** The measure decreases *)

Lemma adm_ge st : (idx st ≤ adm st)%nat.
Proof. apply scan_ge. Qed.

Lemma adm_next st next :
  procs st !! idx st = Some next → arrivalTime next ≤ currentTime st →
  (S (idx st) ≤ adm st)%nat.
Proof.
  intros Hn Ha. unfold adm. rewrite (drop_S _ _ _ Hn). by apply scan_next.
Qed.

Lemma measure_complete st st' :
  length (procs st') = length (procs st) → (adm st ≤ idx st')%nat →
  completed st' = S (completed st) → (completed st < length (procs st))%nat →
  (heap_measure st' < heap_measure st)%nat.
Proof.
  intros Hl Ha Hc Hlt. unfold heap_measure. pose proof (adm_ge st'). lia.
Qed.

Lemma measure_advance st st' :
  length (procs st') = length (procs st) → (adm st < adm st')%nat →
  (adm st < length (procs st))%nat → completed st' = completed st →
  (heap_measure st' < heap_measure st)%nat.
Proof. intros Hl Ha Hlt Hc. unfold heap_measure. lia. Qed.

(** The fast-forward branch, once admission has left the queue empty. *)
Lemma jump_ok ps0 done st i :
  Inv ps0 done (mkWalk (procs st) (currentTime st) (completed st) i []) →
  (completed st < length (procs st))%nat →
  (∀ p, procs st !! i = Some p → currentTime st < arrivalTime p) →
  (idx st ≤ i)%nat → i = adm st →
  ∃ next, procs st !! i = Some next ∧
    let st' := mkWalk (procs st) (arrivalTime next) (completed st) i [] in
    Inv ps0 done st' ∧
    (∀ pre, Timed pre ps0 done (mkWalk (procs st) (currentTime st) (completed st) i []) →
            Timed pre ps0 done st') ∧
    (adm st < adm st')%nat ∧ (adm st < length (procs st))%nat.
Proof.
  intros HI Hlt Hout Hle Hadm.
  pose proof (Inv_next _ _ _ HI eq_refl Hlt) as Hi. simpl in Hi.
  destruct (lookup_lt_is_Some_2 _ _ Hi) as [next Hnext].
  exists next. split; [done|]. simpl. split_and!.
  - by destruct HI.
  - intros pre HT.
    apply (Timed_clock _ _ _ _ (arrivalTime next)) in HT; [done|].
    simpl. specialize (Hout _ Hnext). lia.
  - rewrite <- Hadm. apply (adm_next (mkWalk _ _ _ _ _) next); simpl; [done|lia].
  - by rewrite <- Hadm.
Qed.

(** ** One iteration of the SJF and Priority loops *)

Lemma np_step_ok cmp ps0 done st :
  Inv ps0 done st → (completed st < length (procs st))%nat →
  ∃ st' done', np_step cmp st = Some st' ∧ Inv ps0 done' st' ∧
    (heap_measure st' < heap_measure st)%nat ∧
    (Forall valid ps0 → Timed false ps0 done st → Timed false ps0 done' st').
Proof.
  intros HI Hlt. unfold np_step, admit_from.
  destruct (admit_arrivals _ _ _ _ _) as [i q] eqn:Hadm.
  apply (admit_ok _ ps0 done st []) in Hadm
    as (Hi & Hle & Hq & HIA & HTA & Hout); [|apply pq_push_perm|done|done].
  simpl in HIA, HTA.
  destruct q as [|top q]; simpl.
  - destruct (jump_ok ps0 done st i) as (next & Hnext & HI' & HT' & Hm1 & Hm2);
      [done|done|done|lia|done|].
    rewrite Hnext. simpl. eexists _, done. split_and!; [done|done| |].
    + by apply measure_advance.
    + intros Hvalid HT. by apply HT', HTA.
  - set (comp := deref_comp cmp (procs st)) in *.
    pose proof (pq_pop_perm comp top q) as Hpop.
    destruct (Inv_lookup _ _ _ top HIA) as [p Hp].
    { simpl. apply elem_of_cons. by left. }
    simpl in Hp. rewrite Hp. simpl.
    set (p1 := first_response (currentTime st) p).
    set (p2 := finalize (currentTime st + burstTime p1) p1).
    eexists _, (top :: done). split; [done|].
    split_and!.
    + apply (Inv_complete _ _ _ _ p p2 _ _ HIA); simpl; [by rewrite Hpop|done| |done].
      subst p2 p1. by rewrite static_finalize, static_first_response.
    + apply measure_complete; simpl; [by rewrite length_insert|lia|done|done].
    + intros Hvalid HT. specialize (HTA false Hvalid HT).
      destruct (t_ready _ _ _ _ HTA top p) as (Hr1 & Hr2 & Hr3 & Hr4 & Hr5);
        [by left|done|].
      simpl in Hr3. pose proof (t_count _ _ _ _ HTA) as Hcnt. simpl in Hcnt.
      assert ((responseTime p =? -1) = true) as Hresp by (by apply Z.eqb_eq).
      apply (Timed_complete _ _ _ _ _ p p2 _ _ HIA HTA); simpl;
        [by rewrite Hpop|done| |done| |].
      * subst p2 p1. unfold done_ok, finalize, first_response. rewrite Hresp.
        simpl. lia.
      * subst p2 p1. unfold first_response. rewrite Hresp. simpl. lia.
      * subst p2 p1. unfold first_response. rewrite Hresp. simpl. lia.
Qed.

(** ** One iteration of the SRTF and Preemptive Priority loops *)

Local Arguments first_response : simpl never.
Local Arguments finalize : simpl never.
Local Arguments set_remainingTime : simpl never.

(** A slice that starts on a ready process, for a preemptive policy. *)
Lemma slice_ready now e p :
  ready_ok true now p → 1 ≤ e → e < remainingTime p →
  ready_ok true (now + e)
           (set_remainingTime (first_response now p) (remainingTime p - e)).
Proof.
  unfold ready_ok, first_response, set_remainingTime.
  intros (H1 & H2 & H3 & H4) He1 He2.
  destruct (Z.eqb_spec (responseTime p) (-1)); simpl; lia.
Qed.

Lemma slice_done now e p :
  ready_ok true now p → e = remainingTime p →
  done_ok true (finalize (now + e)
                  (set_remainingTime (first_response now p) (remainingTime p - e))).
Proof.
  unfold ready_ok, done_ok, finalize, first_response, set_remainingTime.
  intros (H1 & H2 & H3 & H4) He.
  destruct (Z.eqb_spec (responseTime p) (-1)); simpl; lia.
Qed.

Lemma pre_step_ok cmp ps0 done st :
  Inv ps0 done st → (completed st < length (procs st))%nat →
  ∃ st' done', pre_step cmp st = Some st' ∧ Inv ps0 done' st' ∧
    (Forall valid ps0 → Timed true ps0 done st →
     Timed true ps0 done' st' ∧ (heap_measure st' < heap_measure st)%nat).
Proof.
  intros HI Hlt. unfold pre_step, admit_from.
  destruct (admit_arrivals _ _ _ _ _) as [i q] eqn:Hadm.
  apply (admit_ok _ ps0 done st []) in Hadm
    as (Hi & Hle & Hq & HIA & HTA & Hout); [|apply pq_push_perm|done|done].
  simpl in HIA, HTA.
  destruct q as [|top q]; simpl.
  - destruct (jump_ok ps0 done st i) as (next & Hnext & HI' & HT' & Hm1 & Hm2);
      [done|done|done|lia|done|].
    rewrite Hnext. simpl. eexists _, done. split_and!; [done|done|].
    intros Hvalid HT. split; [by apply HT', HTA|].
    by apply measure_advance.
  - set (comp := deref_comp cmp (procs st)) in *.
    pose proof (pq_pop_perm comp top q) as Hpop.
    destruct (Inv_lookup _ _ _ top HIA) as [p Hp].
    { simpl. apply elem_of_cons. by left. }
    simpl in Hp. rewrite Hp. simpl.
    assert (top < i)%nat as Htop.
    { apply (Inv_elem _ _ _ top HIA). simpl. apply elem_of_cons. by left. }
    set (p1 := first_response (currentTime st) p).
    set (e := match procs st !! i with
              | Some next => Z.min (remainingTime p1) (arrivalTime next - currentTime st)
              | None => remainingTime p1
              end).
    assert (remainingTime p1 = remainingTime p) as Hrem1
        by apply remainingTime_first_response.
    rewrite Hrem1.
    destruct (Z.eqb_spec (remainingTime p - e) 0) as [Hz|Hnz].
    + eexists _, (top :: done). split; [done|]. split.
      * apply (Inv_complete _ _ _ _ p _ _ _ HIA); simpl;
          [by rewrite Hpop|done| |apply finalized_finalize].
        subst p1.
        by rewrite static_finalize, static_set_remainingTime, static_first_response.
      * intros Hvalid HT. specialize (HTA true Hvalid HT).
        pose proof (t_ready _ _ _ _ HTA top p) as Hr. simpl in Hr.
        specialize (Hr ltac:(by left) Hp).
        pose proof (t_count _ _ _ _ HTA) as Hcnt. simpl in Hcnt.
        destruct Hr as (Hr1 & Hr2 & Hr3 & Hr4).
        split.
        -- apply (Timed_complete _ _ _ _ _ p _ _ _ HIA HTA); simpl;
             [by rewrite Hpop|done| |done|lia|lia].
           subst p1. apply slice_done; [done|lia].
        -- apply measure_complete; simpl; [by rewrite length_insert|lia|done|done].
    + eexists _, done. split; [done|]. split.
      * apply (Inv_requeue _ _ _ _ p _ _ _ HIA); simpl; [by left|done| |].
        -- subst p1. by rewrite static_set_remainingTime, static_first_response.
        -- by rewrite pq_push_perm, Hpop.
      * intros Hvalid HT. specialize (HTA true Hvalid HT).
        pose proof (t_ready _ _ _ _ HTA top p) as Hr. simpl in Hr.
        specialize (Hr ltac:(by left) Hp).
        destruct (procs st !! i) as [next|] eqn:Hnext; [|subst e; lia].
        specialize (Hout next eq_refl).
        assert (e = arrivalTime next - currentTime st ∧ e < remainingTime p)
          as [He1 He2] by (subst e; lia).
        split.
        -- apply (Timed_requeue _ _ _ _ _ p _ _ _ HIA HTA); simpl;
             [by left|done| |lia|by rewrite pq_push_perm, Hpop].
           subst p1. apply slice_ready; [done|lia|done].
        -- apply measure_advance; simpl; [by rewrite length_insert| | |done].
           ++ rewrite <- Hi.
              apply (adm_next (mkWalk _ _ _ _ _) next); simpl; [|lia].
              rewrite list_lookup_insert_ne by lia. done.
           ++ rewrite <- Hi. by eapply lookup_lt_Some.
Qed.

(** ** One iteration of the Round Robin loop *)

Lemma Inv_clock ps0 done st now :
  Inv ps0 done st →
  Inv ps0 done (mkWalk (procs st) now (completed st) (idx st) (pq st)).
Proof. by intros []. Qed.

Lemma rr_measure_advance st st' :
  procs st' = procs st → (adm st < adm st')%nat →
  (adm st < length (procs st))%nat →
  (rr_measure st' < rr_measure st)%nat.
Proof. intros Hp Ha Hlt. unfold rr_measure. rewrite Hp. lia. Qed.

Lemma rr_measure_slice st st' e :
  length (procs st') = length (procs st) → (adm st ≤ idx st')%nat →
  total_remaining (procs st') = total_remaining (procs st) - e →
  1 ≤ e → 0 ≤ total_remaining (procs st') →
  (rr_measure st' < rr_measure st)%nat.
Proof.
  intros Hl Ha Ht He Hn. unfold rr_measure. pose proof (adm_ge st'). lia.
Qed.

Lemma rr_step_ok timeQuantum ps0 done st :
  Inv ps0 done st → (completed st < length (procs st))%nat →
  ∃ st' done', rr_step timeQuantum st = Some st' ∧ Inv ps0 done' st' ∧
    (Forall valid ps0 → 0 < timeQuantum → Timed true ps0 done st →
     Timed true ps0 done' st' ∧ (rr_measure st' < rr_measure st)%nat).
Proof.
  intros HI Hlt. unfold rr_step, admit_from.
  destruct (admit_arrivals _ _ _ _ _) as [i q] eqn:Hadm.
  apply (admit_ok _ ps0 done st []) in Hadm
    as (Hi & Hle & Hq & HIA & HTA & Hout); [|apply queue_push_perm|done|done].
  simpl in HIA, HTA.
  destruct q as [|front q]; simpl.
  - destruct (jump_ok ps0 done st i) as (next & Hnext & HI' & HT' & Hm1 & Hm2);
      [done|done|done|lia|done|].
    rewrite Hnext. simpl. eexists _, done. split_and!; [done|done|].
    intros Hvalid Hquantum HT. split; [by apply HT', HTA|].
    by apply rr_measure_advance.
  - destruct (Inv_lookup _ _ _ front HIA) as [p Hp].
    { simpl. apply elem_of_cons. by left. }
    simpl in Hp. rewrite Hp. simpl.
    assert (front < i)%nat as Hfront.
    { apply (Inv_elem _ _ _ front HIA). simpl. apply elem_of_cons. by left. }
    rewrite remainingTime_first_response.
    set (e := Z.min timeQuantum (remainingTime p)).
    set (p2 := set_remainingTime (first_response (currentTime st) p)
                                 (remainingTime p - e)).
    set (now := currentTime st + e).
    rewrite drop_insert_lt by done.
    destruct (admit_arrivals _ _ _ _ _) as [i2 q2] eqn:Hadm2.
    apply (admit_ok _ ps0 done
             (mkWalk (procs st) now (completed st) i (front :: q)) [front])
      in Hadm2 as (Hi2 & Hle2 & Hq2 & HIC & HTC & _);
      [|apply queue_push_perm|by apply (Inv_clock _ _ _ now) in HIA|done].
    simpl in Hle2, HIC, HTC.
    assert (static p2 = static p) as Hstatic.
    { subst p2. by rewrite static_set_remainingTime, static_first_response. }
    assert (remainingTime p2 = remainingTime p - e) as Hrem2 by done.
    assert (∀ c, total_remaining (<[front := c]> (procs st)) =
                 total_remaining (procs st) - remainingTime p + remainingTime c)
      as Htotal.
    { intros c. by apply total_remaining_insert. }
    destruct (Z.ltb_spec 0 (remainingTime p - e)) as [Hpos|Hneg].
    + assert (Inv ps0 done
                (mkWalk (<[front := p2]> (procs st)) now (completed st) i2
                        (queue_push q2 front))) as HI'.
      { apply (Inv_requeue _ _ _ _ p p2 _ _ HIC); simpl;
          [by left|done|done|apply queue_push_perm]. }
      eexists _, done. split; [done|]. split; [done|].
      intros Hvalid Hquantum HT. specialize (HTA true Hvalid HT).
      pose proof (t_ready _ _ _ _ HTA front p) as Hr. simpl in Hr.
      specialize (Hr ltac:(by left) Hp).
      assert (1 ≤ e ∧ e < remainingTime p) as [He1 He2].
      { destruct Hr as (? & _). subst e. lia. }
      apply (Timed_clock _ _ _ _ now) in HTA; [|simpl; subst now; lia].
      simpl in HTA.
      specialize (HTC true Hvalid HTA).
      assert (Timed true ps0 done
                (mkWalk (<[front := p2]> (procs st)) now (completed st) i2
                        (queue_push q2 front))) as HT'.
      { apply (Timed_requeue _ _ _ _ _ p p2 _ _ HIC HTC); simpl;
          [by left|done| |lia|apply queue_push_perm].
        subst p2 now. by apply slice_ready. }
      split; [done|].
      pose proof (Timed_remaining ps0 true Hvalid _ _ eq_refl HI' HT') as Hnn.
      simpl in Hnn.
      apply (rr_measure_slice _ _ e); simpl;
        [by rewrite length_insert|lia| |done|by apply total_remaining_nonneg].
      rewrite Htotal, Hrem2. lia.
    + rewrite list_insert_insert_eq.
      assert (Inv ps0 (front :: done)
                (mkWalk (<[front := finalize now p2]> (procs st)) now
                        (S (completed st)) i2 q2)) as HI'.
      { apply (Inv_complete _ _ _ _ p _ _ _ HIC); simpl;
          [done|done|by rewrite static_finalize|apply finalized_finalize]. }
      eexists _, (front :: done). split; [done|]. split; [done|].
      intros Hvalid Hquantum HT. specialize (HTA true Hvalid HT).
      pose proof (t_ready _ _ _ _ HTA front p) as Hr. simpl in Hr.
      specialize (Hr ltac:(by left) Hp).
      pose proof (t_count _ _ _ _ HTA) as Hcnt. simpl in Hcnt.
      assert (1 ≤ e ∧ e = remainingTime p) as [He1 He2].
      { destruct Hr as (? & _). subst e. lia. }
      apply (Timed_clock _ _ _ _ now) in HTA; [|simpl; subst now; lia].
      simpl in HTA.
      specialize (HTC true Hvalid HTA).
      assert (Timed true ps0 (front :: done)
                (mkWalk (<[front := finalize now p2]> (procs st)) now
                        (S (completed st)) i2 q2)) as HT'.
      { apply (Timed_complete _ _ _ _ _ p _ _ _ HIC HTC); simpl;
          [done|done| |done|lia|subst now; lia].
        subst p2 now. by apply slice_done. }
      split; [done|].
      pose proof (Timed_remaining ps0 true Hvalid _ _ eq_refl HI' HT') as Hnn.
      simpl in Hnn.
      apply (rr_measure_slice _ _ e); simpl;
        [by rewrite length_insert|lia| |done|by apply total_remaining_nonneg].
      rewrite Htotal.
      change (remainingTime (finalize now p2)) with (remainingTime p2).
      rewrite Hrem2. lia.
Qed.

(** ** The loop *)

Section Run.
Context (step : Walk → option Walk) (ps0 : list Process).
Context (Good : list nat → Walk → Prop) (measure : Walk → nat).
Hypothesis step_ok : ∀ done st,
  Inv ps0 done st → (completed st < length (procs st))%nat →
  ∃ st' done', step st = Some st' ∧ Inv ps0 done' st' ∧
    (Good done st → Good done' st' ∧ (measure st' < measure st)%nat).

(** The loop never reads past the end of the vector, and where it ends
    the invariant holds with every process completed. *)
Lemma run_safe fuel st done :
  Inv ps0 done st →
  match run step fuel st with
  | Done st' => ∃ done', Inv ps0 done' st' ∧ completed st' = length ps0
  | Fault => False
  | OutOfFuel => True
  end.
Proof.
  revert st done. induction fuel as [|fuel IH]; intros st done HI; simpl.
  - destruct (Nat.ltb_spec (completed st) (length (procs st))) as [Hlt|Hge]; [done|].
    exists done. split; [done|]. eapply Inv_exit; [done|lia].
  - destruct (Nat.ltb_spec (completed st) (length (procs st))) as [Hlt|Hge].
    + destruct (step_ok done st HI Hlt) as (st' & done' & -> & HI' & _).
      by apply (IH st' done').
    + exists done. split; [done|]. eapply Inv_exit; [done|lia].
Qed.

(** With fuel for [measure st] iterations the loop ends. *)
Lemma run_total fuel st done :
  Inv ps0 done st → Good done st → (measure st ≤ fuel)%nat →
  ∃ st' done', run step fuel st = Done st' ∧
               Inv ps0 done' st' ∧ Good done' st' ∧
               done' ≡ₚ seq 0 (length ps0).
Proof.
  revert st done. induction fuel as [|fuel IH]; intros st done HI HG Hm; simpl.
  - destruct (Nat.ltb_spec (completed st) (length (procs st))) as [Hlt|Hge].
    + destruct (step_ok done st HI Hlt) as (st' & done' & _ & _ & Hd).
      destruct (Hd HG). lia.
    + exists st, done. split_and!; [done..|]. eapply Inv_exit; [done|lia].
  - destruct (Nat.ltb_spec (completed st) (length (procs st))) as [Hlt|Hge].
    + destruct (step_ok done st HI Hlt) as (st' & done' & -> & HI' & Hd).
      destruct (Hd HG) as [HG' Hlt'].
      apply (IH st' done'); [done|done|lia].
    + exists st, done. split_and!; [done..|]. eapply Inv_exit; [done|lia].
Qed.
End Run.

(** At the exit every process of the vector is a completed one. *)
Lemma exit_all ps0 done st k p :
  Inv ps0 done st → done ≡ₚ seq 0 (length ps0) →
  procs st !! k = Some p → k ∈ done.
Proof.
  intros HI Hd Hp. rewrite Hd. apply elem_of_seq.
  apply lookup_lt_Some in Hp. rewrite (Inv_length _ _ _ HI) in Hp. lia.
Qed.

Lemma exit_finalized ps0 done st :
  Inv ps0 done st → done ≡ₚ seq 0 (length ps0) →
  Forall finalized (procs st).
Proof.
  intros HI Hd. apply Forall_lookup_2. intros k p Hp.
  eapply (inv_done _ _ _ HI); [|done]. by eapply exit_all.
Qed.

Lemma exit_done_ok pre ps0 done st :
  Inv ps0 done st → Timed pre ps0 done st → done ≡ₚ seq 0 (length ps0) →
  Forall (done_ok pre) (procs st).
Proof.
  intros HI HT Hd. apply Forall_lookup_2. intros k p Hp.
  eapply (t_done _ _ _ _ HT); [|done]. by eapply exit_all.
Qed.

Lemma exit_max pre ps0 done st :
  Inv ps0 done st → Timed pre ps0 done st → done ≡ₚ seq 0 (length ps0) →
  ps0 ≠ [] →
  ∃ p, p ∈ procs st ∧ Z.of_nat (length ps0) ≤ completionTime p.
Proof.
  intros HI HT Hd Hne.
  destruct (t_max _ _ _ _ HT) as (k & p & _ & Hp & Hlen).
  { intros ->. apply Permutation_length in Hd. rewrite length_seq in Hd.
    destruct ps0; [done|simpl in Hd; lia]. }
  exists p. split; [by eapply list_elem_of_lookup_2|].
  apply Permutation_length in Hd. rewrite length_seq in Hd. lia.
Qed.

(** The measures at the start. *)
Lemma heap_measure_start ps : (heap_measure (start ps) ≤ 2 * length ps)%nat.
Proof. unfold heap_measure. simpl. lia. Qed.

Lemma rr_measure_start ps :
  Forall valid ps →
  (rr_measure (start ps) ≤ length ps + Z.to_nat (total_burst ps))%nat.
Proof.
  intros Hv. unfold rr_measure. simpl. rewrite total_remaining_valid by done. lia.
Qed.

Lemma run_mono step fuel fuel' st st' :
  run step fuel st = Done st' → (fuel ≤ fuel')%nat → run step fuel' st = Done st'.
Proof.
  revert fuel' st. induction fuel as [|fuel IH]; intros fuel' st Hrun Hle.
  - simpl in Hrun. destruct fuel'; simpl;
      destruct (completed st <? length (procs st))%nat; done.
  - destruct fuel' as [|fuel']; [lia|]. simpl in *.
    destruct (completed st <? length (procs st))%nat; [|done].
    destruct (step st) as [st1|]; [|done].
    apply IH; [done|lia].
Qed.

(** ** FCFS *)

Lemma FCFS_loop_static now ps : static <$> FCFS_loop now ps = static <$> ps.
Proof.
  revert now. induction ps as [|p ps IH]; intros now; simpl; [done|].
  by rewrite IH.
Qed.

Lemma FCFS_loop_finalized now ps : Forall finalized (FCFS_loop now ps).
Proof.
  revert now. induction ps as [|p ps IH]; intros now; simpl; [done|].
  constructor; [done|apply IH].
Qed.

Lemma FCFS_loop_done_ok now ps :
  Forall valid ps → Forall (done_ok false) (FCFS_loop now ps).
Proof.
  intros Hv. revert now.
  induction Hv as [|p ps (Hc & Ha & Hb) _ IH]; intros now; simpl; [done|].
  constructor; [|apply IH].
  assert (remainingTime p = burstTime p) as Hrem by (by rewrite Hc).
  unfold done_ok. simpl. destruct (now <? arrivalTime p) eqn:Hlt; simpl.
  - lia.
  - apply Z.ltb_ge in Hlt. lia.
Qed.

Lemma FCFS_loop_max now k ps :
  Forall valid ps → Z.of_nat k ≤ now → ps ≠ [] →
  ∃ p, p ∈ FCFS_loop now ps ∧ Z.of_nat (k + length ps) ≤ completionTime p.
Proof.
  intros Hv. revert now k.
  induction Hv as [|p ps (_ & Ha & Hb) _ IH]; intros now k Hk Hne; [done|].
  simpl.
  set (t := (if now <? arrivalTime p then arrivalTime p else now) + burstTime p).
  assert (Z.of_nat (S k) ≤ t) as Ht.
  { subst t. destruct (now <? arrivalTime p) eqn:Hlt; [|lia].
    apply Z.ltb_lt in Hlt. lia. }
  destruct ps as [|p' ps'].
  - eexists. split; [by left|]. simpl. fold t. lia.
  - destruct (IH t (S k) Ht) as (r & Hr & Hlen); [done|].
    exists r. split; [by right|]. simpl in *. lia.
Qed.

(** ** The metrics *)

Lemma max_completion_cons p ps :
  max_completion (p :: ps) = Z.max (completionTime p) (max_completion ps).
Proof. done. Qed.

Lemma max_completion_nonneg ps : 0 ≤ max_completion ps.
Proof.
  induction ps as [|p ps IH]; [done|]. rewrite max_completion_cons. lia.
Qed.

Lemma metrics_totals_max ps :
  (metrics_totals ps).2 = max_completion ps.
Proof.
  unfold metrics_totals.
  assert (∀ acc, 0 ≤ acc.2 → (fold_left
      (fun '(w, t, r, m) p =>
         (w + waitingTime p, t + turnaroundTime p, r + responseTime p,
          Z.max m (completionTime p))) ps acc).2 = Z.max acc.2 (max_completion ps)) as H.
  { induction ps as [|p ps IH]; intros [[[w t] r] m] Hm.
    - cbn [fold_left snd] in *. change (max_completion []) with 0. lia.
    - cbn [fold_left]. rewrite IH by (cbn [snd] in *; lia).
      cbn [snd]. rewrite max_completion_cons. lia. }
  rewrite H by (cbn [snd]; lia). cbn [snd].
  pose proof (max_completion_nonneg ps). lia.
Qed.



Lemma calculateMetrics_processes ps : processes (calculateMetrics ps) = ps.
Proof.
  unfold calculateMetrics. by destruct (metrics_totals ps) as [[[w t] r] m].
Qed.

Lemma calculateMetrics_throughput ps :
  throughput (calculateMetrics ps) =
  ddiv (Z.of_nat (length ps)) (max_completion ps).
Proof.
  rewrite <- metrics_totals_max. unfold calculateMetrics.
  by destruct (metrics_totals ps) as [[[w t] r] m].
Qed.

(** ** The loops of the five queue-based policies *)

Lemma loop_safe pol step ps fuel :
  loop_body pol = Some step →
  match run step fuel (start (arranged pol ps)) with
  | Done st => static <$> procs st = static <$> arranged pol ps ∧
               Forall finalized (procs st)
  | Fault => False
  | OutOfFuel => True
  end.
Proof.
  intros Hbody.
  pose proof (run_safe step (arranged pol ps) (fun _ _ => False) (fun _ => 0%nat))
    as Hsafe.
  assert (∀ done st,
    Inv (arranged pol ps) done st → (completed st < length (procs st))%nat →
    ∃ st' done', step st = Some st' ∧ Inv (arranged pol ps) done' st' ∧
      (False → False ∧ (0 < 0)%nat)) as Hstep.
  { intros done st HI Hlt. destruct pol; simplify_eq/=.
    - destruct (np_step_ok SJF_cmp _ _ _ HI Hlt) as (st' & d' & ? & ? & _);
        exists st', d'; (split_and!; [done|done|by intros []]).
    - destruct (pre_step_ok SRTF_cmp _ _ _ HI Hlt) as (st' & d' & ? & ? & _);
        exists st', d'; (split_and!; [done|done|by intros []]).
    - destruct (rr_step_ok timeQuantum _ _ _ HI Hlt) as (st' & d' & ? & ? & _);
        exists st', d'; (split_and!; [done|done|by intros []]).
    - destruct (np_step_ok Priority_cmp _ _ _ HI Hlt) as (st' & d' & ? & ? & _);
        exists st', d'; (split_and!; [done|done|by intros []]).
    - destruct (pre_step_ok PreemptivePriority_cmp _ _ _ HI Hlt)
        as (st' & d' & ? & ? & _);
        exists st', d'; (split_and!; [done|done|by intros []]). }
  specialize (Hsafe Hstep fuel _ _ (Inv_start _)).
  destruct (run step fuel (start (arranged pol ps))) as [st| |]; [|done..].
  destruct Hsafe as (done & HI & Hc). split; [by destruct HI|].
  eapply exit_finalized; [done|].
  destruct HI as [_ Hidx Hperm Hcompl _].
  assert (length (pq st ++ done) = idx st) as Hlen by (by rewrite Hperm, length_seq).
  rewrite length_app in Hlen.
  assert (idx st = length (arranged pol ps) ∧ length (pq st) = 0%nat) as [Hi Hq] by lia.
  destruct (pq st); [|done]. simpl in Hperm. by rewrite <- Hi.
Qed.

(** For valid input every loop ends within [steps_bound]. *)
Lemma loop_total pol step ps :
  loop_body pol = Some step → valid_policy pol → Forall valid ps →
  ∃ st done,
    (∀ fuel, (steps_bound pol ps ≤ fuel)%nat →
             run step fuel (start (arranged pol ps)) = Done st) ∧
    Inv (arranged pol ps) done st ∧
    Timed (preemptive pol) (arranged pol ps) done st ∧
    done ≡ₚ seq 0 (length (arranged pol ps)).
Proof.
  intros Hbody Hpol Hv.
  assert (Forall valid (arranged pol ps)) as Hv'.
  { destruct pol; simpl; try done; by rewrite std_sort_perm. }
  assert (length (arranged pol ps) = length ps) as Hlen.
  { destruct pol; simpl; try done; apply std_sort_length. }
  assert (∃ measure,
    (measure (start (arranged pol ps)) ≤ steps_bound pol ps)%nat ∧
    ∀ done st,
      Inv (arranged pol ps) done st → (completed st < length (procs st))%nat →
      ∃ st' done', step st = Some st' ∧ Inv (arranged pol ps) done' st' ∧
        (Timed (preemptive pol) (arranged pol ps) done st →
         Timed (preemptive pol) (arranged pol ps) done' st' ∧
         (measure st' < measure st)%nat)) as (measure & Hstart & Hstep).
  { destruct pol; simplify_eq/=.
    - exists heap_measure. split.
      { pose proof (heap_measure_start (std_sort ps)). rewrite std_sort_length in *. lia. }
      intros done st HI Hlt.
      destruct (np_step_ok SJF_cmp _ _ _ HI Hlt) as (st' & d' & ? & ? & ? & HT).
      exists st', d'. split_and!; [done..|]. intros ?. split; [by apply HT|done].
    - exists heap_measure. split.
      { pose proof (heap_measure_start (std_sort ps)). rewrite std_sort_length in *. lia. }
      intros done st HI Hlt.
      destruct (pre_step_ok SRTF_cmp _ _ _ HI Hlt) as (st' & d' & ? & ? & HT).
      exists st', d'. split_and!; [done..|]. intros ?. by apply HT.
    - exists rr_measure. split; [by apply rr_measure_start|].
      intros done st HI Hlt.
      destruct (rr_step_ok timeQuantum _ _ _ HI Hlt) as (st' & d' & ? & ? & HT).
      exists st', d'. split_and!; [done..|]. intros ?. by apply HT.
    - exists heap_measure. split.
      { pose proof (heap_measure_start (std_sort ps)). rewrite std_sort_length in *. lia. }
      intros done st HI Hlt.
      destruct (np_step_ok Priority_cmp _ _ _ HI Hlt) as (st' & d' & ? & ? & ? & HT).
      exists st', d'. split_and!; [done..|]. intros ?. split; [by apply HT|done].
    - exists heap_measure. split.
      { pose proof (heap_measure_start (std_sort ps)). rewrite std_sort_length in *. lia. }
      intros done st HI Hlt.
      destruct (pre_step_ok PreemptivePriority_cmp _ _ _ HI Hlt)
        as (st' & d' & ? & ? & HT).
      exists st', d'. split_and!; [done..|]. intros ?. by apply HT. }
  destruct (run_total step (arranged pol ps) _ measure Hstep
              (steps_bound pol ps) _ _ (Inv_start _)
              (Timed_start _ (preemptive pol)) Hstart)
    as (st & done & Hrun & HI & HT & Hd).
  exists st, done. split_and!; [|done..].
  intros fuel Hfuel. by eapply run_mono.
Qed.

(** ** The six policies, uniformly *)

Lemma loop_body_inv pol step ps0 done st :
  loop_body pol = Some step →
  Inv ps0 done st → (completed st < length (procs st))%nat →
  ∃ st' done', step st = Some st' ∧ Inv ps0 done' st'.
Proof.
  intros Hbody HI Hlt. destruct pol; simplify_eq/=.
  - destruct (np_step_ok SJF_cmp _ _ _ HI Hlt) as (st' & d' & ? & ? & _); eauto.
  - destruct (pre_step_ok SRTF_cmp _ _ _ HI Hlt) as (st' & d' & ? & ? & _); eauto.
  - destruct (rr_step_ok timeQuantum _ _ _ HI Hlt) as (st' & d' & ? & ? & _); eauto.
  - destruct (np_step_ok Priority_cmp _ _ _ HI Hlt) as (st' & d' & ? & ? & _); eauto.
  - destruct (pre_step_ok PreemptivePriority_cmp _ _ _ HI Hlt)
      as (st' & d' & ? & ? & _); eauto.
Qed.

Lemma reachable_Inv pol step ps st :
  loop_body pol = Some step →
  reachable step (start (arranged pol ps)) st →
  ∃ done, Inv (arranged pol ps) done st.
Proof.
  intros Hbody Hreach. induction Hreach as [|st st' _ [done HI] Hlt Hstep].
  - exists []. apply Inv_start.
  - destruct (loop_body_inv _ _ _ _ _ Hbody HI Hlt) as (st'' & done' & Hs & HI').
    exists done'. congruence.
Qed.

Lemma schedule_loop pol step fuel ps :
  loop_body pol = Some step →
  schedule pol fuel ps = finish (run step fuel (start (arranged pol ps))).
Proof. intros Hbody. by destruct pol; simplify_eq/=. Qed.

(** For valid input [schedule] returns, and returns this. *)
Lemma schedule_total pol ps :
  valid_policy pol → Forall valid ps →
  ∃ s, (∀ fuel, (steps_bound pol ps ≤ fuel)%nat → schedule pol fuel ps = Done s) ∧
       throughput s = ddiv (Z.of_nat (length ps)) (max_completion (processes s)) ∧
       static <$> processes s = static <$> arranged pol ps ∧
       Forall finalized (processes s) ∧
       Forall (done_ok (preemptive pol)) (processes s) ∧
       (ps ≠ [] → ∃ p, p ∈ processes s ∧ Z.of_nat (length ps) ≤ completionTime p).
Proof.
  intros Hpol Hv.
  assert (length (arranged pol ps) = length ps) as Hlen.
  { destruct pol; simpl; try done; apply std_sort_length. }
  destruct (loop_body pol) as [step|] eqn:Hbody.
  - destruct (loop_total pol step ps Hbody Hpol Hv) as (st & done & Hrun & HI & HT & Hd).
    exists (calculateMetrics (procs st)).
    rewrite calculateMetrics_processes, calculateMetrics_throughput.
    split_and!.
    + intros fuel Hfuel. rewrite (schedule_loop _ _ _ _ Hbody), Hrun by done. done.
    + by rewrite (Inv_length _ _ _ HI), Hlen.
    + by destruct HI.
    + by eapply exit_finalized.
    + by eapply exit_done_ok.
    + intros Hne. rewrite <- Hlen. eapply exit_max; [done..|].
      intros Hnil. rewrite Hnil in Hlen. by destruct ps.
  - destruct pol; simplify_eq/=.
    assert (Forall valid (std_sort ps)) as Hv' by (by rewrite std_sort_perm).
    exists (calculateMetrics (FCFS_loop 0 (std_sort ps))).
    rewrite calculateMetrics_processes, calculateMetrics_throughput.
    split_and!.
    + done.
    + rewrite <- (length_fmap static), FCFS_loop_static, length_fmap.
      by rewrite std_sort_length.
    + apply FCFS_loop_static.
    + apply FCFS_loop_finalized.
    + by apply FCFS_loop_done_ok.
    + intros Hne.
      destruct (FCFS_loop_max 0 0 (std_sort ps) Hv') as (p & Hp & Hc); [done| |].
      { intros Hnil. pose proof (std_sort_length ps) as Hl.
        rewrite Hnil in Hl. by destruct ps. }
      exists p. split; [done|]. rewrite std_sort_length in Hc. simpl in Hc. lia.
Qed.

(** For any input [schedule] never reads past the end of the vector, and
    what it returns has the output fields of every process assigned. *)
Lemma schedule_safe pol fuel ps :
  match schedule pol fuel ps with
  | Done s => static <$> processes s = static <$> arranged pol ps ∧
              Forall finalized (processes s)
  | Fault => False
  | OutOfFuel => True
  end.
Proof.
  destruct (loop_body pol) as [step|] eqn:Hbody.
  - rewrite (schedule_loop _ _ _ _ Hbody).
    pose proof (loop_safe pol step ps fuel Hbody) as Hsafe.
    destruct (run step fuel (start (arranged pol ps))); simpl; [|done..].
    by rewrite calculateMetrics_processes.
  - destruct pol; simplify_eq/=.
    rewrite calculateMetrics_processes.
    split; [apply FCFS_loop_static|apply FCFS_loop_finalized].
Qed.


Lemma main_processes_valid : Forall valid main_processes.
Proof.
  unfold main_processes. repeat constructor; simpl; lia.
Qed.


(** ** What the heap-based policies dispatch *)

Lemma SJF_cmp_orders : orders SJF_cmp.
Proof.
  unfold orders, SJF_cmp. split.
  - intros p q H%Z.ltb_lt. apply Z.ltb_ge. lia.
  - intros p q r H1%Z.ltb_ge H2%Z.ltb_ge. apply Z.ltb_ge. lia.
Qed.

Lemma SRTF_cmp_orders : orders SRTF_cmp.
Proof.
  unfold orders, SRTF_cmp. split.
  - intros p q H%Z.ltb_lt. apply Z.ltb_ge. lia.
  - intros p q r H1%Z.ltb_ge H2%Z.ltb_ge. apply Z.ltb_ge. lia.
Qed.


Lemma PreemptivePriority_cmp_orders : orders PreemptivePriority_cmp.
Proof.
  unfold orders, PreemptivePriority_cmp. split.
  - intros p q H%Z.ltb_lt. apply Z.ltb_ge. lia.
  - intros p q r H1%Z.ltb_ge H2%Z.ltb_ge. apply Z.ltb_ge. lia.
Qed.

Section Selection.
Context (cmp : Process → Process → bool) (Hcmp : orders cmp).

Let good (ps : list Process) (k : nat) : Prop := (k < length ps)%nat.

Lemma deref_comp_asym ps a b :
  good ps a → good ps b →
  deref_comp cmp ps a b = true → deref_comp cmp ps b a = false.
Proof.
  intros [pa Ha]%lookup_lt_is_Some_2 [pb Hb]%lookup_lt_is_Some_2.
  unfold deref_comp. rewrite Ha, Hb. apply Hcmp.
Qed.

Lemma deref_comp_trans ps a b c :
  good ps a → good ps b → good ps c →
  deref_comp cmp ps a b = false → deref_comp cmp ps b c = false →
  deref_comp cmp ps a c = false.
Proof.
  intros [pa Ha]%lookup_lt_is_Some_2 [pb Hb]%lookup_lt_is_Some_2
         [pc Hc]%lookup_lt_is_Some_2.
  unfold deref_comp. rewrite Ha, Hb, Hc. apply Hcmp.
Qed.

(** The admission loop keeps the queue a heap. *)
Lemma admit_arrivals_heap ps now rest i q :
  (i + length rest ≤ length ps)%nat →
  Forall (good ps) q → is_heap (deref_comp cmp ps) q →
  ∀ i' q', admit_arrivals (pq_push (deref_comp cmp ps)) now rest i q = (i', q') →
    Forall (good ps) q' ∧ is_heap (deref_comp cmp ps) q'.
Proof.
  revert i q. induction rest as [|p rest IH]; intros i q Hlen Hg Hh i' q' Hrun;
    simpl in Hrun; [by simplify_eq|].
  simpl in Hlen.
  destruct (arrivalTime p <=? now); [|by simplify_eq].
  apply IH in Hrun; [done|lia| |].
  - rewrite pq_push_perm. constructor; [unfold good; lia|done].
  - apply pq_push_heap with (good := good ps);
      [apply deref_comp_asym|apply deref_comp_trans|done|unfold good; lia|done].
Qed.

Lemma Inv_good ps0 done st : Inv ps0 done st → Forall (good (procs st)) (pq st).
Proof.
  intros HI. apply Forall_forall. intros k Hk. unfold good.
  rewrite (Inv_length _ _ _ HI).
  pose proof (Inv_elem _ _ _ k HI) as Hlt. pose proof (inv_idx _ _ _ HI).
  assert (k < idx st)%nat; [|lia]. apply Hlt, elem_of_app. by left.
Qed.

Lemma admission_heap ps0 done st i q :
  Inv ps0 done st → heaped cmp st →
  admit_from (pq_push (deref_comp cmp (procs st)))
             (currentTime st) (procs st) (idx st) (pq st) = (i, q) →
  Forall (good (procs st)) q ∧ is_heap (deref_comp cmp (procs st)) q.
Proof.
  intros HI Hh Hadm. unfold admit_from in Hadm.
  eapply admit_arrivals_heap; [|by eapply Inv_good|exact Hh|exact Hadm].
  rewrite length_drop. pose proof (inv_idx _ _ _ HI).
  rewrite (Inv_length _ _ _ HI). lia.
Qed.

(** The process at the front of the admitted queue is below no ready
    process. *)
Lemma front_not_below ps0 done st i top q k ptop pk :
  Inv ps0 done st → heaped cmp st →
  admit_from (pq_push (deref_comp cmp (procs st)))
             (currentTime st) (procs st) (idx st) (pq st) = (i, top :: q) →
  k ∈ top :: q → procs st !! top = Some ptop → procs st !! k = Some pk →
  cmp ptop pk = false.
Proof.
  intros HI Hh Hadm Hk Htop Hpk.
  destruct (admission_heap _ _ _ _ _ HI Hh Hadm) as [Hg Hheap].
  apply list_elem_of_lookup_1 in Hk as [j Hj].
  pose proof (heap_top_max (deref_comp cmp (procs st)) (good (procs st))
                (deref_comp_asym _) (deref_comp_trans _)
                (length (top :: q)) (top :: q) top Hg Hheap ltac:(done) eq_refl
                j k ltac:(by eapply lookup_lt_Some) Hj) as Hmax.
  unfold deref_comp in Hmax. by rewrite Htop, Hpk in Hmax.
Qed.

(** Writing to a process that is not in the queue keeps the queue a heap. *)
Lemma is_heap_insert ps top p q :
  top ∉ q → is_heap (deref_comp cmp ps) q →
  is_heap (deref_comp cmp (<[top := p]> ps)) q.
Proof.
  intros Hnotin. apply heap_upto_ext. intros a b Ha Hb.
  unfold deref_comp. rewrite !list_lookup_insert_ne; [done|..]; by intros ->.
Qed.

Lemma np_step_heaped ps0 done st st' :
  Inv ps0 done st → heaped cmp st → np_step cmp st = Some st' → heaped cmp st'.
Proof.
  intros HI Hh. unfold np_step.
  destruct (admit_from _ _ _ _ _) as [i q] eqn:Hadm.
  destruct (admission_heap _ _ _ _ _ HI Hh Hadm) as [Hg Hheap].
  unfold admit_from in Hadm.
  apply (admit_ok _ ps0 done st []) in Hadm
    as (_ & _ & _ & HIA & _); [|apply pq_push_perm|done|done].
  simpl in HIA.
  destruct q as [|top q]; simpl.
  - destruct (procs st !! i); simpl; [|done]. intros ?; simplify_eq.
    unfold heaped, is_heap. simpl. intros j x y Hj. lia.
  - destruct (procs st !! top); simpl; [|done]. intros ?; simplify_eq.
    unfold heaped. simpl.
    pose proof (Inv_NoDup _ _ _ HIA) as Hnd. simpl in Hnd.
    apply NoDup_cons in Hnd as [Hnotin _].
    apply is_heap_insert.
    + rewrite pq_pop_perm. intros Hin. apply Hnotin, elem_of_app. by left.
    + apply pq_pop_heap with (good := good (procs st));
        [apply deref_comp_asym|apply deref_comp_trans|done|done].
Qed.

Lemma reachable_np_heaped ps0 st :
  reachable (np_step cmp) (start ps0) st →
  ∃ done, Inv ps0 done st ∧ heaped cmp st.
Proof.
  induction 1 as [|st st' _ (done & HI & Hh) Hlt Hstep].
  - exists []. split; [apply Inv_start|].
    unfold heaped, is_heap. simpl. intros j x y Hj. lia.
  - destruct (np_step_ok cmp _ _ _ HI Hlt) as (st'' & done' & Hs & HI' & _).
    assert (st'' = st') as -> by congruence.
    exists done'. split; [done|]. by apply (np_step_heaped ps0 done st).
Qed.

Lemma pre_step_heaped ps0 done st st' :
  Inv ps0 done st → heaped cmp st → pre_step cmp st = Some st' → heaped cmp st'.
Proof.
  intros HI Hh. unfold pre_step.
  destruct (admit_from _ _ _ _ _) as [i q] eqn:Hadm.
  destruct (admission_heap _ _ _ _ _ HI Hh Hadm) as [Hg Hheap].
  unfold admit_from in Hadm.
  apply (admit_ok _ ps0 done st []) in Hadm
    as (_ & _ & _ & HIA & _); [|apply pq_push_perm|done|done].
  simpl in HIA.
  destruct q as [|top q]; simpl.
  - destruct (procs st !! i); simpl; [|done]. intros ?; simplify_eq.
    unfold heaped, is_heap. simpl. intros j x y Hj. lia.
  - destruct (procs st !! top) as [p|] eqn:Hp; simpl; [|done].
    pose proof (Inv_NoDup _ _ _ HIA) as Hnd. simpl in Hnd.
    apply NoDup_cons in Hnd as [Hnotin _].
    assert (top ∉ pq_pop (deref_comp cmp (procs st)) (top :: q)) as Hnotin'.
    { rewrite pq_pop_perm. intros Hin. apply Hnotin, elem_of_app. by left. }
    assert (is_heap (deref_comp cmp (procs st))
                    (pq_pop (deref_comp cmp (procs st)) (top :: q))) as Hpop.
    { apply pq_pop_heap with (good := good (procs st));
        [apply deref_comp_asym|apply deref_comp_trans|done|done]. }
    match goal with |- context [if ?b then _ else _] => destruct b end;
      intros ?; simplify_eq; unfold heaped; simpl.
    + by apply is_heap_insert.
    + match goal with |- context [<[top := ?p']> (procs st)] =>
        set (ps' := <[top := p']> (procs st)) end.
      assert (length ps' = length (procs st)) as Hlen by apply length_insert.
      apply pq_push_heap with (good := good ps');
        [apply deref_comp_asym|apply deref_comp_trans| | |by apply is_heap_insert].
      * rewrite pq_pop_perm. inversion Hg as [|? ? _ Hgq]; subst.
        eapply Forall_impl; [exact Hgq|]. unfold good. intros k. by rewrite Hlen.
      * unfold good. rewrite Hlen. by eapply lookup_lt_Some.
Qed.

Lemma reachable_pre_heaped ps0 st :
  reachable (pre_step cmp) (start ps0) st →
  ∃ done, Inv ps0 done st ∧ heaped cmp st.
Proof.
  induction 1 as [|st st' _ (done & HI & Hh) Hlt Hstep].
  - exists []. split; [apply Inv_start|].
    unfold heaped, is_heap. simpl. intros j x y Hj. lia.
  - destruct (pre_step_ok cmp _ _ _ HI Hlt) as (st'' & done' & Hs & HI' & _).
    assert (st'' = st') as -> by congruence.
    exists done'. split; [done|]. by apply (pre_step_heaped ps0 done st).
Qed.
End Selection.

(** * The statements of the specification, C1 to C10 *)

(** ** C1: which process Priority scheduling dispatches *)




(** Four processes of one priority value, all present at clock 0, are not
    dispatched in arrival order either: the third runs before the second. *)
Lemma Priority_ties_not_in_arrival_order :
  let ps := [Process_new 1 0 1 7; Process_new 2 0 1 7;
             Process_new 3 0 1 7; Process_new 4 0 1 7] in
  gantt Priority (np_step Priority_cmp) 10 (start (std_sort ps))
  = [(1, 0, 1); (3, 1, 2); (2, 2, 3); (4, 3, 4)].
Proof. reflexivity. Qed.

(** The three other heap-based policies dispatch a ready process of the
    smallest key: burst time, remaining time, priority value. *)
Lemma SJF_dispatches_a_shortest_job ps st i top q k ptop pk :
  reachable (np_step SJF_cmp) (start (std_sort ps)) st →
  admission SJF st = (i, top :: q) → k ∈ top :: q →
  procs st !! top = Some ptop → procs st !! k = Some pk →
  burstTime ptop ≤ burstTime pk.
Proof.
  intros Hreach Hadm Hk Htop Hpk.
  destruct (reachable_np_heaped SJF_cmp SJF_cmp_orders _ _ Hreach)
    as (done & HI & Hh).
  pose proof (front_not_below SJF_cmp SJF_cmp_orders _ _ _ _ _ _ _ _ _
                HI Hh Hadm Hk Htop Hpk) as Hcmp.
  unfold SJF_cmp in Hcmp. by apply Z.ltb_ge.
Qed.

(** SRTF dispatches a ready process of the least remaining time. *)
Lemma SRTF_dispatches_a_shortest_remaining ps st i top q k ptop pk :
  reachable (pre_step SRTF_cmp) (start (std_sort ps)) st →
  admission SRTF st = (i, top :: q) → k ∈ top :: q →
  procs st !! top = Some ptop → procs st !! k = Some pk →
  remainingTime ptop ≤ remainingTime pk.
Proof.
  intros Hreach Hadm Hk Htop Hpk.
  destruct (reachable_pre_heaped SRTF_cmp SRTF_cmp_orders _ _ Hreach)
    as (done & HI & Hh).
  pose proof (front_not_below SRTF_cmp SRTF_cmp_orders _ _ _ _ _ _ _ _ _
                HI Hh Hadm Hk Htop Hpk) as Hcmp.
  unfold SRTF_cmp in Hcmp. by apply Z.ltb_ge.
Qed.

(** Preemptive Priority dispatches a ready process of the smallest
    priority value. *)
Lemma PreemptivePriority_dispatches_a_smallest_value ps st i top q k ptop pk :
  reachable (pre_step PreemptivePriority_cmp) (start (std_sort ps)) st →
  admission PreemptivePriority st = (i, top :: q) → k ∈ top :: q →
  procs st !! top = Some ptop → procs st !! k = Some pk →
  priority ptop ≤ priority pk.
Proof.
  intros Hreach Hadm Hk Htop Hpk.
  destruct (reachable_pre_heaped PreemptivePriority_cmp
              PreemptivePriority_cmp_orders _ _ Hreach) as (done & HI & Hh).
  pose proof (front_not_below PreemptivePriority_cmp PreemptivePriority_cmp_orders
                _ _ _ _ _ _ _ _ _ HI Hh Hadm Hk Htop Hpk) as Hcmp.
  unfold PreemptivePriority_cmp in Hcmp. by apply Z.ltb_ge.
Qed.

(** On the data set of [main] the preemptive sibling lets process 2, of
    priority value 1, preempt at clock 1. *)
Lemma PreemptivePriority_on_main :
  gantt PreemptivePriority (pre_step PreemptivePriority_cmp) 20
        (start (std_sort main_processes))
  = [(1, 0, 1); (2, 1, 3); (2, 3, 5); (2, 5, 6); (3, 6, 14); (1, 14, 23);
     (4, 23, 25); (5, 25, 29)].
Proof. reflexivity. Qed.

(** ** C2: sorting by arrival time *)

(** C2 (the code departs from the specification).  [RoundRobinScheduler::schedule]
    does not sort.  Given the later arrival first, it idles until clock 5 and
    runs process 1 before process 2, which arrived at 0; given the same two
    processes in arrival order it runs process 2 at 0. The outputs of
    process 2 differ: completion 9 against 2. *)
Theorem RoundRobin_depends_on_input_order :
  let ps := [Process_new 1 5 2 0; Process_new 2 0 2 0] in
  std_sort ps = [Process_new 2 0 2 0; Process_new 1 5 2 0] ∧
  timings (schedule (RoundRobin 2) 10 ps) = [(1, 0, 7, 2, 0); (2, 7, 9, 9, 7)] ∧
  timings (schedule (RoundRobin 2) 10 (std_sort ps))
  = [(2, 0, 2, 2, 0); (1, 0, 7, 2, 0)] ∧
  timings (schedule FCFS 10 ps) = [(2, 0, 2, 2, 0); (1, 0, 7, 2, 0)].
Proof. vm_compute. by repeat split. Qed.

(** The five policies that sort give the same result on the vector as
    given and on the sorted vector, where sorting a second time changes
    nothing: on the vectors of [sort_exact]. *)
Lemma sorting_policies_ignore_input_order pol fuel ps :
  sort_exact ps → arranged pol ps = std_sort ps →
  schedule pol fuel (std_sort ps) = schedule pol fuel ps.
Proof.
  destruct pol; simpl; intros _ Harr;
    unfold FCFS_schedule, SJF_schedule, SRTF_schedule, Priority_schedule,
      PreemptivePriority_schedule, RoundRobin_schedule;
    rewrite ?std_sort_idempotent; try done.
  by rewrite <- Harr.
Qed.

(** ** C3: invalid input *)




(** ** C4: the empty process set *)

(** C4 (counterexample).  On no process the metrics are not zero. *)
Lemma empty_metrics_are_not_zero :
  ∃ s, schedule FCFS 0 [] = Done s ∧
       is_zero (avgWaitingTime s) = false ∧
       is_zero (avgTurnaroundTime s) = false ∧
       is_zero (avgResponseTime s) = false ∧
       is_zero (throughput s) = false.
Proof. eexists. split; [reflexivity|]. by repeat split. Qed.

(** C4 (as amended).  On no process every policy returns at once with no
    process; [calculateMetrics] has no guard and divides 0 by 0 four times,
    so the four metrics are NaN. *)
Theorem empty_schedule (pol : Policy) (fuel : nat) :
  schedule pol fuel [] = Done (mkScheduler [] NaN NaN NaN NaN) ∧
  metrics_totals [] = (0, 0, 0, 0) ∧
  ddiv 0 (Z.of_nat (length (@nil Process))) = NaN.
Proof. by destruct pol, fuel. Qed.

(** ** C8: Round Robin admission during a slice *)

(** Scenario C: on (1, 0, 4), (2, 1, 3) with quantum 2 process 1 runs
    [0,2), process 2 runs [2,4), process 1 runs [4,6) and process 2 runs
    [6,7); after the first slice the queue holds process 2 before
    process 1. *)
Lemma RoundRobin_scenario_C :
  let ps := [Process_new 1 0 4 0; Process_new 2 1 3 0] in
  gantt (RoundRobin 2) (rr_step 2) 10 (start ps)
  = [(1, 0, 2); (2, 2, 4); (1, 4, 6); (2, 6, 7)] ∧
  pq <$> iter (rr_step 2) 1 (start ps) = Some [1; 0]%nat ∧
  timings (schedule (RoundRobin 2) 10 ps) = [(1, 0, 6, 6, 2); (2, 1, 7, 6, 3)].
Proof. vm_compute. by repeat split. Qed.


(** C8 (the code departs from the specification).  Round Robin walks the vector as
    given.  On (1, 0, 4), (2, 10, 1), (3, 1, 1) with quantum 2, process 3
    arrives at clock 1, during the slice [0,2) of process 1, but stands
    behind process 2 in the vector and is not admitted: after the slice the
    queue holds process 1 alone, which runs again at once; process 3 first
    runs at clock 11. *)
Theorem RoundRobin_misses_arrival :
  let ps := [Process_new 1 0 4 0; Process_new 2 10 1 0; Process_new 3 1 1 0] in
  (∃ st, iter (rr_step 2) 1 (start ps) = Some st ∧
         currentTime st = 2 ∧ idx st = 1%nat ∧ pq st = [0%nat] ∧
         arrivalTime <$> procs st !! 2%nat = Some 1) ∧
  gantt (RoundRobin 2) (rr_step 2) 10 (start ps)
  = [(1, 0, 2); (1, 2, 4); (2, 10, 11); (3, 11, 12)] ∧
  timings (schedule (RoundRobin 2) 10 ps)
  = [(1, 0, 4, 4, 0); (2, 0, 11, 1, 0); (3, 10, 12, 11, 10)].
Proof. split; [eexists; split; [reflexivity|]|]; vm_compute; by repeat split. Qed.

(** ** C9: the fast-forward branch *)

(** C9.  At every state the loop of a policy reaches, on any process list,
    with a process still uncompleted: if the admission loop leaves the ready
    queue empty, its index is inside the vector, so the fast-forward reads
    an existing process; and the iteration as a whole reads nothing past the
    end of the vector. *)
Theorem fast_forward_in_bounds (pol : Policy) (step : Walk → option Walk)
        (ps : list Process) (st : Walk) (i : nat) (q : list nat) :
  loop_body pol = Some step →
  reachable step (start (arranged pol ps)) st →
  (completed st < length (procs st))%nat →
  admission pol st = (i, q) →
  (q = [] → (i < length (procs st))%nat ∧ is_Some (procs st !! i)) ∧
  is_Some (step st).
Proof.
  intros Hbody Hreach Hlt Hadm.
  destruct (reachable_Inv _ _ _ _ Hbody Hreach) as [done HI].
  split.
  - intros ->.
    assert (∃ push, (∀ q x, push q x ≡ₚ x :: q) ∧
              admit_arrivals push (currentTime st) (drop (idx st) (procs st)) (idx st) (pq st)
              = (i, [])) as (push & Hpush & Hrun).
    { destruct pol; simplify_eq/=; eexists; (split; [|exact Hadm]);
        first [apply pq_push_perm | apply queue_push_perm]. }
    apply (admit_ok push (arranged pol ps) done st []) in Hrun
      as (_ & _ & _ & HIA & _); [|done..].
    pose proof (Inv_next _ _ _ HIA eq_refl Hlt) as Hi. simpl in Hi.
    split; [done|]. by apply lookup_lt_is_Some.
  - destruct (loop_body_inv _ _ _ _ _ Hbody HI Hlt) as (st' & _ & Hs & _).
    by exists st'.
Qed.

Lemma fast_forward_in_bounds_witness :
  let ps := [Process_new 1 3 2 0] in
  let st := start (arranged SJF ps) in
  loop_body SJF = Some (np_step SJF_cmp) ∧
  (completed st < length (procs st))%nat ∧
  admission SJF st = (0%nat, []) ∧
  ((@nil nat = [] → (0 < length (procs st))%nat ∧ is_Some (procs st !! 0%nat)) ∧
   is_Some (np_step SJF_cmp st)).
Proof.
  intros ps st.
  assert (loop_body SJF = Some (np_step SJF_cmp)) as Hbody by reflexivity.
  assert (completed st < length (procs st))%nat as Hlt by (simpl; lia).
  assert (admission SJF st = (0%nat, [])) as Hadm by reflexivity.
  split; [exact Hbody|]. split; [exact Hlt|]. split; [exact Hadm|].
  exact (fast_forward_in_bounds SJF (np_step SJF_cmp) ps st 0 []
           Hbody (reach_start _ _) Hlt Hadm).
Defined.

(** * Further properties of the code *)

(** ** The selection rules on the data set of [main] *)

Lemma SJF_dispatches_a_shortest_job_witness :
  let st := main_after_first in
  let ptop := default (Process_new 0 0 0 0) (procs st !! 3%nat) in
  let pk := default (Process_new 0 0 0 0) (procs st !! 2%nat) in
  reachable (np_step SJF_cmp) (start (std_sort main_processes)) st ∧
  admission SJF st = (5%nat, [3; 4; 1; 2]%nat) ∧
  2%nat ∈ [3; 4; 1; 2]%nat ∧
  procs st !! 3%nat = Some ptop ∧ procs st !! 2%nat = Some pk ∧
  burstTime ptop ≤ burstTime pk.
Proof.
  intros st ptop pk.
  assert (reachable (np_step SJF_cmp) (start (std_sort main_processes)) st)
    as Hreach.
  { apply (reach_step _ _ (start (std_sort main_processes)));
      [apply reach_start|simpl; lia|reflexivity]. }
  assert (admission SJF st = (5%nat, [3; 4; 1; 2]%nat)) as Hadm by reflexivity.
  assert (2%nat ∈ [3; 4; 1; 2]%nat) as Hk by (by repeat constructor).
  assert (procs st !! 3%nat = Some ptop) as Htop by reflexivity.
  assert (procs st !! 2%nat = Some pk) as Hpk by reflexivity.
  split_and!; [exact Hreach|exact Hadm|exact Hk|exact Htop|exact Hpk|].
  exact (SJF_dispatches_a_shortest_job main_processes st 5 3 [4; 1; 2]%nat 2
           ptop pk Hreach Hadm Hk Htop Hpk).
Defined.

Lemma SRTF_dispatches_a_shortest_remaining_witness :
  let st := main_SRTF_after_three in
  let ptop := default (Process_new 0 0 0 0) (procs st !! 1%nat) in
  let pk := default (Process_new 0 0 0 0) (procs st !! 3%nat) in
  reachable (pre_step SRTF_cmp) (start (std_sort main_processes)) st ∧
  admission SRTF st = (4%nat, [1; 3; 2; 0]%nat) ∧
  3%nat ∈ [1; 3; 2; 0]%nat ∧
  procs st !! 1%nat = Some ptop ∧ procs st !! 3%nat = Some pk ∧
  remainingTime ptop ≤ remainingTime pk.
Proof.
  intros st ptop pk.
  assert (reachable (pre_step SRTF_cmp) (start (std_sort main_processes)) st)
    as Hreach.
  { eapply reach_step;
      [eapply reach_step;
         [eapply reach_step; [apply reach_start|simpl; lia|reflexivity]
         |simpl; lia|reflexivity]
      |simpl; lia|reflexivity]. }
  assert (admission SRTF st = (4%nat, [1; 3; 2; 0]%nat)) as Hadm by reflexivity.
  assert (3%nat ∈ [1; 3; 2; 0]%nat) as Hk by (by repeat constructor).
  assert (procs st !! 1%nat = Some ptop) as Htop by reflexivity.
  assert (procs st !! 3%nat = Some pk) as Hpk by reflexivity.
  split_and!; [exact Hreach|exact Hadm|exact Hk|exact Htop|exact Hpk|].
  exact (SRTF_dispatches_a_shortest_remaining main_processes st 4 1 [3; 2; 0]%nat 3
           ptop pk Hreach Hadm Hk Htop Hpk).
Defined.

Lemma PreemptivePriority_dispatches_a_smallest_value_witness :
  let st := main_PreemptivePriority_after_three in
  let ptop := default (Process_new 0 0 0 0) (procs st !! 1%nat) in
  let pk := default (Process_new 0 0 0 0) (procs st !! 2%nat) in
  reachable (pre_step PreemptivePriority_cmp) (start (std_sort main_processes)) st ∧
  admission PreemptivePriority st = (4%nat, [1; 0; 2; 3]%nat) ∧
  2%nat ∈ [1; 0; 2; 3]%nat ∧
  procs st !! 1%nat = Some ptop ∧ procs st !! 2%nat = Some pk ∧
  priority ptop ≤ priority pk.
Proof.
  intros st ptop pk.
  assert (reachable (pre_step PreemptivePriority_cmp)
                    (start (std_sort main_processes)) st) as Hreach.
  { eapply reach_step;
      [eapply reach_step;
         [eapply reach_step; [apply reach_start|simpl; lia|reflexivity]
         |simpl; lia|reflexivity]
      |simpl; lia|reflexivity]. }
  assert (admission PreemptivePriority st = (4%nat, [1; 0; 2; 3]%nat))
    as Hadm by reflexivity.
  assert (2%nat ∈ [1; 0; 2; 3]%nat) as Hk by (by repeat constructor).
  assert (procs st !! 1%nat = Some ptop) as Htop by reflexivity.
  assert (procs st !! 2%nat = Some pk) as Hpk by reflexivity.
  split_and!; [exact Hreach|exact Hadm|exact Hk|exact Htop|exact Hpk|].
  exact (PreemptivePriority_dispatches_a_smallest_value main_processes st 4 1
           [0; 2; 3]%nat 2 ptop pk Hreach Hadm Hk Htop Hpk).
Defined.

(** ** The bookkeeping of the ready queue *)

(** At every state the loop of a queue-based policy reaches, on any process
    list: the ready queue holds no pointer twice, each points to a process
    that the admission index has passed, the index is within the vector,
    and the processes passed are the queued ones and the completed ones:
    [completed + |queue| = i].  No process is lost or queued twice. *)
Theorem ready_queue_bookkeeping (pol : Policy) (step : Walk → option Walk)
        (ps : list Process) (st : Walk) :
  loop_body pol = Some step →
  reachable step (start (arranged pol ps)) st →
  NoDup (pq st) ∧
  Forall (fun k => (k < idx st)%nat) (pq st) ∧
  (idx st ≤ length (procs st))%nat ∧
  (completed st + length (pq st) = idx st)%nat ∧
  length (procs st) = length ps.
Proof.
  intros Hbody Hreach.
  destruct (reachable_Inv _ _ _ _ Hbody Hreach) as [done HI].
  pose proof (Inv_NoDup _ _ _ HI) as Hnd.
  apply NoDup_app in Hnd as (Hnd & _ & _).
  pose proof (Inv_length _ _ _ HI) as Hlen.
  assert (length (arranged pol ps) = length ps) as Harr.
  { destruct pol; simpl; try done; apply std_sort_length. }
  split_and!.
  - done.
  - apply Forall_forall. intros k Hk.
    apply (Inv_elem _ _ _ k HI), elem_of_app. by left.
  - rewrite Hlen. apply (inv_idx _ _ _ HI).
  - pose proof (Permutation_length (inv_perm _ _ _ HI)) as Hp.
    rewrite length_app, length_seq in Hp.
    rewrite (inv_completed _ _ _ HI). lia.
  - by rewrite Hlen.
Qed.

Lemma ready_queue_bookkeeping_witness :
  loop_body SRTF = Some (pre_step SRTF_cmp) ∧
  reachable (pre_step SRTF_cmp) (start (arranged SRTF main_processes))
            main_SRTF_after_three ∧
  (NoDup (pq main_SRTF_after_three) ∧
   Forall (fun k => (k < idx main_SRTF_after_three)%nat)
          (pq main_SRTF_after_three) ∧
   (idx main_SRTF_after_three ≤ length (procs main_SRTF_after_three))%nat ∧
   (completed main_SRTF_after_three + length (pq main_SRTF_after_three)
    = idx main_SRTF_after_three)%nat ∧
   length (procs main_SRTF_after_three) = length main_processes).
Proof.
  assert (loop_body SRTF = Some (pre_step SRTF_cmp)) as Hbody by reflexivity.
  assert (reachable (pre_step SRTF_cmp) (start (arranged SRTF main_processes))
                    main_SRTF_after_three) as Hreach.
  { eapply reach_step;
      [eapply reach_step;
         [eapply reach_step; [apply reach_start|simpl; lia|reflexivity]
         |simpl; lia|reflexivity]
      |simpl; lia|reflexivity]. }
  split; [exact Hbody|]. split; [exact Hreach|].
  exact (ready_queue_bookkeeping SRTF (pre_step SRTF_cmp) main_processes
           main_SRTF_after_three Hbody Hreach).
Defined.

(** ** What a simulation leaves of its input *)

Lemma arrival_sorted_ext (l l' : list Process) :
  arrivalTime <$> l = arrivalTime <$> l' → arrival_sorted l → arrival_sorted l'.
Proof.
  revert l'. induction l as [|x l IH]; intros [|x' l'] Heq; try done.
  rewrite !fmap_cons in Heq. injection Heq as Hx Hl. simpl. intros [Hall Hs].
  split; [|by apply IH].
  apply (Forall_fmap arrivalTime (fun a => arrivalTime x' ≤ a)).
  rewrite <- Hl, <- Hx. by apply Forall_fmap.
Qed.

Lemma static_arrivals (l l' : list Process) :
  static <$> l = static <$> l' → arrivalTime <$> l = arrivalTime <$> l'.
Proof.
  intros Heq.
  assert (∀ k : list Process,
            arrivalTime <$> k = (fun s : Z * Z * Z * Z => s.1.1.2) <$> (static <$> k))
    as H by (intros k; by rewrite <- list_fmap_compose).
  by rewrite !H, Heq.
Qed.

(** Whatever the input, a simulation that returns has written none of id,
    arrival time, burst time and priority: the result holds the processes
    given, and for the five policies that sort, in order of arrival time
    (the order in which [printResults] lists them); Round Robin keeps the
    order given. *)
Theorem results_keep_the_input (pol : Policy) (fuel : nat) (ps : list Process) :
  match schedule pol fuel ps with
  | Done s =>
      static <$> processes s ≡ₚ static <$> ps ∧
      match pol with
      | RoundRobin _ => static <$> processes s = static <$> ps
      | _ => arrival_sorted (processes s)
      end
  | _ => True
  end.
Proof.
  pose proof (schedule_safe pol fuel ps) as Hsafe.
  destruct (schedule pol fuel ps) as [s| |]; [|done..].
  destruct Hsafe as [Hst _].
  assert (arrival_sorted (arranged pol ps) → arrival_sorted (processes s)) as Hs.
  { apply arrival_sorted_ext. symmetry. by apply static_arrivals. }
  split.
  - rewrite Hst. destruct pol; simpl; try done; by rewrite std_sort_perm.
  - destruct pol; simpl in *; try (apply Hs, std_sort_sorted). done.
Qed.

(** ** FCFS *)

Lemma FCFS_loop_chain now (l : list Process) :
  (∀ p, FCFS_loop now l !! 0%nat = Some p →
        startTime p = Z.max now (arrivalTime p)) ∧
  (∀ k p q, FCFS_loop now l !! k = Some p → FCFS_loop now l !! S k = Some q →
            startTime q = Z.max (completionTime p) (arrivalTime q)) ∧
  Forall (fun p => responseTime p = startTime p - arrivalTime p ∧
                   waitingTime p = responseTime p ∧ 0 ≤ responseTime p)
         (FCFS_loop now l).
Proof.
  revert now. induction l as [|x l IH]; intros now.
  { split_and!; [done|done|constructor]. }
  cbn [FCFS_loop].
  destruct (FCFS_visit now x) as [t x'] eqn:Hv.
  assert (startTime x' = Z.max now (arrivalTime x') ∧ t = completionTime x' ∧
          responseTime x' = startTime x' - arrivalTime x' ∧
          waitingTime x' = responseTime x' ∧ 0 ≤ responseTime x')
    as (Hs & Ht & Hr & Hw & Hr0).
  { unfold FCFS_visit in Hv. injection Hv as <- <-.
    unfold startTime, finalize. simpl.
    destruct (Z.ltb_spec now (arrivalTime x)); lia. }
  subst t. destruct (IH (completionTime x')) as (IH0 & IHk & IHall).
  split_and!.
  - intros p Hp. simpl in Hp. by simplify_eq.
  - intros [|k] p q Hp Hq; simpl in Hp, Hq.
    + assert (p = x') as -> by congruence. by apply IH0.
    + by apply (IHk k).
  - by constructor.
Qed.

(** The exact walk of FCFS runs the processes one after another in order
    of arrival, each as soon as it has arrived and its predecessor has
    completed: the first starts at [max(0, arrival)], each next one at
    [max(completion of its predecessor, arrival)]; and the response time of
    each is its start minus its arrival, never negative and equal to its
    waiting time. *)
Lemma FCFS_timeline_in_Z (fuel : nat) (ps : list Process) :
  ∃ s, schedule FCFS fuel ps = Done s ∧
       arrival_sorted (processes s) ∧
       (∀ p, processes s !! 0%nat = Some p →
             startTime p = Z.max 0 (arrivalTime p)) ∧
       (∀ k p q, processes s !! k = Some p → processes s !! S k = Some q →
                 startTime q = Z.max (completionTime p) (arrivalTime q)) ∧
       Forall (fun p => responseTime p = startTime p - arrivalTime p ∧
                        waitingTime p = responseTime p ∧ 0 ≤ responseTime p)
              (processes s).
Proof.
  eexists. split; [reflexivity|].
  rewrite calculateMetrics_processes.
  destruct (FCFS_loop_chain 0 (std_sort ps)) as (H0 & Hk & Hall).
  split_and!; [|done..].
  eapply arrival_sorted_ext; [|apply (std_sort_sorted ps)].
  symmetry. apply static_arrivals, FCFS_loop_static.
Qed.

(** ** The averages *)

Lemma metrics_totals_sums (ps : list Process) :
  metrics_totals ps =
  (sum_field waitingTime ps, sum_field turnaroundTime ps,
   sum_field responseTime ps, max_completion ps).
Proof.
  unfold metrics_totals.
  assert (∀ w t r m, 0 ≤ m →
    fold_left
      (fun '(w, t, r, m) p =>
         (w + waitingTime p, t + turnaroundTime p, r + responseTime p,
          Z.max m (completionTime p))) ps (w, t, r, m)
    = (w + sum_field waitingTime ps, t + sum_field turnaroundTime ps,
       r + sum_field responseTime ps, Z.max m (max_completion ps))) as H.
  { induction ps as [|p ps IH]; intros w t r m Hm.
    - cbn [fold_left sum_field foldr]. change (max_completion []) with 0.
      rewrite !Z.add_0_r, Z.max_l by lia. done.
    - cbn [fold_left]. rewrite IH by lia.
      rewrite max_completion_cons. cbn [sum_field foldr].
      fold (sum_field waitingTime ps) (sum_field turnaroundTime ps)
           (sum_field responseTime ps).
      rewrite !Z.add_assoc, Z.max_assoc. done. }
  rewrite H by lia. pose proof (max_completion_nonneg ps).
  rewrite !Z.add_0_l, Z.max_r by lia. done.
Qed.

Lemma calculateMetrics_averages (ps : list Process) :
  avgWaitingTime (calculateMetrics ps)
  = ddiv (sum_field waitingTime ps) (Z.of_nat (length ps)) ∧
  avgTurnaroundTime (calculateMetrics ps)
  = ddiv (sum_field turnaroundTime ps) (Z.of_nat (length ps)) ∧
  avgResponseTime (calculateMetrics ps)
  = ddiv (sum_field responseTime ps) (Z.of_nat (length ps)).
Proof. unfold calculateMetrics. by rewrite metrics_totals_sums. Qed.

Lemma sum_field_cons f p (ps : list Process) :
  sum_field f (p :: ps) = f p + sum_field f ps.
Proof. done. Qed.

Lemma sum_field_fmap f (ps : list Process) :
  sum_field f ps = foldr Z.add 0 (f <$> ps).
Proof. induction ps as [|p ps IH]; [done|]. rewrite sum_field_cons, IH. done. Qed.

Lemma sum_Permutation (l l' : list Z) :
  l ≡ₚ l' → foldr Z.add 0 l = foldr Z.add 0 l'.
Proof. induction 1; simpl; lia. Qed.

Lemma total_burst_static (l l' : list Process) :
  static <$> l ≡ₚ static <$> l' → total_burst l = total_burst l'.
Proof.
  intros Hp.
  assert (∀ k : list Process,
            total_burst k
            = foldr Z.add 0 ((fun s : Z * Z * Z * Z => s.1.2) <$> (static <$> k)))
    as H.
  { intros k. rewrite <- list_fmap_compose. apply (sum_field_fmap burstTime). }
  rewrite !H. apply sum_Permutation. by apply fmap_Permutation.
Qed.

Lemma finalized_sums (l : list Process) :
  Forall finalized l →
  sum_field turnaroundTime l = sum_field waitingTime l + total_burst l.
Proof.
  induction 1 as [|p l [Ht Hw] _ IH]; [done|].
  rewrite !sum_field_cons, IH.
  change (total_burst (p :: l)) with (burstTime p + total_burst l). lia.
Qed.

Lemma sum_field_nonneg f (l : list Process) :
  Forall (fun p => 0 ≤ f p) l → 0 ≤ sum_field f l.
Proof. induction 1; [done|]. rewrite sum_field_cons. lia. Qed.

Lemma sum_field_le f g (l : list Process) :
  Forall (fun p => f p ≤ g p) l → sum_field f l ≤ sum_field g l.
Proof. induction 1; [done|]. rewrite !sum_field_cons. lia. Qed.

Lemma sum_field_eq f g (l : list Process) :
  Forall (fun p => f p = g p) l → sum_field f l = sum_field g l.
Proof. induction 1; [done|]. rewrite !sum_field_cons. lia. Qed.

Lemma ddiv_Fin a n :
  0 < n → ddiv a n = Fin (inject_Z a / inject_Z n).
Proof. intros Hn. unfold ddiv. by destruct (Z.eqb_spec n 0); [lia|]. Qed.

Lemma schedule_calculated pol fuel ps s :
  schedule pol fuel ps = Done s → s = calculateMetrics (processes s).
Proof.
  intros Hs.
  destruct (loop_body pol) as [step|] eqn:Hbody.
  - rewrite (schedule_loop _ _ _ _ Hbody) in Hs.
    destruct (run step _ _); [|done..].
    injection Hs as <-. by rewrite calculateMetrics_processes.
  - destruct pol; try done. unfold schedule, FCFS_schedule, finish in Hs.
    injection Hs as <-. by rewrite calculateMetrics_processes.
Qed.

(** On the exact walk, for every policy and every valid process list that
    is not empty, the three averages are the sums of the waiting, turnaround and response
    times over the number of processes; the sums of waiting and response
    times are not negative, and the sum of turnaround times is the sum of
    waiting times plus the sum of the burst times given: the average
    turnaround time is the average waiting time plus the mean burst. *)
Lemma averages_in_Z (pol : Policy) (ps : list Process) :
  ps ≠ [] → valid_policy pol → Forall valid ps →
  ∃ s W R, (∀ extra, schedule pol (steps_bound pol ps + extra) ps = Done s) ∧
    W = sum_field waitingTime (processes s) ∧
    R = sum_field responseTime (processes s) ∧
    0 ≤ W ∧ 0 ≤ R ∧ R ≤ W + total_burst ps ∧
    avgWaitingTime s = Fin (inject_Z W / inject_Z (Z.of_nat (length ps))) ∧
    avgTurnaroundTime s
    = Fin (inject_Z (W + total_burst ps) / inject_Z (Z.of_nat (length ps))) ∧
    avgResponseTime s = Fin (inject_Z R / inject_Z (Z.of_nat (length ps))).
Proof.
  intros Hne Hpol Hv.
  destruct (schedule_total pol ps Hpol Hv) as (s & Hrun & _ & Hst & Hfin & Hok & _).
  assert (schedule pol (steps_bound pol ps) ps = Done s) as Hs by (apply Hrun; lia).
  pose proof (schedule_calculated _ _ _ _ Hs) as Hcalc.
  assert (length (processes s) = length ps) as Hlen.
  { rewrite <- (length_fmap static), Hst, length_fmap.
    destruct pol; simpl; try done; apply std_sort_length. }
  assert (total_burst (processes s) = total_burst ps) as Hburst.
  { apply total_burst_static. rewrite Hst.
    destruct pol; simpl; try done; by rewrite std_sort_perm. }
  assert (0 < Z.of_nat (length ps)) as Hpos by (destruct ps; [done|simpl; lia]).
  assert (Forall (fun p => 0 ≤ waitingTime p ∧ 0 ≤ responseTime p ∧
                           responseTime p ≤ turnaroundTime p) (processes s)) as Hall.
  { apply Forall_lookup_2. intros k p Hp.
    pose proof (Forall_lookup_1 _ _ _ _ Hfin Hp) as [Ht Hw].
    pose proof (Forall_lookup_1 _ _ _ _ Hok Hp) as (Hc & Hr & Hrc & _). lia. }
  pose proof (finalized_sums _ Hfin) as Hsum. rewrite Hburst in Hsum.
  destruct (calculateMetrics_averages (processes s)) as (Haw & Hat & Har).
  rewrite <- Hcalc, Hlen in Haw, Hat, Har.
  exists s, (sum_field waitingTime (processes s)),
         (sum_field responseTime (processes s)).
  split_and!; [intros extra; apply Hrun; lia|done|done| | | | | |].
  - apply sum_field_nonneg. eapply Forall_impl; [exact Hall|]. simpl. tauto.
  - apply sum_field_nonneg. eapply Forall_impl; [exact Hall|]. simpl. tauto.
  - rewrite <- Hsum. apply sum_field_le.
    eapply Forall_impl; [exact Hall|]. simpl. tauto.
  - by rewrite Haw, ddiv_Fin.
  - by rewrite Hat, Hsum, ddiv_Fin.
  - by rewrite Har, ddiv_Fin.
Qed.

(** On the exact walk of FCFS, SJF and Priority, for every valid process
    list, the average response time is the average waiting time: a process waits only
    before its single dispatch. *)
Lemma np_response_is_waiting_in_Z (pol : Policy) (ps : list Process) :
  preemptive pol = false → Forall valid ps →
  ∃ s, (∀ extra, schedule pol (steps_bound pol ps + extra) ps = Done s) ∧
       Forall (fun p => responseTime p = waitingTime p) (processes s) ∧
       avgResponseTime s = avgWaitingTime s.
Proof.
  intros Hnp Hv.
  assert (valid_policy pol) as Hpol by (by destruct pol).
  destruct (schedule_total pol ps Hpol Hv) as (s & Hrun & _ & Hst & Hfin & Hok & _).
  assert (schedule pol (steps_bound pol ps) ps = Done s) as Hs by (apply Hrun; lia).
  pose proof (schedule_calculated _ _ _ _ Hs) as Hcalc.
  assert (Forall (fun p => responseTime p = waitingTime p) (processes s)) as Hall.
  { apply Forall_lookup_2. intros k p Hp.
    pose proof (Forall_lookup_1 _ _ _ _ Hfin Hp) as [Ht Hw].
    pose proof (Forall_lookup_1 _ _ _ _ Hok Hp) as (Hc & Hr & Hrc & Hpre).
    rewrite Hnp in Hpre. lia. }
  exists s. split_and!; [intros extra; apply Hrun; lia|done|].
  destruct (calculateMetrics_averages (processes s)) as (Haw & _ & Har).
  rewrite <- Hcalc in Haw, Har. rewrite Haw, Har.
  by rewrite (sum_field_eq _ _ _ Hall).
Qed.

(** ** Round Robin with a quantum no burst exceeds *)

Lemma rr_admit_block (F rest : list Process) t j :
  (j ≤ length rest)%nat →
  (∀ k p, (k < j)%nat → rest !! k = Some p → arrivalTime p ≤ t) →
  ∃ j1, admit_from queue_push t (F ++ rest) (length F + j) (seq (length F) j)
        = ((length F + j1)%nat, seq (length F) j1) ∧
        (j ≤ j1 ≤ length rest)%nat ∧
        (∀ k p, (k < j1)%nat → rest !! k = Some p → arrivalTime p ≤ t) ∧
        (∀ p, rest !! j1 = Some p → t < arrivalTime p).
Proof.
  intros Hj Harr. unfold admit_from. rewrite drop_app_add.
  pose proof (admit_queue t (drop j rest) (length F + j) (seq (length F) j)) as Hq.
  destruct (admit_spec queue_push t (drop j rest) (length F + j) (seq (length F) j)
              queue_push_perm _ _ Hq) as (_ & _ & Ha & Hs).
  pose proof (scan_ge t (drop j rest) (length F + j)) as Hge.
  pose proof (scan_le t (drop j rest) (length F + j)) as Hle.
  rewrite length_drop in Hle. rewrite Hq.
  set (i1 := scan t (drop j rest) (length F + j)) in *.
  exists (i1 - length F)%nat. split_and!.
  - f_equal; [lia|].
    rewrite <- seq_app. f_equal. lia.
  - lia.
  - lia.
  - intros k p Hk Hp. destruct (decide (k < j)%nat) as [Hlt|Hnlt]; [by eauto|].
    apply (Ha (k - j)%nat); [lia|]. rewrite lookup_drop.
    by replace (j + (k - j))%nat with k by lia.
  - intros p Hp. apply Hs. rewrite lookup_drop.
    by replace (j + (i1 - (length F + j)))%nat with (i1 - length F)%nat by lia.
Qed.

Lemma one_slice_dispatch q t p :
  one_slice q p → arrivalTime p ≤ t →
  Z.min q (remainingTime (first_response t p)) = burstTime p ∧
  remainingTime (first_response t p) = burstTime p ∧
  FCFS_visit t p
  = (t + burstTime p,
     finalize (t + burstTime p) (set_responseTime p (t - arrivalTime p))) ∧
  finalize (t + burstTime p) (set_remainingTime (first_response t p) 0)
  = set_remainingTime
      (finalize (t + burstTime p) (set_responseTime p (t - arrivalTime p))) 0.
Proof.
  intros (Hr & Hrem & Hpos & Hq) Ha.
  unfold first_response, FCFS_visit. rewrite Hr. change (-1 =? -1) with true.
  cbn iota. destruct (Z.ltb_spec t (arrivalTime p)); [lia|].
  destruct p; cbn in *. subst. split_and!; [lia|done|done|done].
Qed.

Lemma FCFS_visit_jump t p :
  t < arrivalTime p → FCFS_visit t p = FCFS_visit (arrivalTime p) p.
Proof.
  intros Ht. unfold FCFS_visit.
  destruct (Z.ltb_spec t (arrivalTime p)); [|lia].
  by rewrite Z.ltb_irrefl.
Qed.

Lemma rr_runs_like_FCFS q (rest : list Process) :
  ∀ (F : list Process) t j fuel,
    Forall (one_slice q) rest →
    (j ≤ length rest)%nat →
    (∀ k p, (k < j)%nat → rest !! k = Some p → arrivalTime p ≤ t) →
    (2 * length rest ≤ fuel)%nat →
    ∃ st', run (rr_step q) fuel
               (mkWalk (F ++ rest) t (length F) (length F + j) (seq (length F) j))
           = Done st' ∧
           procs st' = F ++ run_down (FCFS_loop t rest).
Proof.
  induction rest as [|p rest IH]; intros F t j fuel Hall Hj Harr Hfuel.
  { rewrite app_nil_r.
    exists (mkWalk F t (length F) (length F + j) (seq (length F) j)).
    split; [|by rewrite app_nil_r].
    destruct fuel; cbn [run completed procs]; by rewrite Nat.ltb_irrefl. }
  apply Forall_cons in Hall as [Hp Hall].
  assert (∀ t j fuel,
    arrivalTime p ≤ t → (j ≤ length (p :: rest))%nat →
    (∀ k p', (k < j)%nat → (p :: rest) !! k = Some p' → arrivalTime p' ≤ t) →
    (S (2 * length rest) ≤ fuel)%nat →
    ∃ st', run (rr_step q) fuel
               (mkWalk (F ++ p :: rest) t (length F) (length F + j) (seq (length F) j))
           = Done st' ∧
           procs st' = F ++ run_down (FCFS_loop t (p :: rest))) as Hdispatch.
  { clear t j fuel Hj Harr Hfuel. intros t j fuel Hpt Hj Harr Hfuel.
    destruct fuel as [|fuel]; [lia|].
    destruct (rr_admit_block F (p :: rest) t j Hj Harr)
      as (j1 & Hadm & Hj1 & Harr1 & Hstop).
    destruct j1 as [|j1].
    { specialize (Hstop p eq_refl). lia. }
    destruct (one_slice_dispatch q t p Hp Hpt) as (Hmin & Hrem & Hvisit & Hfin).
    assert (∀ x, <[length F := x]> (F ++ p :: rest) = (F ++ [x]) ++ rest) as Hins.
    { intros x. replace (length F) with (length F + 0)%nat at 1 by lia.
      rewrite insert_app_r. cbn. by rewrite <- app_assoc. }
    set (p2 := set_remainingTime (first_response t p) 0).
    destruct (rr_admit_block (F ++ [p2]) rest (t + burstTime p) j1)
      as (j2 & Hadm2 & Hj2 & Harr2 & _).
    { cbn in Hj1. lia. }
    { intros k p' Hk Hp'. specialize (Harr1 (S k) p'). cbn in Harr1.
      destruct Hp as (_ & _ & Hpos & _). specialize (Harr1 ltac:(lia) Hp'). lia. }
    rewrite length_app in Hadm2. cbn [length] in Hadm2.
    destruct (IH (F ++ [finalize (t + burstTime p) p2]) (t + burstTime p) j2 fuel
                Hall ltac:(lia) Harr2 ltac:(lia)) as (st' & Hrun & Hprocs).
    rewrite length_app in Hrun. cbn [length] in Hrun.
    exists st'. split.
    - cbn [run completed procs]. rewrite length_app. cbn [length].
      destruct (Nat.ltb_spec (length F) (length F + S (length rest))); [|lia].
      unfold rr_step. cbn [procs currentTime idx pq completed].
      rewrite Hadm. cbn [seq].
      rewrite (list_lookup_middle F rest p (length F) eq_refl). cbn [mbind option_bind].
      rewrite Hmin, Hrem, Z.sub_diag. fold p2.
      rewrite Hins.
      replace (length F + S j1)%nat with (length F + 1 + j1)%nat by lia.
      replace (S (length F)) with (length F + 1)%nat by lia.
      rewrite Hadm2.
      change (remainingTime p2) with 0. cbn [Z.ltb Z.compare].
      rewrite <- (Hins p2), list_insert_insert_eq, Hins.
      replace (S (length F)) with (length F + 1)%nat in Hrun by lia.
      exact Hrun.
    - rewrite Hprocs. cbn [FCFS_loop]. rewrite Hvisit.
      unfold run_down. rewrite fmap_cons. fold (run_down (FCFS_loop (t + burstTime p) rest)).
      unfold p2. rewrite Hfin. rewrite <- app_assoc. done. }
  destruct (Z.le_gt_cases (arrivalTime p) t) as [Hpt|Hpt].
  { apply Hdispatch; [done|done|done|cbn [length] in Hfuel; lia]. }
  assert (j = 0)%nat as ->.
  { destruct j as [|j]; [done|]. specialize (Harr 0%nat p ltac:(lia) eq_refl). lia. }
  destruct (rr_admit_block F (p :: rest) t 0%nat ltac:(lia) Harr)
    as (j1 & Hadm & Hj1 & Harr1 & _).
  assert (j1 = 0)%nat as ->.
  { destruct j1 as [|j1]; [done|]. specialize (Harr1 0%nat p ltac:(lia) eq_refl). lia. }
  destruct fuel as [|fuel]; [cbn [length] in Hfuel; lia|].
  destruct (Hdispatch (arrivalTime p) 0%nat fuel ltac:(lia) ltac:(lia))
    as (st' & Hrun & Hprocs).
  { intros k p' Hk. lia. }
  { cbn [length] in Hfuel. lia. }
  exists st'. split.
  - cbn [run completed procs]. rewrite length_app. cbn [length].
    destruct (Nat.ltb_spec (length F) (length F + S (length rest))); [|lia].
    unfold rr_step. cbn [procs currentTime idx pq completed].
    rewrite Hadm. cbn [seq].
    replace (length F + 0)%nat with (length F) by lia.
    rewrite (list_lookup_middle F rest p (length F) eq_refl). cbn [mbind option_bind].
    replace (length F + 0)%nat with (length F) in Hrun by lia.
    exact Hrun.
  - rewrite Hprocs. cbn [FCFS_loop]. by rewrite (FCFS_visit_jump t p Hpt).
Qed.

Lemma valid_one_slice q p : valid p → burstTime p ≤ q → one_slice q p.
Proof.
  intros (Hc & _ & Hb) Hq. unfold one_slice. rewrite Hc in Hb, Hq |- *.
  by cbn in *.
Qed.

Lemma metrics_totals_run_down ps : metrics_totals (run_down ps) = metrics_totals ps.
Proof.
  unfold metrics_totals, run_down. generalize (0, 0, 0, 0).
  induction ps as [|p ps IH]; intros [[[w t] r] m]; [done|].
  rewrite fmap_cons. cbn [fold_left]. by rewrite IH.
Qed.

Lemma calculateMetrics_run_down ps :
  let s := calculateMetrics (run_down ps) in
  let s' := calculateMetrics ps in
  processes s = run_down (processes s') ∧
  avgWaitingTime s = avgWaitingTime s' ∧
  avgTurnaroundTime s = avgTurnaroundTime s' ∧
  avgResponseTime s = avgResponseTime s' ∧
  throughput s = throughput s'.
Proof.
  unfold calculateMetrics. rewrite metrics_totals_run_down.
  destruct (metrics_totals ps) as [[[w t] r] m].
  unfold run_down. rewrite length_fmap. done.
Qed.

(** On the exact walk: when no burst exceeds the quantum, Round Robin on a
    valid process list runs every process to its end in one slice, in the order of the list;
    on a list in order of arrival it computes the response, completion,
    turnaround and waiting times of FCFS, and the same averages and
    throughput.  The records differ in [remainingTime] only, which Round
    Robin counts down to 0 and FCFS leaves alone. *)
Lemma RoundRobin_as_FCFS_in_Z (timeQuantum : Z) (ps : list Process) :
  arrival_sorted ps → Forall valid ps →
  Forall (fun p => burstTime p ≤ timeQuantum) ps →
  ∃ s s',
    (∀ fuel, (2 * length ps ≤ fuel)%nat →
             schedule (RoundRobin timeQuantum) fuel ps = Done s) ∧
    (∀ fuel, schedule FCFS fuel ps = Done s') ∧
    processes s = run_down (processes s') ∧
    timings (Done s) = timings (Done s') ∧
    avgWaitingTime s = avgWaitingTime s' ∧
    avgTurnaroundTime s = avgTurnaroundTime s' ∧
    avgResponseTime s = avgResponseTime s' ∧
    throughput s = throughput s'.
Proof.
  intros Hsorted Hv Hq.
  assert (Forall (one_slice timeQuantum) ps) as Hone.
  { apply Forall_lookup_2. intros k p Hp. apply valid_one_slice.
    - by eapply Forall_lookup_1 in Hv.
    - by eapply (Forall_lookup_1 _ _ _ _ Hq). }
  destruct (calculateMetrics_run_down (FCFS_loop 0 ps))
    as (Hprocs & Haw & Hat & Har & Hth).
  exists (calculateMetrics (run_down (FCFS_loop 0 ps))),
         (calculateMetrics (FCFS_loop 0 ps)).
  split_and!; try done.
  - intros fuel Hfuel.
    destruct (rr_runs_like_FCFS timeQuantum ps [] 0 0%nat fuel Hone ltac:(lia))
      as (st' & Hrun & Hst'); [intros k p Hk; lia|done|].
    cbn [schedule]. unfold RoundRobin_schedule, start.
    cbn [length app seq Nat.add] in Hrun. rewrite Hrun. cbn [finish].
    by rewrite Hst'.
  - intros fuel. cbn [schedule]. unfold FCFS_schedule.
    by rewrite std_sort_of_sorted.
  - cbn [timings]. rewrite Hprocs. unfold run_down.
    rewrite <- list_fmap_compose. done.
Qed.

(** ** The preemptive heap policies stop at every arrival *)

Lemma arrival_sorted_lookup (l : list Process) i k x y :
  arrival_sorted l → (i ≤ k)%nat → l !! i = Some x → l !! k = Some y →
  arrivalTime x ≤ arrivalTime y.
Proof.
  revert i k. induction l as [|z l IH]; intros i k Hs Hik Hx Hy; [done|].
  destruct Hs as [Hz Hs]. destruct i as [|i]; simpl in Hx.
  - injection Hx as ->. destruct k as [|k]; simpl in Hy; [by injection Hy as ->|].
    by apply (Forall_lookup_1 _ _ _ _ Hz Hy).
  - destruct k as [|k]; [lia|]. simpl in Hy. apply (IH i k); [done|lia|done..].
Qed.

Lemma arrivals_insert (l : list Process) (k : nat) p p' :
  l !! k = Some p → arrivalTime p' = arrivalTime p →
  arrivalTime <$> <[k := p']> l = arrivalTime <$> l.
Proof.
  intros Hp Ha. rewrite list_fmap_insert, Ha.
  apply list_insert_id. by rewrite list_lookup_fmap, Hp.
Qed.

Lemma arrivalTime_first_response now p :
  arrivalTime (first_response now p) = arrivalTime p.
Proof. unfold first_response. by destruct (responseTime p =? -1). Qed.

Lemma pre_step_arrivals cmp st st' :
  arrival_sorted (procs st) → pre_step cmp st = Some st' →
  arrivalTime <$> procs st' = arrivalTime <$> procs st ∧
  ∀ k p, (idx st' ≤ k)%nat → procs st !! k = Some p →
         currentTime st' ≤ arrivalTime p.
Proof.
  intros Hsorted. unfold pre_step, admit_from.
  destruct (admit_arrivals _ _ _ _ _) as [i q] eqn:Hadm.
  apply admit_spec in Hadm as (Hi & _ & _ & Hstop); [|apply pq_push_perm].
  pose proof (scan_ge (currentTime st) (drop (idx st) (procs st)) (idx st)) as Hge.
  rewrite <- Hi in Hge.
  assert (∀ next, procs st !! i = Some next → currentTime st < arrivalTime next)
    as Hnext.
  { intros next Hn. apply Hstop. rewrite lookup_drop.
    by replace (idx st + (i - idx st))%nat with i by lia. }
  destruct (pq_top q) as [top|].
  - destruct (procs st !! top) as [p|] eqn:Hp; [|done]. cbn [mbind option_bind].
    set (p1 := first_response (currentTime st) p).
    set (e := match procs st !! i with
              | Some next => Z.min (remainingTime p1) (arrivalTime next - currentTime st)
              | None => remainingTime p1
              end).
    assert (∀ k p', (i ≤ k)%nat → procs st !! k = Some p' →
                    currentTime st + e ≤ arrivalTime p') as Hle.
    { intros k p' Hk Hp'. destruct (procs st !! i) as [next|] eqn:Hn.
      - pose proof (arrival_sorted_lookup _ _ _ _ _ Hsorted Hk Hn Hp'). subst e. lia.
      - apply lookup_ge_None_1 in Hn. apply lookup_lt_Some in Hp'. lia. }
    destruct (remainingTime (set_remainingTime p1 (remainingTime p1 - e)) =? 0);
      intros [= <-]; cbn [procs idx currentTime]; (split; [|exact Hle]);
      apply (arrivals_insert _ _ p); try done;
      unfold finalize, set_remainingTime; cbn; apply arrivalTime_first_response.
  - destruct (procs st !! i) as [next|] eqn:Hn; [|done]. cbn [mbind option_bind].
    intros [= <-]. cbn [procs idx currentTime]. split; [done|].
    intros k p' Hk Hp'. by apply (arrival_sorted_lookup _ _ _ _ _ Hsorted Hk Hn Hp').
Qed.

(** On the exact walk of SRTF and Preemptive Priority, whatever the
    comparator, the clock never runs past an arrival when no arrival time
    is negative. *)
Lemma stops_at_arrivals_in_Z cmp (ps : list Process) (st : Walk) :
  Forall (fun p => 0 ≤ arrivalTime p) ps →
  reachable (pre_step cmp) (start (std_sort ps)) st →
  none_passed st.
Proof.
  intros Hnn Hreach.
  assert (arrivalTime <$> procs st = arrivalTime <$> std_sort ps ∧ none_passed st)
    as [_ H]; [|exact H].
  induction Hreach as [|st st' _ [Harr IH] Hlt Hstep].
  - split; [done|]. intros k p Hp Ha. cbn in *.
    assert (p ∈ ps) as Hin.
    { rewrite <- (std_sort_perm ps). apply list_elem_of_lookup. by exists k. }
    rewrite Forall_forall in Hnn. specialize (Hnn p Hin). cbn in Hnn. lia.
  - assert (arrival_sorted (procs st)) as Hsorted.
    { eapply arrival_sorted_ext; [symmetry; exact Harr|apply std_sort_sorted]. }
    destruct (pre_step_arrivals cmp st st' Hsorted Hstep) as [Heq Hle].
    split; [congruence|].
    intros k p' Hp' Ha. destruct (decide (k < idx st')%nat) as [|Hge]; [done|].
    assert ((arrivalTime <$> procs st) !! k = Some (arrivalTime p')) as Hk.
    { by rewrite <- Heq, list_lookup_fmap, Hp'. }
    rewrite list_lookup_fmap in Hk.
    destruct (procs st !! k) as [p0|] eqn:Hp0; [|done]. injection Hk as Hk.
    specialize (Hle k p0 ltac:(lia) Hp0). lia.
Qed.

(** ** The slices of a process add up to its burst *)







(** ** The quantum *)

(** The process an iteration dispatches is a ready one. *)
Lemma dispatched_ready pol ps0 done st k p :
  Inv ps0 done st → Timed (preemptive pol) ps0 done st → Forall valid ps0 →
  dispatched pol st = Some k → procs st !! k = Some p →
  ready_ok (preemptive pol) (currentTime st) p.
Proof.
  intros HI HT Hv Hd Hp. unfold dispatched in Hd.
  assert (∃ i q, admission pol st = (i, q) ∧
                 Timed (preemptive pol) ps0 done
                       (mkWalk (procs st) (currentTime st) (completed st) i q))
    as (i & q & Hadm & HTA).
  { destruct pol; cbn [admission]; unfold admit_from;
      try (destruct (admit_arrivals _ _ _ _ _) as [i q] eqn:Hadm;
           apply (admit_ok _ ps0 done st []) in Hadm as (_ & _ & _ & _ & HTA & _);
           [|first [apply pq_push_perm|apply queue_push_perm]|done|done];
           exists i, q; split; [done|]; by apply HTA).
    exists (idx st), (pq st). split; [done|]. by destruct st. }
  rewrite Hadm in Hd. cbn [snd] in Hd.
  apply (t_ready _ _ _ _ HTA k p); [|done].
  cbn [pq]. destruct q as [|x q]; [done|]. injection Hd as ->. by left.
Qed.






(** ** Response time and waiting time under the preemptive policies *)

(** The shape of one iteration of a preemptive policy: a fast-forward, or
    a slice of the dispatched process. *)
Lemma pre_step_shape cmp st st' :
  pre_step cmp st = Some st' →
  match head (admit_from (pq_push (deref_comp cmp (procs st)))
                         (currentTime st) (procs st) (idx st) (pq st)).2 with
  | None => procs st' = procs st ∧ currentTime st < currentTime st'
  | Some k =>
      ∃ p e, procs st !! k = Some p ∧
             currentTime st' = currentTime st + e ∧
             (0 < remainingTime p → 0 < e ≤ remainingTime p) ∧
             procs st' = <[k := after_slice (currentTime st) e p]> (procs st)
  end.
Proof.
  unfold pre_step, admit_from.
  destruct (admit_arrivals _ _ _ _ _) as [i q] eqn:Hadm.
  apply admit_spec in Hadm as (Hi & _ & _ & Hstop); [|apply pq_push_perm].
  pose proof (scan_ge (currentTime st) (drop (idx st) (procs st)) (idx st)) as Hge.
  rewrite <- Hi in Hge.
  assert (∀ next, procs st !! i = Some next → currentTime st < arrivalTime next)
    as Hnext.
  { intros next Hn. apply Hstop. rewrite lookup_drop.
    by replace (idx st + (i - idx st))%nat with i by lia. }
  cbn [snd]. unfold pq_top. destruct (head q) as [top|].
  - destruct (procs st !! top) as [p|] eqn:Hp; [|done]. cbn [mbind option_bind].
    rewrite remainingTime_first_response.
    set (e := match procs st !! i with
              | Some next => Z.min (remainingTime p) (arrivalTime next - currentTime st)
              | None => remainingTime p
              end).
    assert (0 < remainingTime p → 0 < e ≤ remainingTime p) as He.
    { intros Hpos. subst e. destruct (procs st !! i) as [next|] eqn:Hn; [|lia].
      specialize (Hnext next eq_refl). lia. }
    intros Hstep. exists p, e. split; [done|].
    unfold after_slice.
    change (remainingTime (set_remainingTime (first_response (currentTime st) p)
                                             (remainingTime p - e)))
      with (remainingTime p - e) in Hstep.
    by destruct (remainingTime p - e =? 0); injection Hstep as <-.
  - destruct (procs st !! i) as [next|] eqn:Hn; [|done]. cbn [mbind option_bind].
    intros [= <-]. split; [done|]. cbn [currentTime]. by apply Hnext.
Qed.

Lemma rr_step_shape timeQuantum st st' :
  0 < timeQuantum → rr_step timeQuantum st = Some st' →
  match head (admit_from queue_push (currentTime st) (procs st) (idx st) (pq st)).2 with
  | None => procs st' = procs st ∧ currentTime st < currentTime st'
  | Some k =>
      ∃ p e, procs st !! k = Some p ∧
             currentTime st' = currentTime st + e ∧
             (0 < remainingTime p → 0 < e ≤ remainingTime p) ∧
             procs st' = <[k := after_slice (currentTime st) e p]> (procs st)
  end.
Proof.
  intros Hq. unfold rr_step, admit_from.
  destruct (admit_arrivals _ _ _ _ _) as [i q] eqn:Hadm.
  apply admit_spec in Hadm as (Hi & _ & _ & Hstop); [|apply queue_push_perm].
  pose proof (scan_ge (currentTime st) (drop (idx st) (procs st)) (idx st)) as Hge.
  rewrite <- Hi in Hge.
  assert (∀ next, procs st !! i = Some next → currentTime st < arrivalTime next)
    as Hnext.
  { intros next Hn. apply Hstop. rewrite lookup_drop.
    by replace (idx st + (i - idx st))%nat with i by lia. }
  cbn [snd]. destruct q as [|front q]; cbn [head].
  - destruct (procs st !! i) as [next|] eqn:Hn; [|done]. cbn [mbind option_bind].
    intros [= <-]. split; [done|]. cbn [currentTime]. by apply Hnext.
  - destruct (procs st !! front) as [p|] eqn:Hp; [|done]. cbn [mbind option_bind].
    rewrite remainingTime_first_response.
    set (e := Z.min timeQuantum (remainingTime p)).
    destruct (admit_arrivals _ _ _ _ _) as [i' q'].
    change (remainingTime (set_remainingTime (first_response (currentTime st) p)
                                             (remainingTime p - e)))
      with (remainingTime p - e).
    intros Hstep. exists p, e. split; [done|].
    unfold after_slice.
    destruct (Z.ltb_spec 0 (remainingTime p - e)) as [Hlt|Hle];
      injection Hstep as <-; cbn [procs currentTime].
    + destruct (Z.eqb_spec (remainingTime p - e) 0) as [|_]; [lia|].
      split_and!; [done|subst e; lia|done].
    + assert (remainingTime p - e = 0) as Hz by (subst e; lia).
      rewrite Hz. cbn [Z.eqb]. rewrite list_insert_insert_eq.
      split_and!; [done|subst e; lia|done].
Qed.

Lemma preemptive_step_shape pol step st st' :
  loop_body pol = Some step → preemptive pol = true → valid_policy pol →
  step st = Some st' →
  match dispatched pol st with
  | None => procs st' = procs st ∧ currentTime st < currentTime st'
  | Some k =>
      ∃ p e, procs st !! k = Some p ∧
             currentTime st' = currentTime st + e ∧
             (0 < remainingTime p → 0 < e ≤ remainingTime p) ∧
             procs st' = <[k := after_slice (currentTime st) e p]> (procs st)
  end.
Proof.
  intros Hbody Hpre Hpol Hstep. unfold dispatched, admission.
  destruct pol; simplify_eq/=.
  - by apply pre_step_shape.
  - by eapply rr_step_shape.
  - by apply pre_step_shape.
Qed.

Lemma served_mono now now' p : served now p → now ≤ now' → served now' p.
Proof.
  intros [H1 H2] Hle. split; [done|]. intros Hr. specialize (H2 Hr).
  destruct (remainingTime p =? 0); lia.
Qed.

Lemma served_after_slice now e p :
  ready_ok true now p → served now p → 0 < e ≤ remainingTime p →
  served (now + e) (after_slice now e p).
Proof.
  intros (Hpos & Hle & Harr & Hresp) [H1 H2] He.
  destruct (Z.eqb_spec (remainingTime p) 0) as [|_]; [lia|].
  unfold served, after_slice, first_response, finalize, set_remainingTime.
  destruct (Z.eqb_spec (responseTime p) (-1)) as [Hr|Hr];
    destruct (Z.eqb_spec (remainingTime p - e) 0) as [Hz|Hz]; cbn;
    try rewrite Hz; cbn;
    try (destruct (Z.eqb_spec (remainingTime p - e) 0) as [|_]; [lia|]);
    (split; [intros; lia|intros _]).
  - specialize (H1 Hr). lia.
  - specialize (H1 Hr). lia.
  - specialize (H2 Hr). lia.
  - specialize (H2 Hr). lia.
Qed.

Lemma preemptive_step_served pol step ps0 done st st' :
  loop_body pol = Some step → preemptive pol = true → valid_policy pol →
  Forall valid ps0 → Inv ps0 done st → Timed true ps0 done st →
  step st = Some st' →
  Forall (served (currentTime st)) (procs st) →
  Forall (served (currentTime st')) (procs st').
Proof.
  intros Hbody Hpre Hpol Hv HI HT Hstep HJ.
  pose proof (preemptive_step_shape pol step st st' Hbody Hpre Hpol Hstep) as Hshape.
  destruct (dispatched pol st) as [k|] eqn:Hd.
  - destruct Hshape as (p & e & Hp & Hnow & He & Hprocs).
    rewrite <- Hpre in HT.
    pose proof (dispatched_ready pol _ _ _ _ _ HI HT Hv Hd Hp) as Hready.
    rewrite Hpre in Hready. specialize (He (proj1 Hready)).
    rewrite Hprocs, Hnow. apply Forall_insert.
    + eapply Forall_impl; [exact HJ|]. intros x Hx. eapply served_mono; [done|lia].
    + apply served_after_slice; [done| |done].
      by apply (Forall_lookup_1 _ _ _ _ HJ Hp).
  - destruct Hshape as [-> Hlt].
    eapply Forall_impl; [exact HJ|]. intros x Hx. eapply served_mono; [done|lia].
Qed.

Lemma preemptive_run_served pol step (ps : list Process) :
  loop_body pol = Some step → preemptive pol = true → valid_policy pol →
  Forall valid ps →
  ∃ st done, run step (steps_bound pol ps) (start (arranged pol ps)) = Done st ∧
             Inv (arranged pol ps) done st ∧
             Timed true (arranged pol ps) done st ∧
             done ≡ₚ seq 0 (length (arranged pol ps)) ∧
             Forall (served (currentTime st)) (procs st).
Proof.
  intros Hbody Hpre Hpol Hv.
  assert (Forall valid (arranged pol ps)) as Hv'.
  { destruct pol; simpl; try done; by rewrite std_sort_perm. }
  assert (length (arranged pol ps) = length ps) as Hlen.
  { destruct pol; simpl; try done; apply std_sort_length. }
  set (Good := fun (done : list nat) (st : Walk) =>
                 Timed true (arranged pol ps) done st ∧
                 Forall (served (currentTime st)) (procs st)).
  assert (∃ measure,
    (measure (start (arranged pol ps)) ≤ steps_bound pol ps)%nat ∧
    ∀ done st,
      Inv (arranged pol ps) done st → (completed st < length (procs st))%nat →
      ∃ st' done', step st = Some st' ∧ Inv (arranged pol ps) done' st' ∧
        (Good done st → Good done' st' ∧ (measure st' < measure st)%nat))
    as (measure & Hstart & Hstep).
  { assert (∀ done st st' done' (measure : Walk → nat),
              Inv (arranged pol ps) done st → step st = Some st' →
              (Timed true (arranged pol ps) done st →
               Timed true (arranged pol ps) done' st' ∧ (measure st' < measure st)%nat) →
              Good done st → Good done' st' ∧ (measure st' < measure st)%nat) as Hgood.
    { intros done st st' done' measure HI Hst HT [HT0 HJ].
      destruct (HT HT0) as [HT1 Hm]. split; [|done]. split; [done|].
      by eapply preemptive_step_served. }
    destruct pol; simplify_eq/=.
    - exists heap_measure. split.
      { pose proof (heap_measure_start (std_sort ps)). rewrite std_sort_length in *. lia. }
      intros done st HI Hlt.
      destruct (pre_step_ok SRTF_cmp _ _ _ HI Hlt) as (st' & d' & Hst & HI' & HT).
      exists st', d'. split_and!; [done..|]. eapply Hgood; [done..|]. by apply HT.
    - exists rr_measure. split; [by apply rr_measure_start|].
      intros done st HI Hlt.
      destruct (rr_step_ok timeQuantum _ _ _ HI Hlt) as (st' & d' & Hst & HI' & HT).
      exists st', d'. split_and!; [done..|]. eapply Hgood; [done..|]. by apply HT.
    - exists heap_measure. split.
      { pose proof (heap_measure_start (std_sort ps)). rewrite std_sort_length in *. lia. }
      intros done st HI Hlt.
      destruct (pre_step_ok PreemptivePriority_cmp _ _ _ HI Hlt)
        as (st' & d' & Hst & HI' & HT).
      exists st', d'. split_and!; [done..|]. eapply Hgood; [done..|]. by apply HT. }
  destruct (run_total step (arranged pol ps) Good measure Hstep
              (steps_bound pol ps) (start (arranged pol ps)) [])
    as (st & done & Hrun & HI & [HT HJ] & Hd).
  - apply Inv_start.
  - split; [by apply Timed_start|]. cbn [start procs currentTime].
    eapply Forall_impl; [exact Hv'|]. intros p (Hc & _).
    split; [intros _; by rewrite Hc|]. intros Hr. by rewrite Hc in Hr.
  - done.
  - by exists st, done.
Qed.

(** On the exact walk of every policy, on valid input, the response time
    of a process is not negative and not above its waiting time: also under SRTF, Round
    Robin and Preemptive Priority, where a process waits again after its
    first dispatch. *)
Lemma response_within_waiting_in_Z (pol : Policy) (ps : list Process) :
  valid_policy pol → Forall valid ps →
  ∃ s, (∀ extra, schedule pol (steps_bound pol ps + extra) ps = Done s) ∧
       Forall (fun p => 0 ≤ responseTime p ≤ waitingTime p) (processes s).
Proof.
  intros Hpol Hv.
  destruct (schedule_total pol ps Hpol Hv) as (s & Hrun & _ & _ & Hfin & Hok & _).
  exists s. split; [intros extra; apply Hrun; lia|].
  destruct (preemptive pol) eqn:Hpre.
  - destruct (loop_body pol) as [step|] eqn:Hbody; [|by destruct pol].
    destruct (preemptive_run_served pol step ps Hbody Hpre Hpol Hv)
      as (st & done & Hst & _ & _ & _ & HJ).
    assert (processes s = procs st) as Hs.
    { specialize (Hrun (steps_bound pol ps) ltac:(lia)).
      rewrite (schedule_loop _ _ _ _ Hbody), Hst in Hrun. cbn [finish] in Hrun.
      injection Hrun as <-. apply calculateMetrics_processes. }
    rewrite <- Hs in HJ.
    apply Forall_lookup_2. intros k p Hp.
    pose proof (Forall_lookup_1 _ _ _ _ Hfin Hp) as [Ht Hw].
    pose proof (Forall_lookup_1 _ _ _ _ Hok Hp) as (Hc & Hr & Hrc & Hrem).
    pose proof (Forall_lookup_1 _ _ _ _ HJ Hp) as [_ Hserved].
    specialize (Hserved ltac:(lia)). rewrite Hrem in Hserved. cbn in Hserved. lia.
  - apply Forall_lookup_2. intros k p Hp.
    pose proof (Forall_lookup_1 _ _ _ _ Hfin Hp) as [Ht Hw].
    pose proof (Forall_lookup_1 _ _ _ _ Hok Hp) as (Hc & Hr & Hrc & Heq & _). lia.
Qed.

(** ** One process at a time *)

Lemma loop_body_timed pol step ps0 done st :
  loop_body pol = Some step → valid_policy pol → Forall valid ps0 →
  Inv ps0 done st → Timed (preemptive pol) ps0 done st →
  (completed st < length (procs st))%nat →
  ∃ st' done', step st = Some st' ∧ Inv ps0 done' st' ∧
               Timed (preemptive pol) ps0 done' st'.
Proof.
  intros Hbody Hpol Hv HI HT Hlt. destruct pol; simplify_eq/=.
  - destruct (np_step_ok SJF_cmp _ _ _ HI Hlt) as (st' & d' & ? & ? & ? & HT').
    exists st', d'. split_and!; [done..|]. by apply HT'.
  - destruct (pre_step_ok SRTF_cmp _ _ _ HI Hlt) as (st' & d' & ? & ? & HT').
    exists st', d'. split_and!; [done..|]. by apply HT'.
  - destruct (rr_step_ok timeQuantum _ _ _ HI Hlt) as (st' & d' & ? & ? & HT').
    exists st', d'. split_and!; [done..|]. by apply HT'.
  - destruct (np_step_ok Priority_cmp _ _ _ HI Hlt) as (st' & d' & ? & ? & ? & HT').
    exists st', d'. split_and!; [done..|]. by apply HT'.
  - destruct (pre_step_ok PreemptivePriority_cmp _ _ _ HI Hlt)
      as (st' & d' & ? & ? & HT').
    exists st', d'. split_and!; [done..|]. by apply HT'.
Qed.

Lemma np_step_shape cmp st st' :
  np_step cmp st = Some st' →
  match head (admit_from (pq_push (deref_comp cmp (procs st)))
                         (currentTime st) (procs st) (idx st) (pq st)).2 with
  | None => currentTime st < currentTime st'
  | Some k => ∃ p, procs st !! k = Some p ∧
                   currentTime st' = currentTime st + burstTime p
  end.
Proof.
  unfold np_step, admit_from.
  destruct (admit_arrivals _ _ _ _ _) as [i q] eqn:Hadm.
  apply admit_spec in Hadm as (Hi & _ & _ & Hstop); [|apply pq_push_perm].
  pose proof (scan_ge (currentTime st) (drop (idx st) (procs st)) (idx st)) as Hge.
  rewrite <- Hi in Hge.
  cbn [snd]. unfold pq_top. destruct (head q) as [top|].
  - destruct (procs st !! top) as [p|] eqn:Hp; [|done]. cbn [mbind option_bind].
    intros [= <-]. exists p. split; [done|]. cbn [currentTime].
    unfold finalize, first_response. by destruct (responseTime p =? -1).
  - destruct (procs st !! i) as [next|] eqn:Hn; [|done]. cbn [mbind option_bind].
    intros [= <-]. cbn [currentTime]. apply Hstop. rewrite lookup_drop.
    by replace (idx st + (i - idx st))%nat with i by lia.
Qed.

(** On valid input every iteration moves the clock forward. *)
Lemma clock_advances pol step ps0 done st st' :
  loop_body pol = Some step → valid_policy pol → Forall valid ps0 →
  Inv ps0 done st → Timed (preemptive pol) ps0 done st →
  step st = Some st' → currentTime st < currentTime st'.
Proof.
  intros Hbody Hpol Hv HI HT Hstep.
  destruct (dispatched pol st) as [k|] eqn:Hd.
  - destruct (preemptive pol) eqn:Hpre.
    + pose proof (preemptive_step_shape pol step st st' Hbody Hpre Hpol Hstep) as Hs.
      rewrite Hd in Hs. destruct Hs as (p & e & Hp & Hnow & He & _).
      rewrite <- Hpre in HT.
      destruct (dispatched_ready pol _ _ _ _ _ HI HT Hv Hd Hp) as (Hpos & _).
      specialize (He Hpos). lia.
    + assert (∃ p, procs st !! k = Some p ∧
                   currentTime st' = currentTime st + burstTime p)
        as (p & Hp & Hnow).
      { unfold dispatched, admission in Hd. destruct pol; simplify_eq/=.
        - pose proof (np_step_shape _ _ _ Hstep) as Hs. by rewrite Hd in Hs.
        - pose proof (np_step_shape _ _ _ Hstep) as Hs. by rewrite Hd in Hs. }
      rewrite <- Hpre in HT.
      pose proof (dispatched_ready pol _ _ _ _ _ HI HT Hv Hd Hp) as Hready.
      rewrite Hpre in Hready. destruct Hready as (Hpos & _ & _ & _ & Heq). lia.
  - unfold dispatched, admission in Hd. destruct pol; simplify_eq/=.
    + pose proof (np_step_shape _ _ _ Hstep) as Hs. by rewrite Hd in Hs.
    + pose proof (pre_step_shape _ _ _ Hstep) as Hs. rewrite Hd in Hs. tauto.
    + pose proof (rr_step_shape _ _ _ Hpol Hstep) as Hs. rewrite Hd in Hs. tauto.
    + pose proof (np_step_shape _ _ _ Hstep) as Hs. by rewrite Hd in Hs.
    + pose proof (pre_step_shape _ _ _ Hstep) as Hs. rewrite Hd in Hs. tauto.
Qed.

Lemma gantt_in_order pol step ps0 fuel :
  loop_body pol = Some step → valid_policy pol → Forall valid ps0 →
  ∀ st done from, Inv ps0 done st → Timed (preemptive pol) ps0 done st →
    from ≤ currentTime st → in_order from (gantt pol step fuel st).
Proof.
  intros Hbody Hpol Hv. induction fuel as [|fuel IH]; intros st done from HI HT Hfrom;
    cbn [gantt];
    destruct (Nat.ltb_spec (completed st) (length (procs st))) as [Hlt|Hge];
    try exact I.
  destruct (loop_body_timed pol step _ _ _ Hbody Hpol Hv HI HT Hlt)
    as (st' & done' & Hstep & HI' & HT').
  rewrite Hstep.
  pose proof (clock_advances pol step _ _ _ _ Hbody Hpol Hv HI HT Hstep) as Hadv.
  unfold slice_of. destruct (dispatched pol st) as [k|]; cbn [mbind option_bind].
  - destruct (procs st !! k) as [p|]; cbn [mbind option_bind option_list app].
    + cbn [in_order fst snd]. split_and!; [done|done|]. by apply (IH st' done').
    + apply (IH st' done'); [done..|lia].
  - cbn [option_list app]. apply (IH st' done'); [done..|lia].
Qed.

(** On the exact walk of the five policies with a ready queue, on valid
    input, the slices of a run come in time order: each has positive length and starts no
    earlier than the one before it ended, so the CPU runs one process at a
    time and the clock never goes back. *)
Lemma slices_in_order_in_Z pol step (ps : list Process) fuel :
  loop_body pol = Some step → valid_policy pol → Forall valid ps →
  in_order 0 (gantt pol step fuel (start (arranged pol ps))).
Proof.
  intros Hbody Hpol Hv.
  assert (Forall valid (arranged pol ps)) as Hv'.
  { destruct pol; simpl; try done; by rewrite std_sort_perm. }
  apply (gantt_in_order pol step (arranged pol ps) fuel Hbody Hpol Hv'
           (start (arranged pol ps)) [] 0).
  - apply Inv_start.
  - by apply Timed_start.
  - done.
Qed.

(** * The walk in [int] arithmetic *)

(** ** Operations that do not overflow *)

Lemma wrap_exact z : in_int z → wrap z = z.
Proof.
  unfold in_int, INT_MIN, INT_MAX, wrap. intros Hz.
  rewrite Z.mod_small by lia. lia.
Qed.

Lemma wrap_in_int z : in_int (wrap z).
Proof.
  unfold in_int, INT_MIN, INT_MAX, wrap.
  pose proof (Z.mod_pos_bound (z + 2147483648) 4294967296 ltac:(lia)). lia.
Qed.

Lemma add_exact a b : in_int (a + b) → Int32.add a b = a + b.
Proof. apply wrap_exact. Qed.

Lemma sub_exact a b : in_int (a - b) → Int32.sub a b = a - b.
Proof. apply wrap_exact. Qed.

Lemma first_response_exact now p :
  (responseTime p = -1 → in_int (now - arrivalTime p)) →
  Int32.first_response now p = first_response now p.
Proof.
  intros H. unfold Int32.first_response, first_response.
  destruct (Z.eqb_spec (responseTime p) (-1)) as [Hr|]; [|done].
  by rewrite sub_exact by auto.
Qed.

Lemma finalize_exact c p :
  in_int (c - arrivalTime p) → in_int (c - arrivalTime p - burstTime p) →
  Int32.finalize c p = finalize c p.
Proof.
  intros H1 H2. unfold Int32.finalize, finalize. cbn.
  rewrite (sub_exact c) by done. by rewrite sub_exact.
Qed.

(** ** The bound on the clock *)

Lemma max_arrival_nonneg ps : 0 ≤ max_arrival ps.
Proof. induction ps as [|p ps IH]; simpl; lia. Qed.

Lemma max_arrival_ge ps p : p ∈ ps → arrivalTime p ≤ max_arrival ps.
Proof.
  induction ps as [|x ps IH]; intros Hp; [by apply elem_of_nil in Hp|].
  apply elem_of_cons in Hp as [->|Hp]; simpl; [lia|].
  specialize (IH Hp). lia.
Qed.

Lemma sum_field_insert f (l : list Process) (k : nat) p p' :
  l !! k = Some p →
  sum_field f (<[k := p']> l) = sum_field f l - f p + f p'.
Proof.
  revert k. induction l as [|a l IH]; intros [|k] Hp; simplify_eq/=;
    unfold sum_field in *; simpl; [lia|].
  rewrite (IH k) by done. lia.
Qed.

Lemma sum_field_lookup_le f (l : list Process) (k : nat) p :
  Forall (fun x => 0 ≤ f x) l → l !! k = Some p → f p ≤ sum_field f l.
Proof.
  intros Hall. revert k. induction Hall as [|a l Ha Hall IH]; intros [|k] Hp;
    [done|done| |]; rewrite sum_field_cons.
  - injection Hp as ->. pose proof (sum_field_nonneg f l Hall). lia.
  - specialize (IH k Hp). lia.
Qed.

(** A process of the walk has the arrival and burst time it was given. *)
Lemma Inv_given ps0 done st k p :
  Forall valid ps0 → Inv ps0 done st → procs st !! k = Some p →
  0 ≤ arrivalTime p ∧ arrivalTime p ≤ max_arrival ps0 ∧ 0 < burstTime p.
Proof.
  intros Hv HI Hp.
  destruct (static_lookup _ _ _ _ (inv_static _ _ _ HI) Hp) as (p0 & Hp0 & Hst).
  destruct (Forall_lookup_1 _ _ _ _ Hv Hp0) as (_ & Ha & Hb).
  pose proof (max_arrival_ge ps0 p0 ltac:(by eapply list_elem_of_lookup_2)) as Hm.
  injection Hst as _ Harr Hburst _. lia.
Qed.

Lemma owed_nonneg pre ps0 done st :
  Forall valid ps0 → Inv ps0 done st → Timed pre ps0 done st →
  Forall (fun p => 0 ≤ owed pre p) (procs st).
Proof.
  intros Hv HI HT. destruct pre.
  - by apply (Timed_remaining ps0 true Hv done st).
  - apply Forall_lookup_2. intros k p Hp.
    destruct (Inv_given _ _ _ _ _ Hv HI Hp) as (_ & _ & Hb).
    unfold owed. destruct (responseTime p =? -1); lia.
Qed.

Lemma owed_valid pre ps :
  Forall valid ps → sum_field (owed pre) ps = total_burst ps.
Proof.
  induction 1 as [|p ps (Hc & _) _ IH]; [done|].
  rewrite sum_field_cons, IH.
  change (total_burst (p :: ps)) with (burstTime p + total_burst ps).
  rewrite Hc. by destruct pre.
Qed.

Lemma Within_start pre ps0 : Forall valid ps0 → Within pre ps0 (start ps0).
Proof.
  intros Hv. pose proof (max_arrival_nonneg ps0).
  split; cbn [start procs currentTime]; rewrite owed_valid by done; lia.
Qed.

(** ** One iteration without overflow *)

Lemma burstTime_first_response now p :
  burstTime (first_response now p) = burstTime p.
Proof. unfold first_response. by destruct (responseTime p =? -1). Qed.

Lemma np_step_exact_when cmp st :
  (∀ i q top p,
     admit_from (pq_push (deref_comp cmp (procs st)))
                (currentTime st) (procs st) (idx st) (pq st) = (i, q) →
     head q = Some top → procs st !! top = Some p →
     0 ≤ arrivalTime p ≤ currentTime st ∧ 0 < burstTime p ∧
     currentTime st + burstTime p ≤ INT_MAX) →
  Int32.np_step cmp st = np_step cmp st.
Proof.
  intros H. unfold Int32.np_step, np_step.
  destruct (admit_from _ _ _ _ _) as [i q] eqn:Hadm.
  unfold pq_top. destruct (head q) as [top|] eqn:Hq; [|done].
  destruct (procs st !! top) as [p|] eqn:Hp; [|done]. cbn [mbind option_bind].
  destruct (H i q top p eq_refl Hq Hp) as (Ha & Hb & Hc). cbv zeta.
  assert (in_int (currentTime st - arrivalTime p)) as H1
      by (unfold in_int, INT_MIN, INT_MAX in *; lia).
  rewrite first_response_exact by done.
  rewrite burstTime_first_response.
  rewrite add_exact by (unfold in_int, INT_MIN, INT_MAX in *; lia).
  rewrite finalize_exact; [done| |];
    rewrite arrivalTime_first_response, ?burstTime_first_response;
    unfold in_int, INT_MIN, INT_MAX in *; lia.
Qed.

Lemma pre_step_exact_when cmp st :
  (∀ i q top p,
     admit_from (pq_push (deref_comp cmp (procs st)))
                (currentTime st) (procs st) (idx st) (pq st) = (i, q) →
     head q = Some top → procs st !! top = Some p →
     0 ≤ arrivalTime p ∧ ready_ok true (currentTime st) p ∧
     currentTime st + remainingTime p ≤ INT_MAX ∧
     ∀ next, procs st !! i = Some next →
             currentTime st < arrivalTime next ≤ INT_MAX) →
  Int32.pre_step cmp st = pre_step cmp st.
Proof.
  intros H. unfold Int32.pre_step, pre_step.
  destruct (admit_from _ _ _ _ _) as [i q] eqn:Hadm.
  unfold pq_top. destruct (head q) as [top|] eqn:Hq; [|done].
  destruct (procs st !! top) as [p|] eqn:Hp; [|done]. cbn [mbind option_bind].
  destruct (H i q top p eq_refl Hq Hp) as (Ha & (Hr1 & Hr2 & Hr3 & _) & Hc & Hnext).
  cbv zeta.
  assert (in_int (currentTime st - arrivalTime p)) as H1
      by (unfold in_int, INT_MIN, INT_MAX in *; lia).
  rewrite first_response_exact by done.
  rewrite !remainingTime_first_response.
  assert (match procs st !! i with
          | Some next => Z.min (remainingTime p)
                               (Int32.sub (arrivalTime next) (currentTime st))
          | None => remainingTime p
          end
          = match procs st !! i with
            | Some next => Z.min (remainingTime p) (arrivalTime next - currentTime st)
            | None => remainingTime p
            end) as ->.
  { destruct (procs st !! i) as [next|]; [|done].
    specialize (Hnext next eq_refl).
    rewrite sub_exact; [done|]. unfold in_int, INT_MIN, INT_MAX in *. lia. }
  set (e := match procs st !! i with
            | Some next => Z.min (remainingTime p) (arrivalTime next - currentTime st)
            | None => remainingTime p
            end).
  assert (0 < e ≤ remainingTime p) as He.
  { subst e. destruct (procs st !! i) as [next|]; [|lia].
    specialize (Hnext next eq_refl). lia. }
  rewrite sub_exact by (unfold in_int, INT_MIN, INT_MAX in *; lia).
  rewrite add_exact by (unfold in_int, INT_MIN, INT_MAX in *; lia).
  change (remainingTime (set_remainingTime (first_response (currentTime st) p)
                                           (remainingTime p - e)))
    with (remainingTime p - e).
  destruct (Z.eqb_spec (remainingTime p - e) 0) as [Hz|]; [|done].
  rewrite finalize_exact; [done| |];
    change (arrivalTime (set_remainingTime ?x ?v)) with (arrivalTime x);
    change (burstTime (set_remainingTime ?x ?v)) with (burstTime x);
    rewrite arrivalTime_first_response, ?burstTime_first_response;
    unfold in_int, INT_MIN, INT_MAX in *; lia.
Qed.

Lemma rr_step_exact_when timeQuantum st :
  0 < timeQuantum →
  (∀ i q top p,
     admit_from queue_push (currentTime st) (procs st) (idx st) (pq st) = (i, q) →
     head q = Some top → procs st !! top = Some p →
     0 ≤ arrivalTime p ∧ ready_ok true (currentTime st) p ∧
     currentTime st + remainingTime p ≤ INT_MAX) →
  Int32.rr_step timeQuantum st = rr_step timeQuantum st.
Proof.
  intros Hquantum H. unfold Int32.rr_step, rr_step.
  destruct (admit_from _ _ _ _ _) as [i q] eqn:Hadm.
  destruct q as [|top q]; [done|].
  destruct (procs st !! top) as [p|] eqn:Hp; [|done]. cbn [mbind option_bind].
  destruct (H i (top :: q) top p eq_refl eq_refl Hp) as (Ha & (Hr1 & Hr2 & Hr3 & _) & Hc).
  cbv zeta.
  assert (in_int (currentTime st - arrivalTime p)) as H1
      by (unfold in_int, INT_MIN, INT_MAX in *; lia).
  rewrite first_response_exact by done.
  rewrite !remainingTime_first_response.
  set (e := Z.min timeQuantum (remainingTime p)).
  assert (0 < e ≤ remainingTime p) as He by (subst e; lia).
  rewrite sub_exact by (unfold in_int, INT_MIN, INT_MAX in *; lia).
  rewrite add_exact by (unfold in_int, INT_MIN, INT_MAX in *; lia).
  destruct (admit_from _ _ _ _ _) as [i' q'].
  change (remainingTime (set_remainingTime (first_response (currentTime st) p)
                                           (remainingTime p - e)))
    with (remainingTime p - e).
  destruct (Z.ltb_spec 0 (remainingTime p - e)) as [|Hle]; [done|].
  rewrite finalize_exact; [done| |];
    change (arrivalTime (set_remainingTime ?x ?v)) with (arrivalTime x);
    change (burstTime (set_remainingTime ?x ?v)) with (burstTime x);
    rewrite arrivalTime_first_response, ?burstTime_first_response;
    unfold in_int, INT_MIN, INT_MAX in *; lia.
Qed.

(** ** The bound is kept *)

Lemma admission_stop pol step st i q :
  loop_body pol = Some step → admission pol st = (i, q) →
  ∀ next, procs st !! i = Some next → currentTime st < arrivalTime next.
Proof.
  intros Hbody Hadm.
  assert (∃ push, (∀ q x, push q x ≡ₚ x :: q) ∧
            admit_arrivals push (currentTime st) (drop (idx st) (procs st))
                           (idx st) (pq st) = (i, q)) as (push & Hpush & Ha).
  { unfold admission, admit_from in Hadm. destruct pol; try done;
      eexists; (split; [|exact Hadm]);
      first [apply pq_push_perm|apply queue_push_perm]. }
  apply admit_spec in Ha as (Hi & _ & _ & Hstop); [|done].
  pose proof (scan_ge (currentTime st) (drop (idx st) (procs st)) (idx st)) as Hge.
  rewrite <- Hi in Hge.
  intros next Hn. apply Hstop. rewrite lookup_drop.
  by replace (idx st + (i - idx st))%nat with i by lia.
Qed.

(** A fast-forward sets the clock to an arrival time. *)
Lemma fast_forward_target pol step st st' :
  loop_body pol = Some step → step st = Some st' → dispatched pol st = None →
  procs st' = procs st ∧
  ∃ i next, procs st !! i = Some next ∧ currentTime st' = arrivalTime next.
Proof.
  intros Hbody Hstep Hd. unfold dispatched, admission in Hd.
  destruct pol; simplify_eq/=.
  - unfold np_step in Hstep. destruct (admit_from _ _ _ _ _) as [i q].
    unfold pq_top in Hstep. cbn [snd] in Hd. rewrite Hd in Hstep.
    destruct (procs st !! i) as [next|] eqn:Hn; [|done].
    injection Hstep as <-. eauto.
  - unfold pre_step in Hstep. destruct (admit_from _ _ _ _ _) as [i q].
    unfold pq_top in Hstep. cbn [snd] in Hd. rewrite Hd in Hstep.
    destruct (procs st !! i) as [next|] eqn:Hn; [|done].
    injection Hstep as <-. eauto.
  - unfold rr_step in Hstep. destruct (admit_from _ _ _ _ _) as [i q].
    cbn [snd] in Hd. destruct q as [|front q]; [|done].
    destruct (procs st !! i) as [next|] eqn:Hn; [|done].
    injection Hstep as <-. eauto.
  - unfold np_step in Hstep. destruct (admit_from _ _ _ _ _) as [i q].
    unfold pq_top in Hstep. cbn [snd] in Hd. rewrite Hd in Hstep.
    destruct (procs st !! i) as [next|] eqn:Hn; [|done].
    injection Hstep as <-. eauto.
  - unfold pre_step in Hstep. destruct (admit_from _ _ _ _ _) as [i q].
    unfold pq_top in Hstep. cbn [snd] in Hd. rewrite Hd in Hstep.
    destruct (procs st !! i) as [next|] eqn:Hn; [|done].
    injection Hstep as <-. eauto.
Qed.

(** A dispatch under SJF or Priority runs the process to its end. *)
Lemma np_dispatch_shape pol step st st' k :
  loop_body pol = Some step → preemptive pol = false →
  step st = Some st' → dispatched pol st = Some k →
  ∃ p, procs st !! k = Some p ∧
       currentTime st' = currentTime st + burstTime p ∧
       procs st' = <[k := finalize (currentTime st + burstTime p)
                             (first_response (currentTime st) p)]> (procs st).
Proof.
  intros Hbody Hpre Hstep Hd. unfold dispatched, admission in Hd.
  assert (∃ cmp, step = np_step cmp ∧
            head (admit_from (pq_push (deref_comp cmp (procs st)))
                             (currentTime st) (procs st) (idx st) (pq st)).2 = Some k)
    as (cmp & -> & Hk).
  { destruct pol; simplify_eq/=; eauto. }
  unfold np_step in Hstep. destruct (admit_from _ _ _ _ _) as [i q].
  unfold pq_top in Hstep. cbn [snd] in Hk. rewrite Hk in Hstep.
  destruct (procs st !! k) as [p|] eqn:Hp; [|done].
  cbn [mbind option_bind] in Hstep. injection Hstep as <-.
  exists p. rewrite burstTime_first_response. done.
Qed.

Lemma owed_after_slice now e p :
  owed true (after_slice now e p) = remainingTime p - e.
Proof.
  unfold owed, after_slice.
  by destruct (remainingTime p - e =? 0).
Qed.

Lemma Within_step pol step ps0 done st st' :
  loop_body pol = Some step → valid_policy pol → Forall valid ps0 →
  Inv ps0 done st → Timed (preemptive pol) ps0 done st →
  Within (preemptive pol) ps0 st → step st = Some st' →
  Within (preemptive pol) ps0 st'.
Proof.
  intros Hbody Hpol Hv HI HT [Hc Ho] Hstep.
  pose proof (owed_nonneg _ _ _ _ Hv HI HT) as Hnn.
  destruct (dispatched pol st) as [k|] eqn:Hd.
  - destruct (preemptive pol) eqn:Hpre.
    + pose proof (preemptive_step_shape pol step st st' Hbody Hpre Hpol Hstep) as Hs.
      rewrite Hd in Hs. destruct Hs as (p & e & Hp & Hnow & He & Hprocs).
      rewrite <- Hpre in HT.
      destruct (dispatched_ready pol _ _ _ _ _ HI HT Hv Hd Hp) as (Hpos & _).
      specialize (He Hpos).
      split; rewrite Hprocs, ?Hnow, (sum_field_insert _ _ _ p) by done;
        rewrite owed_after_slice; cbn [owed]; lia.
    + destruct (np_dispatch_shape pol step st st' k Hbody Hpre Hstep Hd)
        as (p & Hp & Hnow & Hprocs).
      rewrite <- Hpre in HT.
      pose proof (dispatched_ready pol _ _ _ _ _ HI HT Hv Hd Hp) as Hready.
      rewrite Hpre in Hready. destruct Hready as (Hpos & _ & Harr & Hresp & Hrem).
      destruct (Inv_given _ _ _ _ _ Hv HI Hp) as (Ha & _ & Hb).
      assert (owed false p = burstTime p) as Hop.
      { unfold owed. by rewrite Hresp. }
      assert (owed false (finalize (currentTime st + burstTime p)
                                   (first_response (currentTime st) p)) = 0) as Hop'.
      { unfold owed, finalize, first_response. rewrite Hresp. cbn.
        destruct (Z.eqb_spec (currentTime st - arrivalTime p) (-1)); [lia|done]. }
      split; rewrite Hprocs, ?Hnow, (sum_field_insert _ _ _ p) by done;
        rewrite Hop, Hop'; lia.
  - destruct (fast_forward_target pol step st st' Hbody Hstep Hd)
      as (Hprocs & i & next & Hn & Hnow).
    destruct (Inv_given _ _ _ _ _ Hv HI Hn) as (_ & Hmax & _).
    split; rewrite Hprocs, ?Hnow; lia.
Qed.

(** ** The two walks agree *)

Lemma total_burst_nonneg ps : Forall valid ps → 0 ≤ total_burst ps.
Proof. induction 1 as [|p ps (_ & _ & Hb) _ IH]; simpl; lia. Qed.

Lemma dispatch_ranges pol step ps0 done st i q top p :
  loop_body pol = Some step → Forall valid ps0 → fits ps0 →
  Inv ps0 done st → Timed (preemptive pol) ps0 done st →
  Within (preemptive pol) ps0 st →
  admission pol st = (i, q) → head q = Some top → procs st !! top = Some p →
  0 ≤ arrivalTime p ∧ 0 < burstTime p ∧
  ready_ok (preemptive pol) (currentTime st) p ∧
  currentTime st + owed (preemptive pol) p ≤ INT_MAX ∧
  ∀ next, procs st !! i = Some next → currentTime st < arrivalTime next ≤ INT_MAX.
Proof.
  intros Hbody Hv Hfits HI HT [Hc Ho] Hadm Hq Hp.
  assert (dispatched pol st = Some top) as Hd.
  { unfold dispatched. by rewrite Hadm. }
  destruct (Inv_given _ _ _ _ _ Hv HI Hp) as (Ha & _ & Hb).
  pose proof (dispatched_ready pol _ _ _ _ _ HI HT Hv Hd Hp) as Hready.
  pose proof (owed_nonneg _ _ _ _ Hv HI HT) as Hnn.
  pose proof (sum_field_lookup_le _ _ _ _ Hnn Hp) as Hle.
  unfold fits in Hfits.
  split_and!; [done|done|done|lia|].
  intros next Hn.
  pose proof (admission_stop pol step st i q Hbody Hadm next Hn).
  destruct (Inv_given _ _ _ _ _ Hv HI Hn) as (_ & Hmax & _).
  pose proof (total_burst_nonneg ps0 Hv). lia.
Qed.

Lemma step_exact pol step step32 ps0 done st :
  loop_body pol = Some step → Int32.loop_body pol = Some step32 →
  valid_policy pol → Forall valid ps0 → fits ps0 →
  Inv ps0 done st → Timed (preemptive pol) ps0 done st →
  Within (preemptive pol) ps0 st →
  step32 st = step st.
Proof.
  intros Hbody Hbody32 Hpol Hv Hfits HI HT HW.
  pose proof (dispatch_ranges pol step ps0 done st) as Hr.
  destruct pol; simplify_eq/=.
  - apply np_step_exact_when. intros i q top p Hadm Hq Hp.
    destruct (Hr i q top p eq_refl Hv Hfits HI HT HW Hadm Hq Hp)
      as (Ha & Hb & (_ & _ & Harr & Hresp & Hrem) & Hmax & _).
    unfold owed in Hmax. rewrite Hresp in Hmax. cbn in Hmax. lia.
  - apply pre_step_exact_when. intros i q top p Hadm Hq Hp.
    destruct (Hr i q top p eq_refl Hv Hfits HI HT HW Hadm Hq Hp)
      as (Ha & Hb & Hready & Hmax & Hnext). by split_and!.
  - apply rr_step_exact_when; [done|]. intros i q top p Hadm Hq Hp.
    destruct (Hr i q top p eq_refl Hv Hfits HI HT HW Hadm Hq Hp)
      as (Ha & Hb & Hready & Hmax & Hnext). by split_and!.
  - apply np_step_exact_when. intros i q top p Hadm Hq Hp.
    destruct (Hr i q top p eq_refl Hv Hfits HI HT HW Hadm Hq Hp)
      as (Ha & Hb & (_ & _ & Harr & Hresp & Hrem) & Hmax & _).
    unfold owed in Hmax. rewrite Hresp in Hmax. cbn in Hmax. lia.
  - apply pre_step_exact_when. intros i q top p Hadm Hq Hp.
    destruct (Hr i q top p eq_refl Hv Hfits HI HT HW Hadm Hq Hp)
      as (Ha & Hb & Hready & Hmax & Hnext). by split_and!.
Qed.

(** The states on which the exact walk is the [int] walk. *)
Lemma run_exact pol step step32 ps0 fuel :
  loop_body pol = Some step → Int32.loop_body pol = Some step32 →
  valid_policy pol → Forall valid ps0 → fits ps0 →
  ∀ st done, Inv ps0 done st → Timed (preemptive pol) ps0 done st →
             Within (preemptive pol) ps0 st →
             run step32 fuel st = run step fuel st.
Proof.
  intros Hbody Hbody32 Hpol Hv Hfits.
  induction fuel as [|fuel IH]; intros st dn HI HT HW; cbn [run]; [done|].
  destruct (Nat.ltb_spec (completed st) (length (procs st))) as [Hlt|]; [|done].
  rewrite (step_exact pol step step32 ps0 dn st) by done.
  destruct (loop_body_timed pol step _ _ _ Hbody Hpol Hv HI HT Hlt)
    as (st' & done' & Hstep & HI' & HT').
  rewrite Hstep. apply (IH st' done'); [done|done|].
  by apply (Within_step pol step ps0 dn st st').
Qed.

Lemma gantt_exact pol step step32 ps0 fuel :
  loop_body pol = Some step → Int32.loop_body pol = Some step32 →
  valid_policy pol → Forall valid ps0 → fits ps0 →
  ∀ st done, Inv ps0 done st → Timed (preemptive pol) ps0 done st →
             Within (preemptive pol) ps0 st →
             gantt pol step32 fuel st = gantt pol step fuel st.
Proof.
  intros Hbody Hbody32 Hpol Hv Hfits.
  induction fuel as [|fuel IH]; intros st dn HI HT HW; cbn [gantt]; [done|].
  destruct (Nat.ltb_spec (completed st) (length (procs st))) as [Hlt|]; [|done].
  rewrite (step_exact pol step step32 ps0 dn st) by done.
  destruct (loop_body_timed pol step _ _ _ Hbody Hpol Hv HI HT Hlt)
    as (st' & done' & Hstep & HI' & HT').
  rewrite Hstep. f_equal. apply (IH st' done'); [done|done|].
  by apply (Within_step pol step ps0 dn st st').
Qed.

Lemma reachable_exact pol step step32 ps0 st :
  loop_body pol = Some step → Int32.loop_body pol = Some step32 →
  valid_policy pol → Forall valid ps0 → fits ps0 →
  reachable step32 (start ps0) st →
  reachable step (start ps0) st ∧
  ∃ done, Inv ps0 done st ∧ Timed (preemptive pol) ps0 done st ∧
          Within (preemptive pol) ps0 st.
Proof.
  intros Hbody Hbody32 Hpol Hv Hfits Hreach.
  induction Hreach as [|st st' _ (Hr & dn & HI & HT & HW) Hlt Hstep].
  - split; [apply reach_start|]. exists [].
    split_and!; [apply Inv_start|by apply Timed_start|by apply Within_start].
  - rewrite (step_exact pol step step32 ps0 dn st) in Hstep by done.
    destruct (loop_body_timed pol step _ _ _ Hbody Hpol Hv HI HT Hlt)
      as (st'' & done' & Hstep' & HI' & HT').
    assert (st'' = st') as -> by congruence.
    split; [by eapply reach_step|]. exists done'.
    split_and!; [done|done|]. by apply (Within_step pol step ps0 dn st st').
Qed.

(** ** FCFS *)

Lemma FCFS_visit_exact L t p :
  0 ≤ t → valid p → L ≤ INT_MAX →
  t + burstTime p ≤ L → arrivalTime p + burstTime p ≤ L →
  Int32.FCFS_visit t p = FCFS_visit t p ∧
  0 ≤ (FCFS_visit t p).1 ≤ L ∧
  (FCFS_visit t p).1 = Z.max t (arrivalTime p) + burstTime p.
Proof.
  intros Ht (_ & Ha & Hb) HL H1 H2.
  unfold Int32.FCFS_visit, FCFS_visit. cbv zeta.
  set (t' := if t <? arrivalTime p then arrivalTime p else t).
  assert (t' = Z.max t (arrivalTime p)) as Ht'.
  { subst t'. destruct (Z.ltb_spec t (arrivalTime p)); lia. }
  rewrite sub_exact by (unfold in_int, INT_MIN, INT_MAX in *; lia).
  change (burstTime (set_responseTime p ?v)) with (burstTime p).
  rewrite add_exact by (unfold in_int, INT_MIN, INT_MAX in *; lia).
  rewrite finalize_exact;
    [|change (arrivalTime (set_responseTime p ?v)) with (arrivalTime p);
      change (burstTime (set_responseTime p ?v)) with (burstTime p);
      unfold in_int, INT_MIN, INT_MAX in *; lia..].
  split; [done|]. cbn [fst]. unfold finalize. cbn. lia.
Qed.

Lemma FCFS_loop_exact L (rest : list Process) :
  ∀ t, 0 ≤ t → Forall valid rest → L ≤ INT_MAX →
       t + total_burst rest ≤ L →
       Forall (fun p => arrivalTime p + total_burst rest ≤ L) rest →
       Int32.FCFS_loop t rest = FCFS_loop t rest ∧
       Forall (fun p => completionTime p ≤ L) (FCFS_loop t rest).
Proof.
  induction rest as [|p rest IH]; intros t Ht Hv HL Hsum Hall; [done|].
  apply Forall_cons in Hv as [Hp Hv]. apply Forall_cons in Hall as [Hpa Hall].
  change (total_burst (p :: rest)) with (burstTime p + total_burst rest) in *.
  pose proof (total_burst_nonneg rest Hv) as Hnn.
  destruct (FCFS_visit_exact L t p Ht Hp HL ltac:(lia) ltac:(lia))
    as (Hvisit & Hrange & Hnow).
  cbn [Int32.FCFS_loop FCFS_loop]. rewrite Hvisit.
  destruct (FCFS_visit t p) as [now p'] eqn:Hvp. cbn [fst] in Hrange, Hnow.
  destruct (IH now) as [Hloop Hle]; [lia|done|done|lia| |].
  { eapply Forall_impl; [exact Hall|]. simpl. intros q Hq.
    destruct Hp as (_ & _ & Hb). lia. }
  rewrite Hloop. split; [done|]. constructor; [|done].
  assert (completionTime p' = now) as ->; [|lia].
  unfold FCFS_visit in Hvp. by injection Hvp as <- <-.
Qed.

(** ** Runs to the end, with further invariants *)

Lemma loop_total_with pol step (ps : list Process) (Extra : Walk → Prop) :
  loop_body pol = Some step → valid_policy pol → Forall valid ps →
  Extra (start (arranged pol ps)) →
  (∀ done st st',
     Inv (arranged pol ps) done st →
     Timed (preemptive pol) (arranged pol ps) done st → Extra st →
     (completed st < length (procs st))%nat → step st = Some st' → Extra st') →
  ∃ st done,
    (∀ fuel, (steps_bound pol ps ≤ fuel)%nat →
             run step fuel (start (arranged pol ps)) = Done st) ∧
    Inv (arranged pol ps) done st ∧
    Timed (preemptive pol) (arranged pol ps) done st ∧
    done ≡ₚ seq 0 (length (arranged pol ps)) ∧
    Extra st.
Proof.
  intros Hbody Hpol Hv Hstart Hkeep.
  assert (Forall valid (arranged pol ps)) as Hv'.
  { destruct pol; simpl; try done; by rewrite std_sort_perm. }
  set (Good := fun (done : list nat) (st : Walk) =>
                 Timed (preemptive pol) (arranged pol ps) done st ∧ Extra st).
  assert (∃ measure,
    (measure (start (arranged pol ps)) ≤ steps_bound pol ps)%nat ∧
    ∀ done st,
      Inv (arranged pol ps) done st → (completed st < length (procs st))%nat →
      ∃ st' done', step st = Some st' ∧ Inv (arranged pol ps) done' st' ∧
        (Good done st → Good done' st' ∧ (measure st' < measure st)%nat))
    as (measure & Hm & Hstep).
  { assert (∀ dn st st' dn' (measure : Walk → nat),
              Inv (arranged pol ps) dn st →
              (completed st < length (procs st))%nat → step st = Some st' →
              (Timed (preemptive pol) (arranged pol ps) dn st →
               Timed (preemptive pol) (arranged pol ps) dn' st' ∧
               (measure st' < measure st)%nat) →
              Good dn st → Good dn' st' ∧ (measure st' < measure st)%nat) as Hgood.
    { intros dn st st' dn' measure HI Hlt Hst HT [HT0 HE].
      destruct (HT HT0) as [HT1 Hlt']. split; [|done]. split; [done|].
      by apply (Hkeep dn st st'). }
    destruct pol; simplify_eq/=.
    - exists heap_measure. split.
      { pose proof (heap_measure_start (std_sort ps)). rewrite std_sort_length in *. lia. }
      intros dn st HI Hlt.
      destruct (np_step_ok SJF_cmp _ _ _ HI Hlt) as (st' & d' & Hst & HI' & Hms & HT).
      exists st', d'. split_and!; [done..|]. eapply Hgood; [done..|].
      intros HT0. split; [by apply HT|done].
    - exists heap_measure. split.
      { pose proof (heap_measure_start (std_sort ps)). rewrite std_sort_length in *. lia. }
      intros dn st HI Hlt.
      destruct (pre_step_ok SRTF_cmp _ _ _ HI Hlt) as (st' & d' & Hst & HI' & HT).
      exists st', d'. split_and!; [done..|]. eapply Hgood; [done..|]. by apply HT.
    - exists rr_measure. split; [by apply rr_measure_start|].
      intros dn st HI Hlt.
      destruct (rr_step_ok timeQuantum _ _ _ HI Hlt) as (st' & d' & Hst & HI' & HT).
      exists st', d'. split_and!; [done..|]. eapply Hgood; [done..|]. by apply HT.
    - exists heap_measure. split.
      { pose proof (heap_measure_start (std_sort ps)). rewrite std_sort_length in *. lia. }
      intros dn st HI Hlt.
      destruct (np_step_ok Priority_cmp _ _ _ HI Hlt)
        as (st' & d' & Hst & HI' & Hms & HT).
      exists st', d'. split_and!; [done..|]. eapply Hgood; [done..|].
      intros HT0. split; [by apply HT|done].
    - exists heap_measure. split.
      { pose proof (heap_measure_start (std_sort ps)). rewrite std_sort_length in *. lia. }
      intros dn st HI Hlt.
      destruct (pre_step_ok PreemptivePriority_cmp _ _ _ HI Hlt)
        as (st' & d' & Hst & HI' & HT).
      exists st', d'. split_and!; [done..|]. eapply Hgood; [done..|]. by apply HT. }
  destruct (run_total step (arranged pol ps) Good measure Hstep
              (steps_bound pol ps) (start (arranged pol ps)) [])
    as (st & dn & Hrun & HI & [HT HE] & Hd).
  - apply Inv_start.
  - split; [by apply Timed_start|done].
  - done.
  - exists st, dn. split_and!; [|done..].
    intros fuel Hfuel. by eapply run_mono.
Qed.

Lemma Behind_step pol step ps0 done st st' :
  loop_body pol = Some step → valid_policy pol → Forall valid ps0 →
  Inv ps0 done st → Timed (preemptive pol) ps0 done st →
  Behind st → step st = Some st' → Behind st'.
Proof.
  intros Hbody Hpol Hv HI HT HB Hstep. unfold Behind in *.
  pose proof (clock_advances pol step _ _ _ _ Hbody Hpol Hv HI HT Hstep) as Hadv.
  assert (Forall (fun p => completionTime p ≤ currentTime st') (procs st)) as HB'.
  { eapply Forall_impl; [exact HB|]. simpl. intros. lia. }
  destruct (dispatched pol st) as [k|] eqn:Hd.
  - destruct (preemptive pol) eqn:Hpre.
    + pose proof (preemptive_step_shape pol step st st' Hbody Hpre Hpol Hstep) as Hs.
      rewrite Hd in Hs. destruct Hs as (p & e & Hp & Hnow & He & Hprocs).
      rewrite Hprocs. apply Forall_insert; [done|].
      pose proof (Forall_lookup_1 _ _ _ _ HB' Hp) as Hc. simpl in Hc.
      unfold after_slice. destruct (remainingTime p - e =? 0).
      * unfold finalize. cbn. lia.
      * unfold set_remainingTime, first_response.
        destruct (responseTime p =? -1); cbn; lia.
    + destruct (np_dispatch_shape pol step st st' k Hbody Hpre Hstep Hd)
        as (p & Hp & Hnow & Hprocs).
      rewrite Hprocs. apply Forall_insert; [done|].
      unfold finalize. cbn. lia.
  - destruct (fast_forward_target pol step st st' Hbody Hstep Hd) as (-> & _).
    done.
Qed.

(** ** [schedule] *)

Lemma max_arrival_perm (l l' : list Process) :
  l ≡ₚ l' → max_arrival l = max_arrival l'.
Proof. induction 1; simpl; lia. Qed.

Lemma total_burst_perm (l l' : list Process) :
  l ≡ₚ l' → total_burst l = total_burst l'.
Proof. intros H. apply total_burst_static. by rewrite H. Qed.

Lemma arranged_perm pol (ps : list Process) : arranged pol ps ≡ₚ ps.
Proof. destruct pol; simpl; try done; apply std_sort_perm. Qed.

Lemma fits_arranged pol ps : fits ps → fits (arranged pol ps).
Proof.
  unfold fits.
  by rewrite (max_arrival_perm _ _ (arranged_perm pol ps)),
             (total_burst_perm _ _ (arranged_perm pol ps)).
Qed.

Lemma valid_arranged pol ps : Forall valid ps → Forall valid (arranged pol ps).
Proof. intros Hv. by rewrite arranged_perm. Qed.

Lemma int32_loop_body pol step :
  loop_body pol = Some step → ∃ step32, Int32.loop_body pol = Some step32.
Proof. destruct pol; simpl; intros; by eauto. Qed.

Lemma int32_schedule_loop pol step32 fuel ps :
  Int32.loop_body pol = Some step32 →
  Int32.schedule pol fuel ps
  = Int32.finish (run step32 fuel (start (arranged pol ps))).
Proof. intros Hbody. by destruct pol; simplify_eq/=. Qed.

(** The records of a run do not depend on the arithmetic when the times
    fit. *)
Lemma int32_records_exact pol fuel ps :
  valid_policy pol → Forall valid ps → fits ps →
  Int32.schedule pol fuel ps
  = match schedule pol fuel ps with
    | Done s => Done (Int32.calculateMetrics (processes s))
    | Fault => Fault
    | OutOfFuel => OutOfFuel
    end.
Proof.
  intros Hpol Hv Hfits.
  pose proof (valid_arranged pol ps Hv) as Hv'.
  pose proof (fits_arranged pol ps Hfits) as Hfits'.
  destruct (loop_body pol) as [step|] eqn:Hbody.
  - destruct (int32_loop_body pol step Hbody) as [step32 Hbody32].
    rewrite (int32_schedule_loop _ _ _ _ Hbody32), (schedule_loop _ _ _ _ Hbody).
    rewrite (run_exact pol step step32 (arranged pol ps) fuel Hbody Hbody32 Hpol
               Hv' Hfits' (start (arranged pol ps)) []);
      [|apply Inv_start|by apply Timed_start|by apply Within_start].
    destruct (run step fuel _); cbn [finish Int32.finish]; [|done..].
    by rewrite calculateMetrics_processes.
  - destruct pol; simplify_eq/=. unfold FCFS_schedule.
    rewrite calculateMetrics_processes.
    destruct (FCFS_loop_exact (max_arrival (std_sort ps) + total_burst (std_sort ps))
                (std_sort ps) 0) as [-> _]; [done|done|exact Hfits'| | |done].
    + pose proof (max_arrival_nonneg (std_sort ps)). lia.
    + apply Forall_forall. intros p Hp.
      pose proof (max_arrival_ge _ _ Hp). lia.
Qed.

(** ** [calculateMetrics] in [int] arithmetic *)

Lemma int32_processes ps : processes (Int32.calculateMetrics ps) = ps.
Proof.
  unfold Int32.calculateMetrics.
  by destruct (Int32.metrics_totals ps) as [[[w t] r] m].
Qed.

(** [std::max] does no arithmetic: the largest completion time is exact. *)
Lemma int32_totals_max ps : (Int32.metrics_totals ps).2 = max_completion ps.
Proof.
  unfold Int32.metrics_totals.
  assert (∀ acc, 0 ≤ acc.2 → (fold_left
      (fun '(w, t, r, m) p =>
         (Int32.add w (waitingTime p), Int32.add t (turnaroundTime p),
          Int32.add r (responseTime p),
          Z.max m (completionTime p))) ps acc).2 = Z.max acc.2 (max_completion ps)) as H.
  { induction ps as [|p ps IH]; intros [[[w t] r] m] Hm.
    - cbn [fold_left snd] in *. change (max_completion []) with 0. lia.
    - cbn [fold_left]. rewrite IH by (cbn [snd] in *; lia).
      cbn [snd]. rewrite max_completion_cons. lia. }
  rewrite H by (cbn [snd]; lia). cbn [snd].
  pose proof (max_completion_nonneg ps). lia.
Qed.

Lemma int32_throughput ps :
  throughput (Int32.calculateMetrics ps) =
  ddiv (Z.of_nat (length ps)) (max_completion ps).
Proof.
  rewrite <- int32_totals_max. unfold Int32.calculateMetrics.
  by destruct (Int32.metrics_totals ps) as [[[w t] r] m].
Qed.

(** The sums are exact when no time is negative and each sum is an [int]. *)
Lemma int32_totals_exact ps :
  Forall (fun p => 0 ≤ waitingTime p ∧ 0 ≤ turnaroundTime p ∧ 0 ≤ responseTime p) ps →
  sum_field waitingTime ps ≤ INT_MAX →
  sum_field turnaroundTime ps ≤ INT_MAX →
  sum_field responseTime ps ≤ INT_MAX →
  Int32.metrics_totals ps = metrics_totals ps.
Proof.
  unfold Int32.metrics_totals, metrics_totals.
  assert (∀ w t r m,
    Forall (fun p => 0 ≤ waitingTime p ∧ 0 ≤ turnaroundTime p ∧ 0 ≤ responseTime p) ps →
    0 ≤ w → 0 ≤ t → 0 ≤ r →
    w + sum_field waitingTime ps ≤ INT_MAX →
    t + sum_field turnaroundTime ps ≤ INT_MAX →
    r + sum_field responseTime ps ≤ INT_MAX →
    fold_left
      (fun '(w, t, r, m) p =>
         (Int32.add w (waitingTime p), Int32.add t (turnaroundTime p),
          Int32.add r (responseTime p), Z.max m (completionTime p))) ps (w, t, r, m)
    = fold_left
        (fun '(w, t, r, m) p =>
           (w + waitingTime p, t + turnaroundTime p, r + responseTime p,
            Z.max m (completionTime p))) ps (w, t, r, m)) as H.
  { induction ps as [|p ps IH]; intros w t r m Hall Hw Ht Hr Hsw Hst Hsr; [done|].
    apply Forall_cons in Hall as [(Hpw & Hpt & Hpr) Hall].
    rewrite !sum_field_cons in *.
    pose proof (sum_field_nonneg waitingTime ps) as Hnw.
    pose proof (sum_field_nonneg turnaroundTime ps) as Hnt.
    pose proof (sum_field_nonneg responseTime ps) as Hnr.
    specialize (Hnw ltac:(eapply Forall_impl; [exact Hall|]; simpl; tauto)).
    specialize (Hnt ltac:(eapply Forall_impl; [exact Hall|]; simpl; tauto)).
    specialize (Hnr ltac:(eapply Forall_impl; [exact Hall|]; simpl; tauto)).
    cbn [fold_left].
    rewrite !add_exact by (unfold in_int, INT_MIN, INT_MAX in *; lia).
    apply IH; [done|lia..]. }
  intros Hall Hw Ht Hr. apply H; [done|lia..].
Qed.

Lemma int32_metrics_exact ps :
  Forall (fun p => 0 ≤ waitingTime p ∧ 0 ≤ turnaroundTime p ∧ 0 ≤ responseTime p) ps →
  sum_field waitingTime ps ≤ INT_MAX →
  sum_field turnaroundTime ps ≤ INT_MAX →
  sum_field responseTime ps ≤ INT_MAX →
  Int32.calculateMetrics ps = calculateMetrics ps.
Proof.
  intros Hall Hw Ht Hr. unfold Int32.calculateMetrics, calculateMetrics.
  by rewrite int32_totals_exact.
Qed.

(** ** No completion time is beyond the bound *)

Lemma schedule_within pol (ps : list Process) :
  valid_policy pol → Forall valid ps →
  ∃ s, (∀ fuel, (steps_bound pol ps ≤ fuel)%nat → schedule pol fuel ps = Done s) ∧
       Forall (fun p => completionTime p ≤ max_arrival ps + total_burst ps)
              (processes s).
Proof.
  intros Hpol Hv.
  pose proof (valid_arranged pol ps Hv) as Hv'.
  pose proof (max_arrival_perm _ _ (arranged_perm pol ps)) as Hma.
  pose proof (total_burst_perm _ _ (arranged_perm pol ps)) as Htb.
  destruct (loop_body pol) as [step|] eqn:Hbody.
  - destruct (loop_total_with pol step ps
                (fun st => Within (preemptive pol) (arranged pol ps) st ∧ Behind st)
                Hbody Hpol Hv)
      as (st & dn & Hrun & HI & HT & _ & [Hc Ho] & HB).
    + split; [by apply Within_start|].
      unfold Behind. cbn [start procs currentTime].
      eapply Forall_impl; [exact Hv'|]. intros p (Hcons & _). by rewrite Hcons.
    + intros dn st st' HI HT [HW HB] Hlt Hstep. split.
      * by apply (Within_step pol step (arranged pol ps) dn st st').
      * by apply (Behind_step pol step (arranged pol ps) dn st st').
    + exists (calculateMetrics (procs st)). split.
      * intros fuel Hfuel. by rewrite (schedule_loop _ _ _ _ Hbody), Hrun.
      * rewrite calculateMetrics_processes.
        pose proof (owed_nonneg _ _ _ _ Hv' HI HT) as Hnn.
        pose proof (sum_field_nonneg _ _ Hnn).
        eapply Forall_impl; [exact HB|]. simpl. intros p Hp. lia.
  - destruct pol; simplify_eq/=. unfold FCFS_schedule.
    exists (calculateMetrics (FCFS_loop 0 (std_sort ps))). split; [done|].
    rewrite calculateMetrics_processes, <- Hma, <- Htb.
    assert (∀ L (rest : list Process) t,
              0 ≤ t → Forall valid rest → t + total_burst rest ≤ L →
              Forall (fun p => arrivalTime p + total_burst rest ≤ L) rest →
              Forall (fun p => completionTime p ≤ L) (FCFS_loop t rest)) as H.
    { intros L rest. induction rest as [|p rest IH]; intros t Ht Hvr Hsum Hall;
        [constructor|].
      apply Forall_cons in Hvr as [(_ & Ha & Hb) Hvr].
      apply Forall_cons in Hall as [Hpa Hall].
      change (total_burst (p :: rest)) with (burstTime p + total_burst rest) in *.
      pose proof (total_burst_nonneg rest Hvr) as Hnn.
      cbn [FCFS_loop]. unfold FCFS_visit. cbv zeta.
      set (t' := if t <? arrivalTime p then arrivalTime p else t).
      assert (t' = Z.max t (arrivalTime p)) as Ht'.
      { subst t'. destruct (Z.ltb_spec t (arrivalTime p)); lia. }
      constructor.
      - unfold finalize. cbn. lia.
      - apply IH; [unfold finalize; cbn; lia|done|unfold finalize; cbn; lia|].
        eapply Forall_impl; [exact Hall|]. simpl. intros. lia. }
    apply H; [done|done| |].
    + pose proof (max_arrival_nonneg (std_sort ps)). lia.
    + apply Forall_forall. intros p Hp.
      pose proof (max_arrival_ge _ _ Hp). lia.
Qed.

(** For valid input whose times fit, the run in [int] arithmetic returns,
    and returns this. *)
Lemma int32_schedule_total pol (ps : list Process) :
  valid_policy pol → Forall valid ps → fits ps →
  ∃ s, (∀ fuel, (steps_bound pol ps ≤ fuel)%nat →
                Int32.schedule pol fuel ps = Done s) ∧
       (∀ fuel, (steps_bound pol ps ≤ fuel)%nat →
                schedule pol fuel ps = Done (calculateMetrics (processes s))) ∧
       throughput s = ddiv (Z.of_nat (length ps)) (max_completion (processes s)) ∧
       static <$> processes s = static <$> arranged pol ps ∧
       Forall finalized (processes s) ∧
       Forall (done_ok (preemptive pol)) (processes s) ∧
       Forall (fun p => completionTime p ≤ max_arrival ps + total_burst ps)
              (processes s) ∧
       (ps ≠ [] → ∃ p, p ∈ processes s ∧ Z.of_nat (length ps) ≤ completionTime p).
Proof.
  intros Hpol Hv Hfits.
  destruct (schedule_total pol ps Hpol Hv)
    as (s & Hrun & Hthr & Hst & Hfin & Hok & Hmax).
  destruct (schedule_within pol ps Hpol Hv) as (s' & Hrun' & Hbound).
  assert (s' = s) as ->.
  { pose proof (Hrun (steps_bound pol ps) ltac:(lia)) as H1.
    pose proof (Hrun' (steps_bound pol ps) ltac:(lia)) as H2. congruence. }
  assert (length (processes s) = length ps) as Hlen.
  { rewrite <- (length_fmap static), Hst, length_fmap.
    by rewrite (Permutation_length (arranged_perm pol ps)). }
  exists (Int32.calculateMetrics (processes s)).
  rewrite int32_processes, int32_throughput, Hlen.
  split_and!; [| |done..].
  - intros fuel Hfuel. by rewrite int32_records_exact, Hrun.
  - intros fuel Hfuel. rewrite Hrun by done. f_equal.
    by apply (schedule_calculated pol fuel ps), Hrun.
Qed.
(** * The walk in [int] arithmetic, on every valid input

    Where the times do not fit the clock wraps around, and the walk goes
    on: the queues, the counters and the remaining times do not depend on
    it. *)

Lemma wrap_idem z : wrap (wrap z) = wrap z.
Proof. apply wrap_exact, wrap_in_int. Qed.

Lemma wrap_add_l a b : wrap (wrap a + b) = wrap (a + b).
Proof.
  unfold wrap. f_equal.
  replace ((a + 2147483648) mod 4294967296 - 2147483648 + b + 2147483648)
    with ((a + 2147483648) mod 4294967296 + b) by lia.
  rewrite Zplus_mod_idemp_l. f_equal. lia.
Qed.

Lemma wrap_add_r a b : wrap (a + wrap b) = wrap (a + b).
Proof. by rewrite (Z.add_comm a), wrap_add_l, (Z.add_comm b). Qed.

Lemma static_first_response32 now p : static (Int32.first_response now p) = static p.
Proof. unfold Int32.first_response. by destruct (responseTime p =? -1). Qed.

Lemma remainingTime_first_response32 now p :
  remainingTime (Int32.first_response now p) = remainingTime p.
Proof. unfold Int32.first_response. by destruct (responseTime p =? -1). Qed.

Lemma burstTime_first_response32 now p :
  burstTime (Int32.first_response now p) = burstTime p.
Proof. unfold Int32.first_response. by destruct (responseTime p =? -1). Qed.

Lemma finalized32_finalize c p : finalized32 (Int32.finalize c p).
Proof. done. Qed.

Lemma valid_ready32 pre p : valid p → ready32 pre p.
Proof.
  intros (Hc & Ha & Hb). unfold constructed in Hc.
  unfold ready32. rewrite Hc. simpl. lia.
Qed.

(** A dispatch under a non-preemptive policy. *)
Lemma np_done32 now p :
  ready32 false p → in_int now → in_int (arrivalTime p) →
  done32 false (Int32.finalize (Int32.add now (burstTime p))
                               (Int32.first_response now p)).
Proof.
  intros (Hr1 & Hr2 & Hr3) Hnow Harr. destruct (Hr3 eq_refl) as [Hresp Hrem].
  unfold Int32.first_response. rewrite Hresp. cbn.
  split; [done|]. cbn. split; [done|].
  unfold Int32.add, Int32.sub.
  rewrite wrap_add_r, wrap_add_l. f_equal. lia.
Qed.

Section Invariant32.
Context (pre : bool) (ps0 : list Process).
Hypothesis Hvalid : Forall valid ps0.

Lemma Inv32_start : Inv32 pre ps0 [] (start ps0).
Proof.
  split; simpl; [done|lia|done|done|done| | |].
  - intros k p Hk. by apply elem_of_nil in Hk.
  - intros k p Hk. by apply elem_of_nil in Hk.
  - unfold in_int, INT_MIN, INT_MAX. lia.
Qed.

Lemma Inv32_length dn st : Inv32 pre ps0 dn st → length (procs st) = length ps0.
Proof. intros HI. apply static_length, (i32_static _ _ _ _ HI). Qed.

Lemma Inv32_NoDup dn st : Inv32 pre ps0 dn st → NoDup (pq st ++ dn).
Proof. intros HI. rewrite (i32_perm _ _ _ _ HI). apply NoDup_seq. Qed.

Lemma Inv32_elem dn st k :
  Inv32 pre ps0 dn st → k ∈ pq st ++ dn → (k < idx st)%nat.
Proof.
  intros HI Hk. rewrite (i32_perm _ _ _ _ HI) in Hk.
  apply elem_of_seq in Hk. lia.
Qed.

Lemma Inv32_lookup dn st k :
  Inv32 pre ps0 dn st → k ∈ pq st ++ dn → is_Some (procs st !! k).
Proof.
  intros HI Hk. apply lookup_lt_is_Some.
  rewrite (Inv32_length _ _ HI). pose proof (Inv32_elem _ _ _ HI Hk).
  pose proof (i32_idx _ _ _ _ HI). lia.
Qed.

Lemma Inv32_clock dn st now :
  Inv32 pre ps0 dn st → in_int now →
  Inv32 pre ps0 dn (mkWalk (procs st) now (completed st) (idx st) (pq st)).
Proof. intros [] Hnow. by split. Qed.

Lemma Inv32_admit dn st i q :
  Inv32 pre ps0 dn st → (idx st ≤ i ≤ length ps0)%nat →
  q ≡ₚ pq st ++ seq (idx st) (i - idx st) →
  Inv32 pre ps0 dn (mkWalk (procs st) (currentTime st) (completed st) i q).
Proof.
  intros [Hs Hi Hp Hc Hf Hr Hd Hn] Hle Hq.
  split; simpl; [done|lia| |done| | |done|done].
  - rewrite Hq. rewrite <- app_assoc, (Permutation_app_comm (seq _ _)), app_assoc, Hp.
    replace i with (idx st + (i - idx st))%nat at 2 by lia.
    by rewrite seq_app.
  - intros k Hk. apply Hf. lia.
  - intros k p Hk Hpk. rewrite Hq in Hk. apply elem_of_app in Hk as [Hk|Hk].
    + by apply (Hr k).
    + apply elem_of_seq in Hk. rewrite Hf in Hpk by lia.
      apply valid_ready32. by apply (Forall_lookup_1 _ _ _ _ Hvalid Hpk).
Qed.

Lemma Inv32_requeue dn st top p p' now q :
  Inv32 pre ps0 dn st → top ∈ pq st → procs st !! top = Some p →
  static p' = static p → ready32 pre p' → q ≡ₚ pq st → in_int now →
  Inv32 pre ps0 dn (mkWalk (<[top := p']> (procs st)) now (completed st) (idx st) q).
Proof.
  intros HI Htop Hp Hst Hrdy Hq Hnow. pose proof (Inv32_NoDup _ _ HI) as Hnd.
  assert (top < idx st)%nat as Hlt.
  { apply (Inv32_elem _ _ _ HI), elem_of_app. by left. }
  destruct HI as [Hs Hi Hperm Hc Hf Hr Hd Hn].
  split; simpl; [by eapply static_insert|done|by rewrite Hq|done| | | |done].
  - intros k Hk. rewrite list_lookup_insert_ne by lia. by apply Hf.
  - intros k pk Hk Hpk. rewrite Hq in Hk.
    destruct (decide (k = top)) as [->|Hne].
    + rewrite list_lookup_insert_eq in Hpk by (by eapply lookup_lt_Some).
      by simplify_eq.
    + rewrite list_lookup_insert_ne in Hpk by done. by apply (Hr k).
  - intros k pk Hk Hpk. apply NoDup_app in Hnd as (_ & Hdisj & _).
    rewrite list_lookup_insert_ne in Hpk; [by eapply Hd|].
    intros ->. by eapply Hdisj.
Qed.

Lemma Inv32_complete dn st top p p' now q :
  Inv32 pre ps0 dn st → pq st ≡ₚ top :: q → procs st !! top = Some p →
  static p' = static p → done32 pre p' → in_int now →
  Inv32 pre ps0 (top :: dn)
        (mkWalk (<[top := p']> (procs st)) now (S (completed st)) (idx st) q).
Proof.
  intros HI Hq Hp Hst Hfin Hnow. pose proof (Inv32_NoDup _ _ HI) as Hnd.
  assert (top < idx st)%nat as Hlt.
  { apply (Inv32_elem _ _ _ HI), elem_of_app. left. rewrite Hq. by left. }
  destruct HI as [Hs Hi Hperm Hc Hf Hr Hd Hn].
  rewrite Hq in Hnd. simpl in Hnd. apply NoDup_cons in Hnd as [Hnotin _].
  split; simpl; [by eapply static_insert|done| |by rewrite Hc| | | |done].
  - by rewrite <- Permutation_middle, <- Hperm, Hq.
  - intros k Hk. rewrite list_lookup_insert_ne by lia. by apply Hf.
  - intros k pk Hk Hpk.
    rewrite list_lookup_insert_ne in Hpk.
    + apply (Hr k); [|done]. rewrite Hq. by right.
    + intros ->. apply Hnotin, elem_of_app. by left.
  - intros k pk Hk Hpk. apply elem_of_cons in Hk as [->|Hk].
    + rewrite list_lookup_insert_eq in Hpk by (by eapply lookup_lt_Some).
      by simplify_eq.
    + rewrite list_lookup_insert_ne in Hpk; [by eapply Hd|].
      intros ->. apply Hnotin, elem_of_app. by right.
Qed.

Lemma Inv32_next dn st :
  Inv32 pre ps0 dn st → pq st = [] → (completed st < length (procs st))%nat →
  (idx st < length (procs st))%nat.
Proof.
  intros HI Hq Hlt. rewrite (Inv32_length _ _ HI) in *.
  pose proof (i32_perm _ _ _ _ HI) as Hperm.
  pose proof (i32_completed _ _ _ _ HI) as Hc.
  rewrite Hq in Hperm. simpl in Hperm.
  apply Permutation_length in Hperm. rewrite length_seq in Hperm. lia.
Qed.

Lemma Inv32_exit dn st :
  Inv32 pre ps0 dn st → ¬ (completed st < length (procs st))%nat →
  dn ≡ₚ seq 0 (length ps0) ∧ pq st = [] ∧ completed st = length ps0.
Proof.
  intros HI Hge. rewrite (Inv32_length _ _ HI) in Hge.
  pose proof (i32_perm _ _ _ _ HI) as Hperm.
  pose proof (i32_completed _ _ _ _ HI) as Hc.
  pose proof (i32_idx _ _ _ _ HI) as Hi.
  pose proof (Permutation_length Hperm) as Hlen.
  rewrite length_app, length_seq in Hlen.
  assert (idx st = length ps0 ∧ length (pq st) = 0%nat) as [Hidx Hq] by lia.
  destruct (pq st); [|done]. simpl in Hperm. rewrite Hidx in Hperm.
  split_and!; [done|done|lia].
Qed.

(** No process has negative remaining time. *)
Lemma Inv32_remaining dn st :
  Inv32 pre ps0 dn st → Forall (fun p => 0 ≤ remainingTime p) (procs st).
Proof.
  intros HI. apply Forall_lookup_2. intros k p Hp.
  destruct (decide (k < idx st)%nat) as [Hlt|Hge].
  - assert (k ∈ pq st ++ dn) as Hk.
    { rewrite (i32_perm _ _ _ _ HI). apply elem_of_seq. lia. }
    apply elem_of_app in Hk as [Hk|Hk].
    + destruct (i32_ready _ _ _ _ HI k p Hk Hp). lia.
    + destruct (i32_done _ _ _ _ HI k p Hk Hp) as [_ Hd].
      destruct pre; [lia|]. destruct Hd as [Hd _].
      destruct (static_lookup _ _ _ _ (i32_static _ _ _ _ HI) Hp) as (p0 & Hp0 & Hst).
      destruct (Forall_lookup_1 _ _ _ _ Hvalid Hp0) as (_ & _ & Hb).
      unfold static in Hst. simplify_eq. lia.
  - rewrite (i32_future _ _ _ _ HI) in Hp by lia.
    destruct (Forall_lookup_1 _ _ _ _ Hvalid Hp) as (Hcons & _ & Hb).
    rewrite Hcons. simpl. lia.
Qed.

(** One admission. *)
Lemma admit32_ok push dn st extra q0 i q :
  (∀ q x, push q x ≡ₚ x :: q) →
  Inv32 pre ps0 dn st → pq st ≡ₚ extra ++ q0 →
  admit_arrivals push (currentTime st) (drop (idx st) (procs st)) (idx st) q0 = (i, q) →
  i = adm st ∧ (idx st ≤ i ≤ length ps0)%nat ∧
  q ≡ₚ q0 ++ seq (idx st) (i - idx st) ∧
  Inv32 pre ps0 dn (mkWalk (procs st) (currentTime st) (completed st) i (extra ++ q)) ∧
  (∀ p, procs st !! i = Some p → currentTime st < arrivalTime p).
Proof.
  intros Hpush HI Hpq Hadm.
  apply admit_spec in Hadm as (Hi & Hq & Hin & Hout); [|done].
  assert (idx st ≤ i ≤ length ps0)%nat as Hle.
  { pose proof (scan_ge (currentTime st) (drop (idx st) (procs st)) (idx st)).
    pose proof (scan_le (currentTime st) (drop (idx st) (procs st)) (idx st)) as Hs.
    rewrite length_drop, (Inv32_length _ _ HI) in Hs.
    pose proof (i32_idx _ _ _ _ HI). lia. }
  assert (extra ++ q ≡ₚ pq st ++ seq (idx st) (i - idx st)) as Hfull.
  { by rewrite Hq, Hpq, app_assoc. }
  split_and!; [exact Hi|lia|lia|done| |].
  - by apply Inv32_admit.
  - intros p Hp. apply Hout. rewrite lookup_drop.
    by replace (idx st + (i - idx st))%nat with i by lia.
Qed.

(** The fast-forward branch, once admission has left the queue empty. *)
Lemma jump32_ok dn st i :
  Inv32 pre ps0 dn (mkWalk (procs st) (currentTime st) (completed st) i []) →
  (completed st < length (procs st))%nat →
  (idx st ≤ i)%nat → i = adm st →
  ∃ next, procs st !! i = Some next ∧ 0 ≤ arrivalTime next ∧
    let st' := mkWalk (procs st) (arrivalTime next) (completed st) i [] in
    (Forall ranged ps0 → Inv32 pre ps0 dn st') ∧
    (adm st < adm st')%nat ∧ (adm st < length (procs st))%nat.
Proof.
  intros HI Hlt Hle Hadm.
  pose proof (Inv32_next _ _ HI eq_refl Hlt) as Hi. simpl in Hi.
  destruct (lookup_lt_is_Some_2 _ _ Hi) as [next Hnext].
  pose proof (i32_future _ _ _ _ HI i (Nat.le_refl _)) as Hfut. simpl in Hfut.
  rewrite Hnext in Hfut. symmetry in Hfut.
  destruct (Forall_lookup_1 _ _ _ _ Hvalid Hfut) as (_ & Ha & _).
  exists next. split; [done|]. split; [done|]. simpl. split_and!.
  - intros Hranged.
    destruct (Forall_lookup_1 _ _ _ _ Hranged Hfut) as [Har _].
    apply (Inv32_clock _ _ (arrivalTime next)) in HI; [done|].
    unfold in_int, INT_MIN. lia.
  - rewrite <- Hadm. apply (adm_next (mkWalk _ _ _ _ _) next); simpl; [done|lia].
  - by rewrite <- Hadm.
Qed.
End Invariant32.

(** ** One iteration of each loop *)

Local Arguments Int32.first_response : simpl never.
Local Arguments Int32.finalize : simpl never.
Local Arguments set_remainingTime : simpl never.

Lemma ranged_lookup (ps ps0 : list Process) (k : nat) p :
  static <$> ps = static <$> ps0 → Forall valid ps0 → Forall ranged ps0 →
  ps !! k = Some p →
  0 ≤ arrivalTime p ∧ arrivalTime p ≤ INT_MAX ∧ 0 < burstTime p ∧ burstTime p ≤ INT_MAX.
Proof.
  intros Hst Hv Hr Hp.
  destruct (static_lookup _ _ _ _ Hst Hp) as (p0 & Hp0 & Heq).
  destruct (Forall_lookup_1 _ _ _ _ Hv Hp0) as (_ & Ha & Hb).
  destruct (Forall_lookup_1 _ _ _ _ Hr Hp0) as [Ha' Hb'].
  unfold static in Heq. simplify_eq. lia.
Qed.

Lemma np_step32_ok cmp ps0 dn st :
  Forall valid ps0 → Forall ranged ps0 →
  Inv32 false ps0 dn st → (completed st < length (procs st))%nat →
  ∃ st' dn', Int32.np_step cmp st = Some st' ∧ Inv32 false ps0 dn' st' ∧
    (heap_measure st' < heap_measure st)%nat.
Proof.
  intros Hvalid Hranged HI Hlt. unfold Int32.np_step, admit_from.
  destruct (admit_arrivals _ _ _ _ _) as [i q] eqn:Hadm.
  apply (admit32_ok false ps0 Hvalid _ dn st []) in Hadm
    as (Hi & Hle & Hq & HIA & Hout); [|apply pq_push_perm|done|done].
  simpl in HIA.
  destruct q as [|top q]; simpl.
  - destruct (jump32_ok false ps0 Hvalid dn st i)
      as (next & Hnext & Ha & HI' & Hm1 & Hm2); [done|done|lia|done|].
    rewrite Hnext. simpl. eexists _, dn. split_and!; [done|by apply HI'|].
    by apply measure_advance.
  - set (comp := deref_comp cmp (procs st)) in *.
    pose proof (pq_pop_perm comp top q) as Hpop.
    destruct (Inv32_lookup _ _ _ _ top HIA) as [p Hp].
    { simpl. apply elem_of_cons. by left. }
    simpl in Hp. rewrite Hp. simpl.
    pose proof (i32_ready _ _ _ _ HIA top p) as Hr. simpl in Hr.
    specialize (Hr ltac:(by left) Hp).
    destruct (ranged_lookup _ _ _ _ (i32_static _ _ _ _ HIA) Hvalid Hranged Hp)
      as (Ha1 & Ha2 & Hb1 & Hb2).
    rewrite burstTime_first_response32.
    eexists _, (top :: dn). split; [done|]. split.
    + apply (Inv32_complete false ps0 _ _ _ p _ _ _ HIA); simpl;
        [by rewrite Hpop|done|apply static_first_response32| |].
      * apply np_done32; [done|exact (i32_clock _ _ _ _ HIA)|].
        unfold in_int, INT_MIN. lia.
      * apply wrap_in_int.
    + apply measure_complete; simpl; [by rewrite length_insert|lia|done|done].
Qed.

Lemma pre_step32_ok cmp ps0 dn st :
  Forall valid ps0 → Forall ranged ps0 →
  Inv32 true ps0 dn st → guarded st → (completed st < length (procs st))%nat →
  ∃ st' dn', Int32.pre_step cmp st = Some st' ∧ Inv32 true ps0 dn' st' ∧
    guarded st' ∧ (heap_measure st' < heap_measure st)%nat.
Proof.
  intros Hvalid Hranged HI Hg Hlt. unfold Int32.pre_step, admit_from.
  destruct (admit_arrivals _ _ _ _ _) as [i q] eqn:Hadm.
  apply (admit32_ok true ps0 Hvalid _ dn st []) in Hadm
    as (Hi & Hle & Hq & HIA & Hout); [|apply pq_push_perm|done|done].
  simpl in HIA.
  pose proof (Inv32_length _ _ _ _ HI) as Hlen.
  destruct q as [|top q]; simpl.
  - destruct (jump32_ok true ps0 Hvalid dn st i)
      as (next & Hnext & Ha & HI' & Hm1 & Hm2); [done|done|lia|done|].
    rewrite Hnext. simpl. eexists _, dn. split_and!; [done|by apply HI'| |].
    + intros next'. simpl. rewrite Hnext. intros [= <-]. lia.
    + by apply measure_advance.
  - set (comp := deref_comp cmp (procs st)) in *.
    pose proof (pq_pop_perm comp top q) as Hpop.
    destruct (Inv32_lookup _ _ _ _ top HIA) as [p Hp].
    { simpl. apply elem_of_cons. by left. }
    simpl in Hp. rewrite Hp. simpl.
    assert (top < i)%nat as Htop.
    { apply (Inv32_elem _ _ _ _ top HIA). simpl. apply elem_of_cons. by left. }
    pose proof (i32_ready _ _ _ _ HIA top p) as Hr. simpl in Hr.
    specialize (Hr ltac:(by left) Hp). destruct Hr as (Hr1 & Hr2 & _).
    destruct (ranged_lookup _ _ _ _ (i32_static _ _ _ _ HIA) Hvalid Hranged Hp)
      as (Ha1 & Ha2 & Hb1 & Hb2).
    pose proof (i32_clock _ _ _ _ HIA) as Hclock. simpl in Hclock.
    rewrite !remainingTime_first_response32.
    set (p1 := Int32.first_response (currentTime st) p).
    set (e := match procs st !! i with
              | Some next => Z.min (remainingTime p)
                                   (Int32.sub (arrivalTime next) (currentTime st))
              | None => remainingTime p
              end).
    assert (1 ≤ e ∧ e ≤ remainingTime p ∧
            (∀ next, procs st !! i = Some next →
                     0 ≤ currentTime st ∧ currentTime st + e ≤ arrivalTime next ∧
                     arrivalTime next ≤ INT_MAX ∧
                     (e < remainingTime p → currentTime st + e = arrivalTime next)) ∧
            (procs st !! i = None → e = remainingTime p)) as (He1 & He2 & He3 & He4).
    { subst e. destruct (procs st !! i) as [next|] eqn:Hnext.
      - specialize (Hout next eq_refl).
        destruct (ranged_lookup _ _ _ _ (i32_static _ _ _ _ HIA) Hvalid Hranged Hnext)
          as (Hn1 & Hn2 & _).
        assert (0 ≤ currentTime st) as Hnow.
        { apply lookup_lt_Some in Hnext.
          destruct (lookup_lt_is_Some_2 (procs st) (idx st)) as [x Hx]; [lia|].
          by destruct (Hg x Hx). }
        rewrite sub_exact by (unfold in_int, INT_MIN; lia).
        split_and!; [lia|lia| |done].
        intros ? [= <-]. lia.
      - split_and!; [lia|lia|done|done]. }
    clearbody e.
    assert (Int32.sub (remainingTime p) e = remainingTime p - e) as Hsub.
    { apply sub_exact. unfold in_int, INT_MIN. lia. }
    unfold set_remainingTime at 1. cbn [remainingTime]. rewrite Hsub.
    assert (∀ c, guarded (mkWalk (<[top := c]> (procs st))
                                 (Int32.add (currentTime st) e) 0 i [])) as Hg'.
    { intros c next. simpl. rewrite list_lookup_insert_ne by lia. intros Hnext.
      destruct (He3 next Hnext) as (Hn1 & Hn2 & Hn3 & _).
      rewrite add_exact by (unfold in_int, INT_MIN; lia). lia. }
    destruct (Z.eqb_spec (remainingTime p - e) 0) as [Hz|Hnz].
    + eexists _, (top :: dn). split; [done|]. split_and!.
      * apply (Inv32_complete true ps0 _ _ _ p _ _ _ HIA); simpl;
          [by rewrite Hpop|done| | |apply wrap_in_int].
        -- subst p1. by rewrite <- (static_first_response32 (currentTime st) p).
        -- split; [apply finalized32_finalize|].
           unfold Int32.finalize, set_remainingTime. cbn. lia.
      * exact (Hg' _).
      * apply measure_complete; simpl; [by rewrite length_insert|lia|done|done].
    + eexists _, dn. split; [done|]. split_and!.
      * apply (Inv32_requeue true ps0 _ _ _ p _ _ _ HIA); simpl;
          [by left|done| | | |apply wrap_in_int].
        -- subst p1. by rewrite <- (static_first_response32 (currentTime st) p).
        -- unfold ready32, set_remainingTime. subst p1. cbn.
           rewrite burstTime_first_response32. split_and!; [lia|lia|done].
        -- by rewrite pq_push_perm, Hpop.
      * exact (Hg' _).
      * destruct (procs st !! i) as [next|] eqn:Hnext;
          [|specialize (He4 eq_refl); lia].
        destruct (He3 next eq_refl) as (Hn1 & Hn2 & Hn3 & Hn4).
        specialize (Hn4 ltac:(lia)).
        apply measure_advance; simpl; [by rewrite length_insert| | |done].
        -- rewrite <- Hi.
           apply (adm_next (mkWalk _ _ _ _ _) next); simpl.
           ++ rewrite list_lookup_insert_ne by lia. done.
           ++ rewrite add_exact by (unfold in_int, INT_MIN; lia). lia.
        -- rewrite <- Hi. by eapply lookup_lt_Some.
Qed.

Lemma rr_step32_ok timeQuantum ps0 dn st :
  Forall valid ps0 → Forall ranged ps0 → 0 < timeQuantum →
  Inv32 true ps0 dn st → (completed st < length (procs st))%nat →
  ∃ st' dn', Int32.rr_step timeQuantum st = Some st' ∧ Inv32 true ps0 dn' st' ∧
    (rr_measure st' < rr_measure st)%nat.
Proof.
  intros Hvalid Hranged Hquantum HI Hlt. unfold Int32.rr_step, admit_from.
  destruct (admit_arrivals _ _ _ _ _) as [i q] eqn:Hadm.
  apply (admit32_ok true ps0 Hvalid _ dn st []) in Hadm
    as (Hi & Hle & Hq & HIA & Hout); [|apply queue_push_perm|done|done].
  simpl in HIA.
  destruct q as [|front q]; simpl.
  - destruct (jump32_ok true ps0 Hvalid dn st i)
      as (next & Hnext & Ha & HI' & Hm1 & Hm2); [done|done|lia|done|].
    rewrite Hnext. simpl. eexists _, dn. split_and!; [done|by apply HI'|].
    by apply rr_measure_advance.
  - destruct (Inv32_lookup _ _ _ _ front HIA) as [p Hp].
    { simpl. apply elem_of_cons. by left. }
    simpl in Hp. rewrite Hp. simpl.
    assert (front < i)%nat as Hfront.
    { apply (Inv32_elem _ _ _ _ front HIA). simpl. apply elem_of_cons. by left. }
    pose proof (i32_ready _ _ _ _ HIA front p) as Hr. simpl in Hr.
    specialize (Hr ltac:(by left) Hp). destruct Hr as (Hr1 & Hr2 & _).
    destruct (ranged_lookup _ _ _ _ (i32_static _ _ _ _ HIA) Hvalid Hranged Hp)
      as (Ha1 & Ha2 & Hb1 & Hb2).
    rewrite !remainingTime_first_response32.
    set (e := Z.min timeQuantum (remainingTime p)).
    assert (1 ≤ e ∧ e ≤ remainingTime p) as [He1 He2] by (subst e; lia).
    clearbody e.
    assert (Int32.sub (remainingTime p) e = remainingTime p - e) as Hsub.
    { apply sub_exact. unfold in_int, INT_MIN. lia. }
    rewrite Hsub.
    set (p2 := set_remainingTime (Int32.first_response (currentTime st) p)
                                 (remainingTime p - e)).
    set (now := Int32.add (currentTime st) e).
    assert (in_int now) as Hnow by apply wrap_in_int.
    rewrite drop_insert_lt by done.
    destruct (admit_arrivals _ _ _ _ _) as [i2 q2] eqn:Hadm2.
    apply (admit32_ok true ps0 Hvalid _ dn
             (mkWalk (procs st) now (completed st) i (front :: q)) [front])
      in Hadm2 as (Hi2 & Hle2 & Hq2 & HIC & _);
      [|apply queue_push_perm|by apply (Inv32_clock _ _ _ _ now) in HIA|done].
    simpl in Hle2, HIC.
    assert (static p2 = static p) as Hstatic.
    { subst p2. unfold set_remainingTime.
      by rewrite <- (static_first_response32 (currentTime st) p). }
    assert (remainingTime p2 = remainingTime p - e) as Hrem2 by done.
    assert (burstTime p2 = burstTime p) as Hburst2.
    { subst p2. unfold set_remainingTime. cbn. apply burstTime_first_response32. }
    assert (∀ c, total_remaining (<[front := c]> (procs st)) =
                 total_remaining (procs st) - remainingTime p + remainingTime c)
      as Htotal.
    { intros c. by apply total_remaining_insert. }
    change (remainingTime p2) with (remainingTime p - e).
    destruct (Z.ltb_spec 0 (remainingTime p - e)) as [Hpos|Hneg].
    + assert (Inv32 true ps0 dn
                (mkWalk (<[front := p2]> (procs st)) now (completed st) i2
                        (queue_push q2 front))) as HI'.
      { apply (Inv32_requeue true ps0 _ _ _ p p2 _ _ HIC); simpl;
          [by left|done|done| |apply queue_push_perm|done].
        unfold ready32. rewrite Hrem2, Hburst2. split_and!; [lia|lia|done]. }
      eexists _, dn. split; [done|]. split; [done|].
      pose proof (Inv32_remaining true ps0 Hvalid _ _ HI') as Hnn. simpl in Hnn.
      apply (rr_measure_slice _ _ e); simpl;
        [by rewrite length_insert|lia| |done|by apply total_remaining_nonneg].
      rewrite Htotal, Hrem2. lia.
    + rewrite list_insert_insert_eq.
      assert (Inv32 true ps0 (front :: dn)
                (mkWalk (<[front := Int32.finalize now p2]> (procs st)) now
                        (S (completed st)) i2 q2)) as HI'.
      { apply (Inv32_complete true ps0 _ _ _ p _ _ _ HIC); simpl;
          [done|done|done| |done].
        split; [apply finalized32_finalize|].
        change (remainingTime (Int32.finalize now p2)) with (remainingTime p2).
        rewrite Hrem2. lia. }
      eexists _, (front :: dn). split; [done|]. split; [done|].
      pose proof (Inv32_remaining true ps0 Hvalid _ _ HI') as Hnn. simpl in Hnn.
      apply (rr_measure_slice _ _ e); simpl;
        [by rewrite length_insert|lia| |done|by apply total_remaining_nonneg].
      rewrite Htotal.
      change (remainingTime (Int32.finalize now p2)) with (remainingTime p2).
      rewrite Hrem2. lia.
Qed.

(** ** The loop *)

Section Run32.
Context (step : Walk → option Walk).
Context (Good : list nat → Walk → Prop) (measure : Walk → nat).
Hypothesis step_ok : ∀ dn st,
  Good dn st → (completed st < length (procs st))%nat →
  ∃ st' dn', step st = Some st' ∧ Good dn' st' ∧ (measure st' < measure st)%nat.

(** With fuel for [measure st] iterations the loop ends. *)
Lemma run32_total fuel st dn :
  Good dn st → (measure st ≤ fuel)%nat →
  ∃ st' dn', run step fuel st = Done st' ∧ Good dn' st' ∧
             ¬ (completed st' < length (procs st'))%nat.
Proof.
  revert st dn. induction fuel as [|fuel IH]; intros st dn HG Hm; simpl.
  - destruct (Nat.ltb_spec (completed st) (length (procs st))) as [Hlt|Hge].
    + destruct (step_ok dn st HG Hlt) as (st' & dn' & _ & _ & Hd). lia.
    + exists st, dn. split_and!; [done|done|lia].
  - destruct (Nat.ltb_spec (completed st) (length (procs st))) as [Hlt|Hge].
    + destruct (step_ok dn st HG Hlt) as (st' & dn' & -> & HG' & Hd).
      apply (IH st' dn'); [done|lia].
    + exists st, dn. split_and!; [done|done|lia].
Qed.
End Run32.

(** ** The FCFS loop *)

Section FCFS32.
Local Arguments wrap : simpl never.
Local Arguments Int32.add : simpl never.
Local Arguments Int32.sub : simpl never.

Lemma FCFS_loop32_static now ps : static <$> Int32.FCFS_loop now ps = static <$> ps.
Proof.
  revert now. induction ps as [|p ps IH]; intros now; [done|].
  cbn [Int32.FCFS_loop]. unfold Int32.FCFS_visit. cbn. by rewrite IH.
Qed.

Lemma FCFS_loop32_done now ps :
  in_int now → Forall valid ps → Forall ranged ps →
  Forall (done32 false) (Int32.FCFS_loop now ps).
Proof.
  intros Hnow Hv Hr. revert now Hnow.
  induction Hv as [|p ps (Hc & Ha & Hb) Hv IH]; intros now Hnow; [constructor|].
  apply Forall_cons in Hr as [[Hr1 Hr2] Hr].
  cbn [Int32.FCFS_loop]. unfold Int32.FCFS_visit.
  set (t := if now <? arrivalTime p then arrivalTime p else now).
  assert (in_int t) as Ht.
  { subst t. destruct (now <? arrivalTime p); [|done]. unfold in_int, INT_MIN. lia. }
  cbn. constructor.
  - split; [done|]. cbn. split; [by rewrite Hc|].
    unfold Int32.finalize, Int32.add, Int32.sub. cbn.
    rewrite wrap_add_r, wrap_add_l. f_equal. lia.
  - apply IH; [done|apply wrap_in_int].
Qed.
End FCFS32.

(** ** [schedule] in [int] arithmetic *)

Lemma exit32_done pre ps0 dn st :
  Inv32 pre ps0 dn st → ¬ (completed st < length (procs st))%nat →
  static <$> procs st = static <$> ps0 ∧ Forall (done32 pre) (procs st) ∧
  completed st = length ps0 ∧ idx st = length ps0 ∧ pq st = [].
Proof.
  intros HI Hge. split; [exact (i32_static _ _ _ _ HI)|].
  destruct (Inv32_exit _ _ _ _ HI Hge) as (Hd & Hq & Hc).
  split_and!; [|done| |done].
  - apply Forall_lookup_2. intros k p Hp.
    apply (i32_done _ _ _ _ HI k p); [|done].
    rewrite Hd. apply elem_of_seq.
    apply lookup_lt_Some in Hp. rewrite (Inv32_length _ _ _ _ HI) in Hp. lia.
  - pose proof (Permutation_length (i32_perm _ _ _ _ HI)) as Hlen.
    rewrite Hq, length_seq in Hlen. simpl in Hlen.
    rewrite (i32_completed _ _ _ _ HI) in Hc. lia.
Qed.

Lemma guarded_start ps : Forall valid ps → guarded (start ps).
Proof.
  intros Hv next Hnext. simpl in *.
  destruct (Forall_lookup_1 _ _ _ _ Hv Hnext) as (_ & Ha & _). lia.
Qed.

(** On every valid input of [int] fields [schedule] returns within
    [steps_bound] iterations, whether or not the clock wraps around, with
    the input fields of every process as they were and every process
    completed; the loop of a policy that has one ends with its counter at
    the number of processes, every process admitted and the ready queue
    empty. *)
Lemma int32_total pol ps :
  valid_policy pol → Forall valid ps → Forall ranged ps →
  ∃ s, (∀ fuel, (steps_bound pol ps ≤ fuel)%nat →
                Int32.schedule pol fuel ps = Done s) ∧
       static <$> processes s = static <$> arranged pol ps ∧
       Forall (done32 (preemptive pol)) (processes s) ∧
       (∀ step32, Int32.loop_body pol = Some step32 →
          ∃ st, (∀ fuel, (steps_bound pol ps ≤ fuel)%nat →
                         run step32 fuel (start (arranged pol ps)) = Done st) ∧
                s = Int32.calculateMetrics (procs st) ∧
                completed st = length ps ∧ idx st = length ps ∧ pq st = []).
Proof.
  intros Hpol Hv Hr.
  pose proof (valid_arranged pol ps Hv) as Hv'.
  assert (Forall ranged (arranged pol ps)) as Hr' by (by rewrite arranged_perm).
  assert (length (arranged pol ps) = length ps) as Hlen
      by apply Permutation_length, arranged_perm.
  assert (∀ pre step measure (Good : list nat → Walk → Prop),
            (∀ dn st, Good dn st → Inv32 pre (arranged pol ps) dn st) →
            Good [] (start (arranged pol ps)) →
            (measure (start (arranged pol ps)) ≤ steps_bound pol ps)%nat →
            (∀ dn st, Good dn st → (completed st < length (procs st))%nat →
               ∃ st' dn', step st = Some st' ∧ Good dn' st' ∧
                          (measure st' < measure st)%nat) →
            ∃ st, (∀ fuel, (steps_bound pol ps ≤ fuel)%nat →
                           run step fuel (start (arranged pol ps)) = Done st) ∧
                  static <$> procs st = static <$> arranged pol ps ∧
                  Forall (done32 pre) (procs st) ∧
                  completed st = length ps ∧ idx st = length ps ∧ pq st = [])
    as Hloop.
  { intros pre step measure Good Hinv Hstart Hm Hstep.
    destruct (run32_total step Good measure Hstep (steps_bound pol ps)
                (start (arranged pol ps)) [] Hstart Hm)
      as (st & dn & Hrun & HG & Hexit).
    exists st. split.
    - intros fuel Hfuel. by eapply run_mono.
    - rewrite <- Hlen. by apply (exit32_done pre _ dn); [apply Hinv|]. }
  assert (∀ pre step32 st,
            (∀ fuel, (steps_bound pol ps ≤ fuel)%nat →
                     run step32 fuel (start (arranged pol ps)) = Done st) →
            static <$> procs st = static <$> arranged pol ps ∧
            Forall (done32 pre) (procs st) ∧
            completed st = length ps ∧ idx st = length ps ∧ pq st = [] →
            (∀ fuel, (steps_bound pol ps ≤ fuel)%nat →
               Int32.finish (run step32 fuel (start (arranged pol ps)))
               = Done (Int32.calculateMetrics (procs st))) ∧
            static <$> processes (Int32.calculateMetrics (procs st))
            = static <$> arranged pol ps ∧
            Forall (done32 pre) (processes (Int32.calculateMetrics (procs st))) ∧
            (∀ step, Some step32 = Some step →
               ∃ st', (∀ fuel, (steps_bound pol ps ≤ fuel)%nat →
                         run step fuel (start (arranged pol ps)) = Done st') ∧
                      Int32.calculateMetrics (procs st)
                      = Int32.calculateMetrics (procs st') ∧
                      completed st' = length ps ∧ idx st' = length ps ∧
                      pq st' = [])) as Hfinish.
  { intros pre step32 st Hrun (Hst & Hd & Hc & Hi & Hq).
    rewrite int32_processes. split_and!; [|done|done|].
    - intros fuel Hfuel. by rewrite Hrun.
    - intros step [= <-]. by exists st. }
  destruct pol; simpl in Hpol |- *.
  - exists (Int32.calculateMetrics (Int32.FCFS_loop 0 (std_sort ps))).
    rewrite int32_processes. split_and!; [done|apply FCFS_loop32_static| |done].
    apply FCFS_loop32_done; [|done|done]. unfold in_int, INT_MIN, INT_MAX. lia.
  - destruct (Hloop false (Int32.np_step SJF_cmp) heap_measure
                (Inv32 false (std_sort ps))) as (st & Hrun & Hrest).
    + done.
    + apply Inv32_start.
    + pose proof (heap_measure_start (std_sort ps)). rewrite std_sort_length in *.
      simpl. lia.
    + intros dn st HI Hlt. by apply (np_step32_ok _ _ dn).
    + exists (Int32.calculateMetrics (procs st)).
      exact (Hfinish false _ st Hrun Hrest).
  - destruct (Hloop true (Int32.pre_step SRTF_cmp) heap_measure
                (fun dn st => Inv32 true (std_sort ps) dn st ∧ guarded st))
      as (st & Hrun & Hrest).
    + by intros dn st [? _].
    + split; [apply Inv32_start|by apply guarded_start].
    + pose proof (heap_measure_start (std_sort ps)). rewrite std_sort_length in *.
      simpl. lia.
    + intros dn st [HI Hg] Hlt.
      destruct (pre_step32_ok SRTF_cmp _ dn st Hv' Hr' HI Hg Hlt)
        as (st' & dn' & ? & ? & ? & ?).
      by exists st', dn'.
    + exists (Int32.calculateMetrics (procs st)).
      exact (Hfinish true _ st Hrun Hrest).
  - destruct (Hloop true (Int32.rr_step timeQuantum) rr_measure
                (Inv32 true ps)) as (st & Hrun & Hrest).
    + done.
    + apply Inv32_start.
    + by apply rr_measure_start.
    + intros dn st HI Hlt. by apply (rr_step32_ok _ _ dn).
    + exists (Int32.calculateMetrics (procs st)).
      exact (Hfinish true _ st Hrun Hrest).
  - destruct (Hloop false (Int32.np_step Priority_cmp) heap_measure
                (Inv32 false (std_sort ps))) as (st & Hrun & Hrest).
    + done.
    + apply Inv32_start.
    + pose proof (heap_measure_start (std_sort ps)). rewrite std_sort_length in *.
      simpl. lia.
    + intros dn st HI Hlt. by apply (np_step32_ok _ _ dn).
    + exists (Int32.calculateMetrics (procs st)).
      exact (Hfinish false _ st Hrun Hrest).
  - destruct (Hloop true (Int32.pre_step PreemptivePriority_cmp) heap_measure
                (fun dn st => Inv32 true (std_sort ps) dn st ∧ guarded st))
      as (st & Hrun & Hrest).
    + by intros dn st [? _].
    + split; [apply Inv32_start|by apply guarded_start].
    + pose proof (heap_measure_start (std_sort ps)). rewrite std_sort_length in *.
      simpl. lia.
    + intros dn st [HI Hg] Hlt.
      destruct (pre_step32_ok PreemptivePriority_cmp _ dn st Hv' Hr' HI Hg Hlt)
        as (st' & dn' & ? & ? & ? & ?).
      by exists st', dn'.
    + exists (Int32.calculateMetrics (procs st)).
      exact (Hfinish true _ st Hrun Hrest).
Qed.

(** * The claims on time values, in [int] arithmetic *)

Lemma static_tie pol (ps l : list Process) :
  static <$> l = static <$> arranged pol ps → static <$> l ≡ₚ static <$> ps.
Proof. intros ->. apply fmap_Permutation, arranged_perm. Qed.

Lemma main_processes_fit : fits main_processes.
Proof. unfold fits, INT_MAX. cbn. lia. Qed.

Lemma main_processes_ranged : Forall ranged main_processes.
Proof. unfold main_processes, ranged, INT_MAX. repeat constructor; simpl; lia. Qed.

(** ** C5: termination *)

(** C5.  For every policy (with a positive quantum under Round Robin) and
    every valid process list of [int] fields, [schedule] returns within
    [steps_bound] loop iterations, whether or not the clock wraps around.
    The records returned are those of the processes given, and every
    process is completed: under SRTF, Round Robin and Preemptive Priority
    it has no remaining time; under FCFS, SJF and Priority its completion
    time is its burst after its dispatch at [arrivalTime + responseTime],
    the sums taken in [int] arithmetic.  The loop of a policy that has one
    ends with its counter [completed] at the number of processes, every
    process admitted and the ready queue empty. *)
Theorem schedule_terminates (pol : Policy) (ps : list Process) :
  valid_policy pol → Forall valid ps → Forall ranged ps →
  ∃ s, (∀ extra, Int32.schedule pol (steps_bound pol ps + extra) ps = Done s) ∧
       static <$> processes s ≡ₚ static <$> ps ∧
       Forall (fun p =>
                 if preemptive pol then remainingTime p = 0
                 else completionTime p
                      = Int32.add (Int32.add (arrivalTime p) (responseTime p))
                                  (burstTime p))
              (processes s) ∧
       (∀ step, Int32.loop_body pol = Some step →
          ∃ st, (∀ extra, run step (steps_bound pol ps + extra)
                              (start (arranged pol ps)) = Done st) ∧
                s = Int32.calculateMetrics (procs st) ∧
                completed st = length ps ∧ idx st = length ps ∧ pq st = []).
Proof.
  intros Hpol Hv Hr.
  destruct (int32_total pol ps Hpol Hv Hr) as (s & Hrun & Hst & Hd & Hloop).
  exists s. split_and!.
  - intros extra. apply Hrun. lia.
  - by apply (static_tie pol).
  - eapply Forall_impl; [exact Hd|]. intros p [_ Hp].
    destruct (preemptive pol); [done|]. by destruct Hp.
  - intros step Hstep. destruct (Hloop step Hstep) as (st & Hst' & Hrest).
    exists st. split; [|done]. intros extra. apply Hst'. lia.
Qed.

Lemma schedule_terminates_witness :
  valid_policy (RoundRobin 2) ∧ Forall valid main_processes ∧
  Forall ranged main_processes ∧
  ∃ s, (∀ extra, Int32.schedule (RoundRobin 2)
                   (steps_bound (RoundRobin 2) main_processes + extra)
                   main_processes = Done s) ∧
       static <$> processes s ≡ₚ static <$> main_processes ∧
       Forall (fun p =>
                 if preemptive (RoundRobin 2) then remainingTime p = 0
                 else completionTime p
                      = Int32.add (Int32.add (arrivalTime p) (responseTime p))
                                  (burstTime p))
              (processes s) ∧
       (∀ step, Int32.loop_body (RoundRobin 2) = Some step →
          ∃ st, (∀ extra, run step (steps_bound (RoundRobin 2) main_processes + extra)
                              (start (arranged (RoundRobin 2) main_processes))
                          = Done st) ∧
                s = Int32.calculateMetrics (procs st) ∧
                completed st = length main_processes ∧
                idx st = length main_processes ∧ pq st = []).
Proof.
  assert (valid_policy (RoundRobin 2)) as Hpol by (simpl; lia).
  split; [exact Hpol|]. split; [exact main_processes_valid|].
  split; [exact main_processes_ranged|].
  exact (schedule_terminates (RoundRobin 2) main_processes Hpol
           main_processes_valid main_processes_ranged).
Defined.

(** ** C6: turnaround and waiting time *)

(** C6.  For every policy and every valid process list of [int] fields
    the simulation completes, the records returned are those of the
    processes given, and every process has
    [turnaroundTime == completionTime - arrivalTime] and
    [waitingTime == turnaroundTime - burstTime], the differences taken in
    [int] arithmetic as the code takes them; when the times fit in an
    [int] they are the exact differences. *)
Theorem turnaround_waiting_identities (pol : Policy) (ps : list Process) :
  valid_policy pol → Forall valid ps → Forall ranged ps →
  ∃ s, (∀ extra, Int32.schedule pol (steps_bound pol ps + extra) ps = Done s) ∧
       static <$> processes s ≡ₚ static <$> ps ∧
       Forall (fun p =>
                 turnaroundTime p = Int32.sub (completionTime p) (arrivalTime p) ∧
                 waitingTime p = Int32.sub (turnaroundTime p) (burstTime p))
              (processes s) ∧
       (fits ps →
        Forall (fun p => turnaroundTime p = completionTime p - arrivalTime p ∧
                         waitingTime p = turnaroundTime p - burstTime p)
               (processes s)).
Proof.
  intros Hpol Hv Hr.
  destruct (int32_total pol ps Hpol Hv Hr) as (s & Hrun & Hst & Hd & _).
  exists s. split_and!.
  - intros extra. apply Hrun. lia.
  - by apply (static_tie pol).
  - eapply Forall_impl; [exact Hd|]. by intros p [Hp _].
  - intros Hfits.
    destruct (int32_schedule_total pol ps Hpol Hv Hfits)
      as (s1 & Hrun1 & _ & _ & _ & Hfin & _).
    assert (s1 = s) as <-; [|exact Hfin].
    specialize (Hrun (steps_bound pol ps) (Nat.le_refl _)).
    rewrite Hrun1 in Hrun by lia. by injection Hrun.
Qed.

Lemma turnaround_waiting_identities_witness :
  valid_policy SRTF ∧ Forall valid main_processes ∧ Forall ranged main_processes ∧
  ∃ s, (∀ extra, Int32.schedule SRTF (steps_bound SRTF main_processes + extra)
                   main_processes = Done s) ∧
       static <$> processes s ≡ₚ static <$> main_processes ∧
       Forall (fun p =>
                 turnaroundTime p = Int32.sub (completionTime p) (arrivalTime p) ∧
                 waitingTime p = Int32.sub (turnaroundTime p) (burstTime p))
              (processes s) ∧
       (fits main_processes →
        Forall (fun p => turnaroundTime p = completionTime p - arrivalTime p ∧
                         waitingTime p = turnaroundTime p - burstTime p)
               (processes s)).
Proof.
  assert (valid_policy SRTF) as Hpol by exact I.
  split; [exact Hpol|]. split; [exact main_processes_valid|].
  split; [exact main_processes_ranged|].
  exact (turnaround_waiting_identities SRTF main_processes Hpol
           main_processes_valid main_processes_ranged).
Defined.

(** ** C7: waiting and response time *)




(** ** C10: throughput *)




(** * Further properties of the time values, in [int] arithmetic *)

(** ** No overflow *)

Lemma no_overflow_bounds (pol : Policy) (ps : list Process) :
  valid_policy pol → Forall valid ps → fits ps →
  ∃ s, (∀ extra, Int32.schedule pol (steps_bound pol ps + extra) ps = Done s) ∧
       static <$> processes s ≡ₚ static <$> ps ∧
       Forall (fun p => 0 ≤ responseTime p ≤ waitingTime p ∧
                        waitingTime p + burstTime p = turnaroundTime p ∧
                        arrivalTime p + turnaroundTime p = completionTime p ∧
                        completionTime p ≤ max_arrival ps + total_burst ps)
              (processes s).
Proof.
  intros Hpol Hv Hfits.
  destruct (int32_schedule_total pol ps Hpol Hv Hfits)
    as (s & Hrun & Hideal & _ & Hst & Hfin & _ & Hbound & _).
  destruct (response_within_waiting_in_Z pol ps Hpol Hv) as (s0 & Hrun0 & Hrw).
  assert (processes s0 = processes s) as Hs0.
  { specialize (Hrun0 0%nat). rewrite Hideal in Hrun0 by lia.
    injection Hrun0 as <-. by rewrite calculateMetrics_processes. }
  rewrite Hs0 in Hrw.
  exists s. split_and!.
  - intros extra. apply Hrun. lia.
  - by apply (static_tie pol).
  - apply Forall_lookup_2. intros k p Hp.
    pose proof (Forall_lookup_1 _ _ _ _ Hfin Hp) as [Ht Hw].
    pose proof (Forall_lookup_1 _ _ _ _ Hrw Hp) as Hr.
    pose proof (Forall_lookup_1 _ _ _ _ Hbound Hp) as Hb.
    simpl in Hr, Hb. lia.
Qed.



(** ** Response time and waiting time *)

(** Under every policy, also the preemptive ones, on valid input whose
    times fit, the run returns the records of the processes given, and the
    response time of each is not negative and not above its waiting time:
    also under SRTF, Round Robin and Preemptive Priority, where a process
    waits again after its first dispatch. *)
Theorem response_within_waiting (pol : Policy) (ps : list Process) :
  valid_policy pol → Forall valid ps → fits ps →
  ∃ s, (∀ extra, Int32.schedule pol (steps_bound pol ps + extra) ps = Done s) ∧
       static <$> processes s ≡ₚ static <$> ps ∧
       Forall (fun p => 0 ≤ responseTime p ≤ waitingTime p) (processes s).
Proof.
  intros Hpol Hv Hfits.
  destruct (no_overflow_bounds pol ps Hpol Hv Hfits) as (s & Hrun & Hst & Hall).
  exists s. split_and!; [done|done|].
  eapply Forall_impl; [exact Hall|]. simpl. tauto.
Qed.

Lemma response_within_waiting_witness :
  valid_policy (RoundRobin 2) ∧ Forall valid main_processes ∧
  fits main_processes ∧
  ∃ s, (∀ extra, Int32.schedule (RoundRobin 2)
                   (steps_bound (RoundRobin 2) main_processes + extra)
                   main_processes = Done s) ∧
       static <$> processes s ≡ₚ static <$> main_processes ∧
       Forall (fun p => 0 ≤ responseTime p ≤ waitingTime p) (processes s).
Proof.
  assert (valid_policy (RoundRobin 2)) as Hpol by (simpl; lia).
  split; [exact Hpol|]. split; [exact main_processes_valid|].
  split; [exact main_processes_fit|].
  exact (response_within_waiting (RoundRobin 2) main_processes Hpol
           main_processes_valid main_processes_fit).
Defined.

(** Two fields equal in every record have equal sums, whatever wraps. *)
Lemma int32_response_waiting_averages (l : list Process) :
  Forall (fun p => responseTime p = waitingTime p) l →
  avgResponseTime (Int32.calculateMetrics l)
  = avgWaitingTime (Int32.calculateMetrics l).
Proof.
  intros Hall. unfold Int32.calculateMetrics.
  assert ((Int32.metrics_totals l).1.2 = (Int32.metrics_totals l).1.1.1) as H.
  { unfold Int32.metrics_totals.
    assert (∀ acc : Z * Z * Z * Z, acc.1.2 = acc.1.1.1 →
              let r := fold_left
                (fun '(w, t, r, m) p =>
                   (Int32.add w (waitingTime p), Int32.add t (turnaroundTime p),
                    Int32.add r (responseTime p), Z.max m (completionTime p)))
                l acc in r.1.2 = r.1.1.1) as Hfold.
    { induction Hall as [|p l Hp Hall IH]; intros [[[w t] r] m] Hacc; [done|].
      cbn [fold_left]. apply IH. cbn in *. by rewrite Hp, Hacc. }
    by apply Hfold. }
  destruct (Int32.metrics_totals l) as [[[w t] r] m]. cbn in H. by rewrite H.
Qed.

(** Under FCFS, SJF and Priority, for every valid process list whose times
    fit, every process given has a response time equal to its waiting time
    (it waits only before its single dispatch), and the average response
    time is the average waiting time. *)
Theorem non_preemptive_response_is_waiting (pol : Policy) (ps : list Process) :
  preemptive pol = false → Forall valid ps → fits ps →
  ∃ s, (∀ extra, Int32.schedule pol (steps_bound pol ps + extra) ps = Done s) ∧
       static <$> processes s ≡ₚ static <$> ps ∧
       Forall (fun p => responseTime p = waitingTime p) (processes s) ∧
       avgResponseTime s = avgWaitingTime s.
Proof.
  intros Hnp Hv Hfits.
  assert (valid_policy pol) as Hpol by (by destruct pol).
  destruct (int32_schedule_total pol ps Hpol Hv Hfits)
    as (s & Hrun & Hideal & _ & Hst & Hfin & Hok & _).
  assert (Forall (fun p => responseTime p = waitingTime p) (processes s)) as Hall.
  { apply Forall_lookup_2. intros k p Hp.
    pose proof (Forall_lookup_1 _ _ _ _ Hfin Hp) as [Ht Hw].
    pose proof (Forall_lookup_1 _ _ _ _ Hok Hp) as (Hc & Hr & Hrc & Hpre).
    rewrite Hnp in Hpre. lia. }
  assert (s = Int32.calculateMetrics (processes s)) as Hcalc.
  { specialize (Hrun (steps_bound pol ps) ltac:(lia)).
    rewrite int32_records_exact, Hideal in Hrun by (done || lia).
    rewrite calculateMetrics_processes in Hrun. by injection Hrun. }
  exists s. split_and!.
  - intros extra. apply Hrun. lia.
  - by apply (static_tie pol).
  - done.
  - rewrite Hcalc. by apply int32_response_waiting_averages.
Qed.

Lemma non_preemptive_response_is_waiting_witness :
  preemptive SJF = false ∧ Forall valid main_processes ∧ fits main_processes ∧
  ∃ s, (∀ extra, Int32.schedule SJF (steps_bound SJF main_processes + extra)
                   main_processes = Done s) ∧
       static <$> processes s ≡ₚ static <$> main_processes ∧
       Forall (fun p => responseTime p = waitingTime p) (processes s) ∧
       avgResponseTime s = avgWaitingTime s.
Proof.
  assert (preemptive SJF = false) as Hnp by reflexivity.
  split; [exact Hnp|]. split; [exact main_processes_valid|].
  split; [exact main_processes_fit|].
  exact (non_preemptive_response_is_waiting SJF main_processes Hnp
           main_processes_valid main_processes_fit).
Defined.

(** ** The averages *)

Lemma sum_field_bound f (l : list Process) c :
  Forall (fun p => f p ≤ c) l → sum_field f l ≤ Z.of_nat (length l) * c.
Proof.
  induction 1 as [|p l Hp _ IH]; [done|].
  rewrite sum_field_cons. cbn [length]. lia.
Qed.

Lemma totals_fit_fits ps : ps ≠ [] → Forall valid ps → totals_fit ps → fits ps.
Proof.
  intros Hne Hv. unfold totals_fit, fits.
  pose proof (max_arrival_nonneg ps). pose proof (total_burst_nonneg ps Hv).
  assert (1 ≤ Z.of_nat (length ps)) by (destruct ps; [done|simpl; lia]). nia.
Qed.

(** For every policy and every valid process list that is not empty and
    whose sums fit in an [int] (the number of processes times the bound on
    the clock at most [INT_MAX]), the three averages are the sums of the
    waiting, turnaround and response times of the processes given over
    their number; the sum of the turnaround times is the sum of the waiting
    times plus the sum of the burst times, so the average turnaround time
    is the average waiting time plus the mean burst. *)
Theorem averages_of_a_run (pol : Policy) (ps : list Process) :
  ps ≠ [] → valid_policy pol → Forall valid ps → totals_fit ps →
  ∃ s W R, (∀ extra, Int32.schedule pol (steps_bound pol ps + extra) ps = Done s) ∧
    static <$> processes s ≡ₚ static <$> ps ∧
    W = sum_field waitingTime (processes s) ∧
    R = sum_field responseTime (processes s) ∧
    0 ≤ W ∧ 0 ≤ R ∧ R ≤ W + total_burst ps ∧
    avgWaitingTime s = Fin (inject_Z W / inject_Z (Z.of_nat (length ps))) ∧
    avgTurnaroundTime s
    = Fin (inject_Z (W + total_burst ps) / inject_Z (Z.of_nat (length ps))) ∧
    avgResponseTime s = Fin (inject_Z R / inject_Z (Z.of_nat (length ps))).
Proof.
  intros Hne Hpol Hv Htot.
  pose proof (totals_fit_fits ps Hne Hv Htot) as Hfits.
  destruct (no_overflow_bounds pol ps Hpol Hv Hfits) as (s & Hrun & Hst & Hall).
  destruct (int32_schedule_total pol ps Hpol Hv Hfits)
    as (s1 & Hrun1 & Hideal & _).
  assert (s1 = s) as ->.
  { specialize (Hrun 0%nat). rewrite Hrun1 in Hrun by lia. by injection Hrun. }
  destruct (averages_in_Z pol ps Hne Hpol Hv)
    as (s0 & W & R & Hrun0 & HW & HR & HW0 & HR0 & HRW & Haw & Hat & Har).
  assert (s0 = calculateMetrics (processes s)) as Hs0.
  { specialize (Hrun0 0%nat). rewrite Hideal in Hrun0 by lia. by injection Hrun0. }
  assert (length (processes s) = length ps) as Hlen.
  { rewrite <- (length_fmap static), (Permutation_length Hst). apply length_fmap. }
  assert (Forall (fun p => 0 ≤ arrivalTime p ∧ 0 < burstTime p) (processes s))
    as Hgiven.
  { apply (Forall_fmap static
             (fun x : Z * Z * Z * Z => 0 ≤ x.1.1.2 ∧ 0 < x.1.2)).
    rewrite Hst. apply Forall_fmap.
    eapply Forall_impl; [exact Hv|]. by intros p (_ & ? & ?). }
  assert (Int32.calculateMetrics (processes s) = calculateMetrics (processes s))
    as Hexact.
  { unfold totals_fit in Htot. rewrite <- Hlen in Htot.
    apply int32_metrics_exact.
    - apply Forall_lookup_2. intros k p Hp.
      pose proof (Forall_lookup_1 _ _ _ _ Hall Hp) as Ha.
      pose proof (Forall_lookup_1 _ _ _ _ Hgiven Hp) as Hg. simpl in Ha, Hg. lia.
    - etransitivity; [|exact Htot]. apply sum_field_bound.
      apply Forall_lookup_2. intros k p Hp.
      pose proof (Forall_lookup_1 _ _ _ _ Hall Hp) as Ha.
      pose proof (Forall_lookup_1 _ _ _ _ Hgiven Hp) as Hg. simpl in Ha, Hg. lia.
    - etransitivity; [|exact Htot]. apply sum_field_bound.
      apply Forall_lookup_2. intros k p Hp.
      pose proof (Forall_lookup_1 _ _ _ _ Hall Hp) as Ha.
      pose proof (Forall_lookup_1 _ _ _ _ Hgiven Hp) as Hg. simpl in Ha, Hg. lia.
    - etransitivity; [|exact Htot]. apply sum_field_bound.
      apply Forall_lookup_2. intros k p Hp.
      pose proof (Forall_lookup_1 _ _ _ _ Hall Hp) as Ha.
      pose proof (Forall_lookup_1 _ _ _ _ Hgiven Hp) as Hg. simpl in Ha, Hg. lia. }
  assert (s = s0) as Hs.
  { specialize (Hrun 0%nat).
    rewrite int32_records_exact, Hideal in Hrun by (done || lia).
    rewrite calculateMetrics_processes, Hexact in Hrun. rewrite Hs0.
    by injection Hrun. }
  exists s, W, R. rewrite Hs. by split_and!; try done; rewrite <- Hs.
Qed.

Lemma main_processes_totals_fit : totals_fit main_processes.
Proof. unfold totals_fit, INT_MAX. cbn. lia. Qed.

Lemma averages_of_a_run_witness :
  main_processes ≠ [] ∧ valid_policy (RoundRobin 2) ∧ Forall valid main_processes ∧
  totals_fit main_processes ∧
  ∃ s W R,
    (∀ extra, Int32.schedule (RoundRobin 2)
                (steps_bound (RoundRobin 2) main_processes + extra)
                main_processes = Done s) ∧
    static <$> processes s ≡ₚ static <$> main_processes ∧
    W = sum_field waitingTime (processes s) ∧
    R = sum_field responseTime (processes s) ∧
    0 ≤ W ∧ 0 ≤ R ∧ R ≤ W + total_burst main_processes ∧
    avgWaitingTime s
    = Fin (inject_Z W / inject_Z (Z.of_nat (length main_processes))) ∧
    avgTurnaroundTime s
    = Fin (inject_Z (W + total_burst main_processes)
           / inject_Z (Z.of_nat (length main_processes))) ∧
    avgResponseTime s
    = Fin (inject_Z R / inject_Z (Z.of_nat (length main_processes))).
Proof.
  assert (main_processes ≠ []) as Hne by discriminate.
  assert (valid_policy (RoundRobin 2)) as Hpol by (simpl; lia).
  split; [exact Hne|]. split; [exact Hpol|]. split; [exact main_processes_valid|].
  split; [exact main_processes_totals_fit|].
  exact (averages_of_a_run (RoundRobin 2) main_processes Hne Hpol
           main_processes_valid main_processes_totals_fit).
Defined.

(** ** The preemptive heap policies stop at every arrival *)

Lemma reachable_pre32 cmp (ps0 : list Process) (st : Walk) :
  Forall valid ps0 → Forall ranged ps0 →
  reachable (Int32.pre_step cmp) (start ps0) st →
  ∃ dn, Inv32 true ps0 dn st ∧ guarded st.
Proof.
  intros Hv Hr Hreach.
  induction Hreach as [|st st' _ (dn & HI & Hg) Hlt Hstep].
  - exists []. split; [apply Inv32_start|by apply guarded_start].
  - destruct (pre_step32_ok cmp ps0 dn st Hv Hr HI Hg Hlt)
      as (st1 & dn' & Hstep1 & HI' & Hg' & _).
    rewrite Hstep in Hstep1. injection Hstep1 as <-. by exists dn'.
Qed.

(** Under SRTF and Preemptive Priority, whatever the comparator, on every
    valid input of [int] fields and whether or not the clock wraps around
    once every process has arrived, the clock never runs past an arrival:
    at the head of every iteration, every process that arrived before the
    clock has been admitted, so a newcomer competes for the CPU from its
    arrival time on. *)
Theorem preemptive_heap_stops_at_arrivals cmp (ps : list Process) (st : Walk) :
  Forall valid ps → Forall ranged ps →
  reachable (Int32.pre_step cmp) (start (std_sort ps)) st →
  none_passed st.
Proof.
  intros Hv Hr Hreach.
  assert (Forall valid (std_sort ps)) as Hv' by (by rewrite std_sort_perm).
  assert (Forall ranged (std_sort ps)) as Hr' by (by rewrite std_sort_perm).
  destruct (reachable_pre32 cmp _ st Hv' Hr' Hreach) as (dn & HI & Hg).
  assert (arrival_sorted (procs st)) as Hsorted.
  { eapply arrival_sorted_ext; [|apply (std_sort_sorted ps)].
    symmetry. apply static_arrivals, (i32_static _ _ _ _ HI). }
  intros k p Hp Ha. destruct (decide (k < idx st)%nat) as [|Hge]; [done|].
  destruct (lookup_lt_is_Some_2 (procs st) (idx st)) as [next Hnext].
  { apply lookup_lt_Some in Hp. lia. }
  destruct (Hg next Hnext) as [_ Hle].
  pose proof (arrival_sorted_lookup _ (idx st) k _ _ Hsorted ltac:(lia) Hnext Hp).
  lia.
Qed.

Lemma preemptive_heap_stops_at_arrivals_witness :
  Forall valid main_processes ∧ Forall ranged main_processes ∧
  reachable (Int32.pre_step SRTF_cmp) (start (std_sort main_processes))
            main_SRTF_after_three ∧
  none_passed main_SRTF_after_three.
Proof.
  assert (reachable (Int32.pre_step SRTF_cmp) (start (std_sort main_processes))
                    main_SRTF_after_three) as Hreach.
  { eapply reach_step;
      [eapply reach_step;
         [eapply reach_step; [apply reach_start|simpl; lia|reflexivity]
         |simpl; lia|reflexivity]
      |simpl; lia|reflexivity]. }
  split; [exact main_processes_valid|]. split; [exact main_processes_ranged|].
  split; [exact Hreach|].
  exact (preemptive_heap_stops_at_arrivals SRTF_cmp main_processes _
           main_processes_valid main_processes_ranged Hreach).
Defined.

(** ** The slices of a run, in time order *)

(** Under the five policies with a ready queue, on valid input whose times
    fit in an [int], the slices of a run come in time order: each has
    positive length and starts no earlier than the one before it ended, so
    the CPU runs one process at a time and the clock never goes back. *)
Theorem slices_in_order pol step (ps : list Process) fuel :
  Int32.loop_body pol = Some step → valid_policy pol → Forall valid ps →
  fits ps →
  in_order 0 (gantt pol step fuel (start (arranged pol ps))).
Proof.
  intros Hbody32 Hpol Hv Hfits.
  assert (∃ step0, loop_body pol = Some step0) as [step0 Hbody]
      by (destruct pol; simpl in *; by eauto).
  pose proof (valid_arranged pol ps Hv) as Hv'.
  rewrite (gantt_exact pol step0 step (arranged pol ps) fuel Hbody Hbody32 Hpol
             Hv' (fits_arranged pol ps Hfits) (start (arranged pol ps)) []).
  - by apply slices_in_order_in_Z.
  - apply Inv_start.
  - by apply Timed_start.
  - by apply Within_start.
Qed.

Lemma slices_in_order_witness :
  Int32.loop_body (RoundRobin 2) = Some (Int32.rr_step 2) ∧
  valid_policy (RoundRobin 2) ∧ Forall valid main_processes ∧
  fits main_processes ∧
  in_order 0 (gantt (RoundRobin 2) (Int32.rr_step 2) 30
                (start (arranged (RoundRobin 2) main_processes))).
Proof.
  assert (valid_policy (RoundRobin 2)) as Hpol by (simpl; lia).
  split; [reflexivity|]. split; [exact Hpol|].
  split; [exact main_processes_valid|]. split; [exact main_processes_fit|].
  exact (slices_in_order (RoundRobin 2) (Int32.rr_step 2) main_processes 30
           eq_refl Hpol main_processes_valid main_processes_fit).
Defined.

(** ** FCFS *)

(** FCFS on a valid input whose times fit in an [int] runs the processes
    given one after another in order of arrival, each as soon as it has
    arrived and its predecessor has completed: the first starts at its
    arrival time, each next one at [max(completion of its predecessor,
    arrival)]; and the response time of each is its start minus its
    arrival, never negative and equal to its waiting time. *)
Theorem FCFS_runs_back_to_back (fuel : nat) (ps : list Process) :
  Forall valid ps → fits ps →
  ∃ s, Int32.schedule FCFS fuel ps = Done s ∧
       static <$> processes s ≡ₚ static <$> ps ∧
       arrival_sorted (processes s) ∧
       (∀ p, processes s !! 0%nat = Some p → startTime p = arrivalTime p) ∧
       (∀ k p q, processes s !! k = Some p → processes s !! S k = Some q →
                 startTime q = Z.max (completionTime p) (arrivalTime q)) ∧
       Forall (fun p => responseTime p = startTime p - arrivalTime p ∧
                        waitingTime p = responseTime p ∧ 0 ≤ responseTime p)
              (processes s).
Proof.
  intros Hv Hfits.
  destruct (FCFS_timeline_in_Z fuel ps) as (s0 & Hrun0 & Hsorted & H0 & Hk & Hall).
  pose proof (int32_records_exact FCFS fuel ps I Hv Hfits) as Hrun.
  rewrite Hrun0 in Hrun.
  assert (static <$> processes s0 = static <$> std_sort ps) as Hst.
  { cbn [schedule] in Hrun0. unfold FCFS_schedule in Hrun0.
    injection Hrun0 as <-. rewrite calculateMetrics_processes.
    apply FCFS_loop_static. }
  exists (Int32.calculateMetrics (processes s0)). rewrite int32_processes.
  split_and!; [done| |done| |done|done].
  - rewrite Hst. apply fmap_Permutation, std_sort_perm.
  - intros p Hp. rewrite (H0 p Hp).
    destruct (static_lookup _ _ _ _ Hst Hp) as (p0 & Hp0 & Heq).
    assert (Forall valid (std_sort ps)) as Hv' by (by rewrite std_sort_perm).
    destruct (Forall_lookup_1 _ _ _ _ Hv' Hp0) as (_ & Ha & _).
    unfold static in Heq. simplify_eq. lia.
Qed.

Lemma FCFS_runs_back_to_back_witness :
  Forall valid main_processes ∧ fits main_processes ∧
  ∃ s, Int32.schedule FCFS 0 main_processes = Done s ∧
       static <$> processes s ≡ₚ static <$> main_processes ∧
       arrival_sorted (processes s) ∧
       (∀ p, processes s !! 0%nat = Some p → startTime p = arrivalTime p) ∧
       (∀ k p q, processes s !! k = Some p → processes s !! S k = Some q →
                 startTime q = Z.max (completionTime p) (arrivalTime q)) ∧
       Forall (fun p => responseTime p = startTime p - arrivalTime p ∧
                        waitingTime p = responseTime p ∧ 0 ≤ responseTime p)
              (processes s).
Proof.
  split; [exact main_processes_valid|]. split; [exact main_processes_fit|].
  exact (FCFS_runs_back_to_back 0 main_processes
           main_processes_valid main_processes_fit).
Defined.

Lemma FCFS_visit32_again now p :
  Int32.FCFS_visit now (Int32.FCFS_visit now p).2 = Int32.FCFS_visit now p.
Proof. done. Qed.

Lemma FCFS_loop32_again now ps :
  Int32.FCFS_loop now (Int32.FCFS_loop now ps) = Int32.FCFS_loop now ps.
Proof.
  revert now. induction ps as [|p ps IH]; intros now; [done|].
  cbn [Int32.FCFS_loop].
  destruct (Int32.FCFS_visit now p) as [now' p'] eqn:Hvisit.
  cbn [Int32.FCFS_loop].
  pose proof (FCFS_visit32_again now p) as Hagain. rewrite Hvisit in Hagain.
  simpl in Hagain. rewrite Hagain. by rewrite IH.
Qed.

Lemma sort_exact_static (l l' : list Process) :
  static <$> l ≡ₚ static <$> l' → sort_exact l → sort_exact l'.
Proof.
  intros Hst. unfold sort_exact.
  assert (arrivalTime <$> l ≡ₚ arrivalTime <$> l') as Harr.
  { assert (∀ k : list Process,
              arrivalTime <$> k
              = (fun s : Z * Z * Z * Z => s.1.1.2) <$> (static <$> k)) as H
        by (intros k; by rewrite <- list_fmap_compose).
    rewrite !H. by apply fmap_Permutation. }
  pose proof (Permutation_length Hst) as Hlen. rewrite !length_fmap in Hlen.
  intros [Hle|Hnd]; [left; lia|right; by rewrite <- Harr].
Qed.

(** [FCFSScheduler::schedule] called a second time on the same object,
    whose vector then holds the records of the first call, returns the same
    records and the same metrics: it reads [arrivalTime] and [burstTime]
    only and overwrites every field it computes.  The vector is one that
    [std::sort] leaves as the model does: at most 16 processes, or no two
    arrival times equal; the vector of the second call is one as well. *)
Theorem FCFS_schedule_twice (fuel : nat) (ps : list Process) :
  sort_exact ps →
  ∃ s, Int32.schedule FCFS fuel ps = Done s ∧
       static <$> processes s ≡ₚ static <$> ps ∧
       sort_exact (processes s) ∧
       Int32.schedule FCFS fuel (processes s) = Done s.
Proof.
  intros Hexact. eexists. split; [reflexivity|].
  rewrite int32_processes.
  assert (static <$> Int32.FCFS_loop 0 (std_sort ps) ≡ₚ static <$> ps) as Hst.
  { rewrite FCFS_loop32_static. apply fmap_Permutation, std_sort_perm. }
  split_and!; [done|by apply (sort_exact_static ps)|].
  cbn [Int32.schedule]. rewrite std_sort_of_sorted.
  - by rewrite FCFS_loop32_again.
  - eapply arrival_sorted_ext; [|apply (std_sort_sorted ps)].
    symmetry. apply static_arrivals, FCFS_loop32_static.
Qed.

Lemma FCFS_schedule_twice_witness :
  sort_exact main_processes ∧
  ∃ s, Int32.schedule FCFS 0 main_processes = Done s ∧
       static <$> processes s ≡ₚ static <$> main_processes ∧
       sort_exact (processes s) ∧
       Int32.schedule FCFS 0 (processes s) = Done s.
Proof.
  assert (sort_exact main_processes) as Hexact by (left; simpl; lia).
  split; [exact Hexact|].
  exact (FCFS_schedule_twice 0 main_processes Hexact).
Defined.

(** ** Round Robin with a large quantum *)

Lemma int32_metrics_totals_run_down ps :
  Int32.metrics_totals (run_down ps) = Int32.metrics_totals ps.
Proof.
  unfold Int32.metrics_totals, run_down. generalize (0, 0, 0, 0).
  induction ps as [|p ps IH]; intros [[[w t] r] m]; [done|].
  rewrite fmap_cons. cbn [fold_left]. by rewrite IH.
Qed.

Lemma int32_calculateMetrics_run_down ps :
  let s := Int32.calculateMetrics (run_down ps) in
  let s' := Int32.calculateMetrics ps in
  processes s = run_down (processes s') ∧
  avgWaitingTime s = avgWaitingTime s' ∧
  avgTurnaroundTime s = avgTurnaroundTime s' ∧
  avgResponseTime s = avgResponseTime s' ∧
  throughput s = throughput s'.
Proof.
  unfold Int32.calculateMetrics. rewrite int32_metrics_totals_run_down.
  destruct (Int32.metrics_totals ps) as [[[w t] r] m].
  unfold run_down. rewrite length_fmap. done.
Qed.

(** When no burst exceeds the quantum, Round Robin on a valid process list
    whose times fit in an [int] runs every process to its end in one
    slice, in the order of the list; on a list in order of arrival (one
    that [std::sort] leaves as it is: at most 16 processes, or no two
    arrival times equal) it computes the response, completion, turnaround
    and waiting times of FCFS, and the same averages and throughput.  The
    records differ in [remainingTime] only, which Round Robin counts down
    to 0 and FCFS leaves alone. *)
Theorem RoundRobin_large_quantum_is_FCFS (timeQuantum : Z) (ps : list Process) :
  arrival_sorted ps → sort_exact ps → Forall valid ps → fits ps →
  valid_policy (RoundRobin timeQuantum) →
  Forall (fun p => burstTime p ≤ timeQuantum) ps →
  ∃ s s',
    (∀ fuel, (2 * length ps ≤ fuel)%nat →
             Int32.schedule (RoundRobin timeQuantum) fuel ps = Done s) ∧
    (∀ fuel, Int32.schedule FCFS fuel ps = Done s') ∧
    static <$> processes s' = static <$> ps ∧
    processes s = run_down (processes s') ∧
    timings (Done s) = timings (Done s') ∧
    avgWaitingTime s = avgWaitingTime s' ∧
    avgTurnaroundTime s = avgTurnaroundTime s' ∧
    avgResponseTime s = avgResponseTime s' ∧
    throughput s = throughput s'.
Proof.
  intros Hsorted _ Hv Hfits Hpol Hq.
  destruct (RoundRobin_as_FCFS_in_Z timeQuantum ps Hsorted Hv Hq)
    as (s0 & s0' & Hrr & Hfcfs & Hprocs & _).
  assert (static <$> processes s0' = static <$> ps) as Hst.
  { specialize (Hfcfs 0%nat). cbn [schedule] in Hfcfs. unfold FCFS_schedule in Hfcfs.
    injection Hfcfs as <-. rewrite calculateMetrics_processes, FCFS_loop_static.
    by rewrite std_sort_of_sorted. }
  destruct (int32_calculateMetrics_run_down (processes s0'))
    as (Hp & Haw & Hat & Har & Hth).
  exists (Int32.calculateMetrics (processes s0)),
         (Int32.calculateMetrics (processes s0')).
  rewrite Hprocs. rewrite !int32_processes in *.
  split_and!; try done.
  - intros fuel Hfuel.
    rewrite (int32_records_exact (RoundRobin timeQuantum) fuel ps Hpol Hv Hfits).
    by rewrite (Hrr fuel Hfuel), Hprocs.
  - intros fuel. rewrite (int32_records_exact FCFS fuel ps I Hv Hfits).
    by rewrite (Hfcfs fuel).
  - cbn [timings]. rewrite !int32_processes. unfold run_down.
    rewrite <- list_fmap_compose. done.
Qed.

Lemma RoundRobin_large_quantum_is_FCFS_witness :
  arrival_sorted main_processes ∧ sort_exact main_processes ∧
  Forall valid main_processes ∧ fits main_processes ∧
  valid_policy (RoundRobin 10) ∧
  Forall (fun p => burstTime p ≤ 10) main_processes ∧
  ∃ s s',
    (∀ fuel, (2 * length main_processes ≤ fuel)%nat →
             Int32.schedule (RoundRobin 10) fuel main_processes = Done s) ∧
    (∀ fuel, Int32.schedule FCFS fuel main_processes = Done s') ∧
    static <$> processes s' = static <$> main_processes ∧
    processes s = run_down (processes s') ∧
    timings (Done s) = timings (Done s') ∧
    avgWaitingTime s = avgWaitingTime s' ∧
    avgTurnaroundTime s = avgTurnaroundTime s' ∧
    avgResponseTime s = avgResponseTime s' ∧
    throughput s = throughput s'.
Proof.
  assert (arrival_sorted main_processes) as Hs.
  { unfold main_processes. cbn. repeat split; repeat constructor; cbn; lia. }
  assert (sort_exact main_processes) as Hexact by (left; simpl; lia).
  assert (valid_policy (RoundRobin 10)) as Hpol by (simpl; lia).
  assert (Forall (fun p => burstTime p ≤ 10) main_processes) as Hq
      by (unfold main_processes; repeat constructor; simpl; lia).
  split; [exact Hs|]. split; [exact Hexact|].
  split; [exact main_processes_valid|]. split; [exact main_processes_fit|].
  split; [exact Hpol|]. split; [exact Hq|].
  exact (RoundRobin_large_quantum_is_FCFS 10 main_processes Hs Hexact
           main_processes_valid main_processes_fit Hpol Hq).
Defined.
